(** * The policy manager of the OpFlex agent (agent-ovs/lib/PolicyManager.cpp)

    A shallow embedding of the policy-resolution core: the index maps of
    [PolicyManager], the query surface, the forwarding-domain resolver
    ([updateEPGDomains], [updateDomain]), the contract indexer
    ([updateGroupContracts], [removeContractIfRequired]), the rule compiler
    ([updatePolicyRules], [updateContractRules], [updateContracts]), the
    redirect-group engine ([updateRedirectDestGroup]), the external-network
    tracker ([updateL3Nets]) and [stop].

    Conventions.
    - A URI is a string.  Fixed-width integers are [Z]; where the source
      does arithmetic on them the wrap-around is written out.
    - [std::unordered_map] / [std::unordered_set] are [gmap] / [gset].  Their
      iteration order, unspecified in C++, is the order of [map_to_list] /
      [elements]; the loops themselves are written over an explicit list of
      keys, and the lemmas about them hold for every such list.
    - The managed-object store is an external collaborator.  It is seen only
      through its [resolve] functions, and a resolved object carries the
      children and references that the generated accessors
      ([resolveGbpeInstContext], [getTargetURI], ...) would return for it.
      A handle to a store object is modelled by the object it denotes.
    - PolicyManager.h and the generated model classes are not part of the
      sources at hand: the records below have the members and accessors
      that PolicyManager.cpp uses, under the names it uses.
    - [shared_ptr<PolicyRule>] and [shared_ptr<PolicyRedirectDest>] are
      allocated by the manager itself and compared by address in the source,
      so they carry an address drawn from a bump allocator [heap_next].
    - Dereferencing an unset [boost::optional] and erasing [end()] are
      undefined in C++; the embedding makes them the outcome [Undefined].
    - An update routine runs against one snapshot of the store. *)

From Stdlib Require Import ZArith Lia.
From stdpp Require Import base option list strings gmap sets sorting.

Local Open Scope Z_scope.

Abbreviation URI := string (only parsing).

(** ** Outcomes of fallible code *)

Inductive outcome (A : Type) : Type :=
  | Done (a : A)
  | Undefined
  | OutOfFuel.
Arguments Done {A} a.
Arguments Undefined {A}.
Arguments OutOfFuel {A}.

#[global] Instance outcome_ret : MRet outcome := fun _ a => Done a.
#[global] Instance outcome_bind : MBind outcome := fun _ _ f m =>
  match m with
  | Done a => f a
  | Undefined => Undefined
  | OutOfFuel => OutOfFuel
  end.

(** [o.get()] on a [boost::optional]. *)
Definition opt_get {A} (o : option A) : outcome A :=
  match o with
  | Some a => Done a
  | None => Undefined
  end.

(** ** Class identifiers

    The [CLASS_ID] constants come from the generated model headers; only
    their being pairwise distinct matters here. *)

Inductive class_id_t : Set :=
  | EpGroup_CLASS_ID
  | L3ExternalNetwork_CLASS_ID
  | RoutingDomain_CLASS_ID
  | BridgeDomain_CLASS_ID
  | FloodDomain_CLASS_ID
  | FloodContext_CLASS_ID
  | Subnets_CLASS_ID
  | Subnet_CLASS_ID
  | Contract_CLASS_ID
  | Subject_CLASS_ID
  | Rule_CLASS_ID
  | L24Classifier_CLASS_ID
  | AllowDenyAction_CLASS_ID
  | RedirectAction_CLASS_ID
  | RedirectDestGroup_CLASS_ID
  | RedirectDest_CLASS_ID
  | SecGroup_CLASS_ID
  | Other_CLASS_ID (n : Z).

#[global] Instance class_id_eq_dec : EqDecision class_id_t.
Proof. solve_decision. Defined.

(** ** Managed objects *)

(** A relation source object ([...RSrc]): its reference property holds the
    class and the URI of the target together, or is unset. *)
Record RSrc : Set := { rsrc_target : option (class_id_t * URI) }.

Definition isTargetSet (r : RSrc) : bool := bool_decide (is_Some (rsrc_target r)).
Definition getTargetClass (r : RSrc) : option class_id_t := fst <$> rsrc_target r.
Definition getTargetURI (r : RSrc) : option URI := snd <$> rsrc_target r.

Record EndpointRetention : Set := { epret_uri : URI }.

Record InstContext : Set := {
  ic_encapId : option Z;
  ic_multicastGroupIP : option string;
  ic_classid : option Z;
  ic_epRetentionRSrc : option RSrc
}.

Definition getEncapId (ic : InstContext) : option Z := ic_encapId ic.

Record Subnet : Set := {
  sn_uri : URI;
  sn_address : option string;
  sn_prefixLen : option Z
}.

Record Subnets : Set := { sns_subnet : list Subnet }.

Record FloodContext : Set := { fctx_uri : URI }.

Record EpGroup : Set := {
  epg_uri : URI;
  epg_instContext : option InstContext;
  epg_networkRSrc : option RSrc;
  epg_subnetsRSrc : option RSrc;
  epg_provContractRSrc : list RSrc;
  epg_consContractRSrc : list RSrc;
  epg_intraContractRSrc : list RSrc
}.

Record BridgeDomain : Set := {
  bd_uri : URI;
  bd_networkRSrc : option RSrc;
  bd_subnetsRSrc : option RSrc;
  bd_instContext : option InstContext;
  bd_routingMode : option Z
}.

Record FloodDomain : Set := {
  fd_uri : URI;
  fd_networkRSrc : option RSrc;
  fd_floodContext : option FloodContext;
  fd_subnetsRSrc : option RSrc
}.

Record L3ExternalNetwork : Set := {
  l3n_uri : URI;
  l3n_natEPGroupRSrc : option RSrc;
  l3n_provContractRSrc : list RSrc;
  l3n_consContractRSrc : list RSrc
}.

Record L3ExternalDomain : Set := { l3d_network : list L3ExternalNetwork }.

Record RoutingDomain : Set := {
  rd_uri : URI;
  rd_subnetsRSrc : option RSrc;
  rd_instContext : option InstContext;
  rd_l3ExternalDomain : list L3ExternalDomain
}.

Record L24Classifier : Set := {
  cls_uri : URI;
  cls_order : option Z
}.

Record AllowDenyAction : Set := {
  ada_order : option Z;
  ada_allow : option Z
}.

Record RedirectAction : Set := {
  (* the RedirectActionToDestGrpRSrc child, when there is one *)
  ra_destGrpRSrc : option RSrc
}.

Record Rule : Set := {
  rule_uri : URI;
  rule_order : option Z;
  rule_direction : option Z;
  rule_classifierRSrc : list RSrc;
  rule_actionRSrc : list RSrc
}.

Record Subject : Set := { subj_rule : list Rule }.

Record Contract : Set := { contract_subject : list Subject }.

Record RedirectDest : Set := {
  rdst_uri : URI;
  rdst_domainRSrc : list RSrc;
  rdst_ip : option string;
  rdst_mac : option string
}.

Record RedirectDestGroup : Set := {
  rdg_redirectDest : list RedirectDest;
  rdg_hashAlgo : option Z;
  rdg_resilientHashEnabled : option Z
}.

#[global] Instance RSrc_eq_dec : EqDecision RSrc.
Proof. solve_decision. Defined.
#[global] Instance EndpointRetention_eq_dec : EqDecision EndpointRetention.
Proof. solve_decision. Defined.
#[global] Instance InstContext_eq_dec : EqDecision InstContext.
Proof. solve_decision. Defined.
#[global] Instance Subnet_eq_dec : EqDecision Subnet.
Proof. solve_decision. Defined.
#[global] Instance FloodContext_eq_dec : EqDecision FloodContext.
Proof. solve_decision. Defined.
#[global] Instance EpGroup_eq_dec : EqDecision EpGroup.
Proof. solve_decision. Defined.
#[global] Instance BridgeDomain_eq_dec : EqDecision BridgeDomain.
Proof. solve_decision. Defined.
#[global] Instance FloodDomain_eq_dec : EqDecision FloodDomain.
Proof. solve_decision. Defined.
#[global] Instance L3ExternalNetwork_eq_dec : EqDecision L3ExternalNetwork.
Proof. solve_decision. Defined.
#[global] Instance L3ExternalDomain_eq_dec : EqDecision L3ExternalDomain.
Proof. solve_decision. Defined.
#[global] Instance RoutingDomain_eq_dec : EqDecision RoutingDomain.
Proof. solve_decision. Defined.
#[global] Instance L24Classifier_eq_dec : EqDecision L24Classifier.
Proof. solve_decision. Defined.

(** ** The managed-object store, as the resolver sees it *)

Record MOStore : Type := {
  resolveEpGroup : URI → option EpGroup;
  resolveBridgeDomain : URI → option BridgeDomain;
  resolveFloodDomain : URI → option FloodDomain;
  resolveRoutingDomain : URI → option RoutingDomain;
  resolveSubnets : URI → option Subnets;
  resolveEndpointRetention : URI → option EndpointRetention;
  resolveL3ExternalNetwork : URI → option L3ExternalNetwork;
  resolveContract : URI → option Contract;
  resolveL24Classifier : URI → option L24Classifier;
  resolveAllowDenyAction : URI → option AllowDenyAction;
  resolveRedirectAction : URI → option RedirectAction;
  resolveRedirectDestGroup : URI → option RedirectDestGroup
}.

(** The store with no object in it. *)
Definition emptyStore : MOStore := {|
  resolveEpGroup := fun _ => None;
  resolveBridgeDomain := fun _ => None;
  resolveFloodDomain := fun _ => None;
  resolveRoutingDomain := fun _ => None;
  resolveSubnets := fun _ => None;
  resolveEndpointRetention := fun _ => None;
  resolveL3ExternalNetwork := fun _ => None;
  resolveContract := fun _ => None;
  resolveL24Classifier := fun _ => None;
  resolveAllowDenyAction := fun _ => None;
  resolveRedirectAction := fun _ => None;
  resolveRedirectDestGroup := fun _ => None
|}.

(** ** Values owned by the policy manager *)

(** A [shared_ptr<T>] to an object the manager allocated: [get] is the raw
    pointer, the only thing the change detection looks at. *)
Record shared_ptr (A : Type) : Type := { get : positive; deref : A }.
Arguments get {A} _.
Arguments deref {A} _.

(** [network::subnets_t]: a set of (address, prefix length). *)
Abbreviation subnets_t := (gset (string * Z)) (only parsing).

Record PolicyRule : Type := {
  direction : Z;                  (* uint8_t *)
  prio : Z;                       (* uint16_t *)
  l24Classifier : L24Classifier;
  allow : bool;
  remoteSubnets : subnets_t;
  redirect : bool;
  redirDstGrpURI : option URI
}.

Abbreviation rule_list_t := (list (shared_ptr PolicyRule)) (only parsing).

Record PolicyRedirectDest : Type := {
  prd_redirDst : RedirectDest;
  prd_ip : Z;                     (* boost::asio::ip::address *)
  prd_mac : string;
  prd_rd : RoutingDomain;
  prd_bd : BridgeDomain;
  prd_rdInst : InstContext;
  prd_bdInst : InstContext
}.

Abbreviation redir_dest_list_t := (list (shared_ptr PolicyRedirectDest)) (only parsing).

Record GroupState : Type := {
  epGroup : option EpGroup;
  instContext : option InstContext;
  floodDomain : option FloodDomain;
  floodContext : option FloodContext;
  bridgeDomain : option BridgeDomain;
  routingDomain : option RoutingDomain;
  subnet_map : gmap URI Subnet;
  instBDContext : option InstContext;
  instRDContext : option InstContext;
  l2EpRetPolicy : option EndpointRetention;
  l3EpRetPolicy : option EndpointRetention
}.

(** What [group_map[uri]] creates for a URI not seen before. *)
Definition emptyGroupState : GroupState := {|
  epGroup := None; instContext := None; floodDomain := None;
  floodContext := None; bridgeDomain := None; routingDomain := None;
  subnet_map := ∅; instBDContext := None; instRDContext := None;
  l2EpRetPolicy := None; l3EpRetPolicy := None
|}.

Record L3NetworkState : Type := {
  l3s_routingDomain : option RoutingDomain;
  l3s_natEpg : option URI
}.

Definition emptyL3NetworkState : L3NetworkState :=
  {| l3s_routingDomain := None; l3s_natEpg := None |}.

Record RoutingDomainState : Type := { extNets : gset URI }.

Record GroupContractState : Type := {
  contractsProvided : gset URI;
  contractsConsumed : gset URI;
  contractsIntra : gset URI
}.

Definition emptyGroupContractState : GroupContractState :=
  {| contractsProvided := ∅; contractsConsumed := ∅; contractsIntra := ∅ |}.

Record ContractState : Type := {
  providerGroups : gset URI;
  consumerGroups : gset URI;
  intraGroups : gset URI;
  rules : rule_list_t
}.

Definition emptyContractState : ContractState :=
  {| providerGroups := ∅; consumerGroups := ∅; intraGroups := ∅; rules := [] |}.

Record RedirectDestGrpState : Type := {
  redirDstList : redir_dest_list_t;
  hashAlgo : Z;                   (* uint8_t *)
  resilientHashEnabled : Z;       (* uint8_t *)
  ctrctSet : gset URI
}.

(** What [redirGrpMap[uri]] creates: value-initialised members. *)
Definition emptyRedirectDestGrpState : RedirectDestGrpState :=
  {| redirDstList := []; hashAlgo := 0; resilientHashEnabled := 0; ctrctSet := ∅ |}.

(** The state guarded by [state_mutex], and the allocator. *)
Record PolicyManager : Type := {
  group_map : gmap URI GroupState;
  vnid_map : gmap Z URI;
  redirGrpMap : gmap URI RedirectDestGrpState;
  contractMap : gmap URI ContractState;
  secGrpMap : gmap URI rule_list_t;
  groupContractMap : gmap URI GroupContractState;
  l3n_map : gmap URI L3NetworkState;
  rd_map : gmap URI RoutingDomainState;
  nat_epg_l3_ext : gmap URI (gset URI);
  heap_next : positive
}.

Definition initialManager : PolicyManager := {|
  group_map := ∅; vnid_map := ∅; redirGrpMap := ∅; contractMap := ∅;
  secGrpMap := ∅; groupContractMap := ∅; l3n_map := ∅; rd_map := ∅;
  nat_epg_l3_ext := ∅; heap_next := 1%positive
|}.

Definition set_group_map (f : gmap URI GroupState → gmap URI GroupState)
    (pm : PolicyManager) : PolicyManager :=
  {| group_map := f (group_map pm); vnid_map := vnid_map pm;
     redirGrpMap := redirGrpMap pm; contractMap := contractMap pm;
     secGrpMap := secGrpMap pm; groupContractMap := groupContractMap pm;
     l3n_map := l3n_map pm; rd_map := rd_map pm;
     nat_epg_l3_ext := nat_epg_l3_ext pm; heap_next := heap_next pm |}.

Definition set_vnid_map (f : gmap Z URI → gmap Z URI)
    (pm : PolicyManager) : PolicyManager :=
  {| group_map := group_map pm; vnid_map := f (vnid_map pm);
     redirGrpMap := redirGrpMap pm; contractMap := contractMap pm;
     secGrpMap := secGrpMap pm; groupContractMap := groupContractMap pm;
     l3n_map := l3n_map pm; rd_map := rd_map pm;
     nat_epg_l3_ext := nat_epg_l3_ext pm; heap_next := heap_next pm |}.

Definition set_redirGrpMap
    (f : gmap URI RedirectDestGrpState → gmap URI RedirectDestGrpState)
    (pm : PolicyManager) : PolicyManager :=
  {| group_map := group_map pm; vnid_map := vnid_map pm;
     redirGrpMap := f (redirGrpMap pm); contractMap := contractMap pm;
     secGrpMap := secGrpMap pm; groupContractMap := groupContractMap pm;
     l3n_map := l3n_map pm; rd_map := rd_map pm;
     nat_epg_l3_ext := nat_epg_l3_ext pm; heap_next := heap_next pm |}.

Definition set_contractMap (f : gmap URI ContractState → gmap URI ContractState)
    (pm : PolicyManager) : PolicyManager :=
  {| group_map := group_map pm; vnid_map := vnid_map pm;
     redirGrpMap := redirGrpMap pm; contractMap := f (contractMap pm);
     secGrpMap := secGrpMap pm; groupContractMap := groupContractMap pm;
     l3n_map := l3n_map pm; rd_map := rd_map pm;
     nat_epg_l3_ext := nat_epg_l3_ext pm; heap_next := heap_next pm |}.

Definition set_groupContractMap
    (f : gmap URI GroupContractState → gmap URI GroupContractState)
    (pm : PolicyManager) : PolicyManager :=
  {| group_map := group_map pm; vnid_map := vnid_map pm;
     redirGrpMap := redirGrpMap pm; contractMap := contractMap pm;
     secGrpMap := secGrpMap pm; groupContractMap := f (groupContractMap pm);
     l3n_map := l3n_map pm; rd_map := rd_map pm;
     nat_epg_l3_ext := nat_epg_l3_ext pm; heap_next := heap_next pm |}.

Definition set_l3n_map (f : gmap URI L3NetworkState → gmap URI L3NetworkState)
    (pm : PolicyManager) : PolicyManager :=
  {| group_map := group_map pm; vnid_map := vnid_map pm;
     redirGrpMap := redirGrpMap pm; contractMap := contractMap pm;
     secGrpMap := secGrpMap pm; groupContractMap := groupContractMap pm;
     l3n_map := f (l3n_map pm); rd_map := rd_map pm;
     nat_epg_l3_ext := nat_epg_l3_ext pm; heap_next := heap_next pm |}.

Definition set_rd_map (f : gmap URI RoutingDomainState → gmap URI RoutingDomainState)
    (pm : PolicyManager) : PolicyManager :=
  {| group_map := group_map pm; vnid_map := vnid_map pm;
     redirGrpMap := redirGrpMap pm; contractMap := contractMap pm;
     secGrpMap := secGrpMap pm; groupContractMap := groupContractMap pm;
     l3n_map := l3n_map pm; rd_map := f (rd_map pm);
     nat_epg_l3_ext := nat_epg_l3_ext pm; heap_next := heap_next pm |}.

Definition set_nat_epg_l3_ext (f : gmap URI (gset URI) → gmap URI (gset URI))
    (pm : PolicyManager) : PolicyManager :=
  {| group_map := group_map pm; vnid_map := vnid_map pm;
     redirGrpMap := redirGrpMap pm; contractMap := contractMap pm;
     secGrpMap := secGrpMap pm; groupContractMap := groupContractMap pm;
     l3n_map := l3n_map pm; rd_map := rd_map pm;
     nat_epg_l3_ext := f (nat_epg_l3_ext pm); heap_next := heap_next pm |}.

Definition set_heap_next (n : positive) (pm : PolicyManager) : PolicyManager :=
  {| group_map := group_map pm; vnid_map := vnid_map pm;
     redirGrpMap := redirGrpMap pm; contractMap := contractMap pm;
     secGrpMap := secGrpMap pm; groupContractMap := groupContractMap pm;
     l3n_map := l3n_map pm; rd_map := rd_map pm;
     nat_epg_l3_ext := nat_epg_l3_ext pm; heap_next := n |}.

(** [m[k]] on a map: the entry, created from the default when absent. *)
Definition index_or {V} (dflt : V) (k : URI) (m : gmap URI V) : V :=
  default dflt (m !! k).

Definition ensure {V} (dflt : V) (k : URI) (m : gmap URI V) : gmap URI V :=
  <[k := index_or dflt k m]> m.

(** [m.insert(make_pair(k, v))]: no effect when [k] is already a key. *)
Definition insert_if_absent (k : Z) (v : URI) (m : gmap Z URI) : gmap Z URI :=
  match m !! k with
  | Some _ => m
  | None => <[k := v]> m
  end.

(** ** Query surface *)

Definition getGroupForVnid (pm : PolicyManager) (vnid : Z) : option URI :=
  vnid_map pm !! vnid.

Definition getVnidForGroup (pm : PolicyManager) (eg : URI) : option Z :=
  match group_map pm !! eg with
  | Some gs =>
      match instContext gs with
      | Some ic =>
          match getEncapId ic with
          | Some v => Some v
          | None => None
          end
      | None => None
      end
  | None => None
  end.

(** The guard tests [instBDContext]; the encap id is read through
    [instContext.get()], which is undefined when [instContext] is unset. *)
Definition getBDVnidForGroup (pm : PolicyManager) (eg : URI) : outcome (option Z) :=
  match group_map pm !! eg with
  | Some gs =>
      match instBDContext gs with
      | Some _ =>
          ic ← opt_get (instContext gs);
          match getEncapId ic with
          | Some v => Done (Some v)
          | None => Done None
          end
      | None => Done None
      end
  | None => Done None
  end.

(** Guard and reads all go through [instRDContext]. *)
Definition getRDVnidForGroup (pm : PolicyManager) (eg : URI) : outcome (option Z) :=
  match group_map pm !! eg with
  | Some gs =>
      match instRDContext gs with
      | Some ic =>
          match getEncapId ic with
          | Some v => Done (Some v)
          | None => Done None
          end
      | None => Done None
      end
  | None => Done None
  end.

Definition groupExists (pm : PolicyManager) (eg : URI) : bool :=
  bool_decide (is_Some (group_map pm !! eg)).

Definition contractExists (pm : PolicyManager) (cURI : URI) : bool :=
  bool_decide (is_Some (contractMap pm !! cURI)).

(** ** [stop]

    Unregistering the listeners has no effect on the indices; under the
    state lock three maps are cleared. *)
Definition stop (pm : PolicyManager) : PolicyManager :=
  set_redirGrpMap (fun _ => ∅)
    (set_vnid_map (fun _ => ∅)
       (set_group_map (fun _ => ∅) pm)).

(** ** Domain resolver *)

(** The locals of [updateEPGDomains] that the chain walk assigns. *)
Record DomainWalk : Type := {
  newrd : option RoutingDomain;
  newbd : option BridgeDomain;
  newfd : option FloodDomain;
  newfdctx : option FloodContext;
  newsmap : gmap URI Subnet;
  newBDInstCtx : option InstContext;
  newRDInstCtx : option InstContext;
  newl2epretpolicy : option EndpointRetention;
  newl3epretpolicy : option EndpointRetention
}.

(** [for (csn : csns) newsmap[csn->getURI()] = csn]. *)
Definition addSubnetChildren (csns : list Subnet) (m : gmap URI Subnet)
    : gmap URI Subnet :=
  foldl (fun acc csn => <[sn_uri csn := csn]> acc) m csns.

(** The block that unions the subnets referenced by a [...ToSubnetsRSrc]. *)
Definition addReferencedSubnets (store : MOStore) (ref : option RSrc)
    (m : gmap URI Subnet) : gmap URI Subnet :=
  match ref with
  | Some r =>
      match getTargetURI r with
      | Some u =>
          match resolveSubnets store u with
          | Some sns => addSubnetChildren (sns_subnet sns) m
          | None => m
          end
      | None => m
      end
  | None => m
  end.

(** [resolveGbpeInstContextToEpRetentionRSrc] followed by
    [EndpointRetention::resolve(framework, nEpRetURI.get())]: the target is
    dereferenced without a test.  The retention policy is left as it was
    when the context has no such reference. *)
Definition resolveRetention (store : MOStore) (ctx : option InstContext)
    (old : option EndpointRetention) : outcome (option EndpointRetention) :=
  match ctx with
  | Some ic =>
      match ic_epRetentionRSrc ic with
      | Some dref2 =>
          u ← opt_get (getTargetURI dref2);
          Done (resolveEndpointRetention store u)
      | None => Done old
      end
  | None => Done old
  end.

(** One iteration of the [while (domainURI && domainClass)] loop, up to the
    subnet union: the next link, the [fwdSns] reference and the locals. *)
Definition walkStep (store : MOStore) (dc : class_id_t) (du : URI) (w : DomainWalk)
    : outcome (option class_id_t * option URI * option RSrc * DomainWalk) :=
  match dc with
  | RoutingDomain_CLASS_ID =>
      match resolveRoutingDomain store du with
      | Some rd =>
          l3 ← resolveRetention store (rd_instContext rd) (newl3epretpolicy w);
          Done (None, None, rd_subnetsRSrc rd,
                {| newrd := Some rd; newbd := newbd w; newfd := newfd w;
                   newfdctx := newfdctx w; newsmap := newsmap w;
                   newBDInstCtx := newBDInstCtx w;
                   newRDInstCtx := rd_instContext rd;
                   newl2epretpolicy := newl2epretpolicy w;
                   newl3epretpolicy := l3 |})
      | None =>
          Done (None, None, None,
                {| newrd := None; newbd := newbd w; newfd := newfd w;
                   newfdctx := newfdctx w; newsmap := newsmap w;
                   newBDInstCtx := newBDInstCtx w;
                   newRDInstCtx := newRDInstCtx w;
                   newl2epretpolicy := newl2epretpolicy w;
                   newl3epretpolicy := newl3epretpolicy w |})
      end
  | BridgeDomain_CLASS_ID =>
      match resolveBridgeDomain store du with
      | Some bd =>
          l2 ← resolveRetention store (bd_instContext bd) (newl2epretpolicy w);
          Done (bd_networkRSrc bd ≫= getTargetClass,
                bd_networkRSrc bd ≫= getTargetURI,
                bd_subnetsRSrc bd,
                {| newrd := newrd w; newbd := Some bd; newfd := newfd w;
                   newfdctx := newfdctx w; newsmap := newsmap w;
                   newBDInstCtx := bd_instContext bd;
                   newRDInstCtx := newRDInstCtx w;
                   newl2epretpolicy := l2;
                   newl3epretpolicy := newl3epretpolicy w |})
      | None =>
          Done (None, None, None,
                {| newrd := newrd w; newbd := None; newfd := newfd w;
                   newfdctx := newfdctx w; newsmap := newsmap w;
                   newBDInstCtx := newBDInstCtx w;
                   newRDInstCtx := newRDInstCtx w;
                   newl2epretpolicy := newl2epretpolicy w;
                   newl3epretpolicy := newl3epretpolicy w |})
      end
  | FloodDomain_CLASS_ID =>
      match resolveFloodDomain store du with
      | Some fd =>
          Done (fd_networkRSrc fd ≫= getTargetClass,
                fd_networkRSrc fd ≫= getTargetURI,
                fd_subnetsRSrc fd,
                {| newrd := newrd w; newbd := newbd w; newfd := Some fd;
                   newfdctx := fd_floodContext fd; newsmap := newsmap w;
                   newBDInstCtx := newBDInstCtx w;
                   newRDInstCtx := newRDInstCtx w;
                   newl2epretpolicy := newl2epretpolicy w;
                   newl3epretpolicy := newl3epretpolicy w |})
      | None =>
          Done (None, None, None,
                {| newrd := newrd w; newbd := newbd w; newfd := None;
                   newfdctx := newfdctx w; newsmap := newsmap w;
                   newBDInstCtx := newBDInstCtx w;
                   newRDInstCtx := newRDInstCtx w;
                   newl2epretpolicy := newl2epretpolicy w;
                   newl3epretpolicy := newl3epretpolicy w |})
      end
  | _ => Done (None, None, None, w)
  end.

Definition withSubnets (m : gmap URI Subnet) (w : DomainWalk) : DomainWalk :=
  {| newrd := newrd w; newbd := newbd w; newfd := newfd w;
     newfdctx := newfdctx w; newsmap := m;
     newBDInstCtx := newBDInstCtx w; newRDInstCtx := newRDInstCtx w;
     newl2epretpolicy := newl2epretpolicy w;
     newl3epretpolicy := newl3epretpolicy w |}.

(** The chain walk.  The source loops for as long as the store keeps
    handing out a next link; [fuel] bounds the number of iterations. *)
Fixpoint walkDomains (store : MOStore) (fuel : nat)
    (domainClass : option class_id_t) (domainURI : option URI)
    (w : DomainWalk) : outcome DomainWalk :=
  match domainURI, domainClass with
  | Some du, Some dc =>
      match fuel with
      | O => OutOfFuel
      | S fuel' =>
          '(ndomainClass, ndomainURI, fwdSns, w1) ← walkStep store dc du w;
          walkDomains store fuel' ndomainClass ndomainURI
            (withSubnets (addReferencedSubnets store fwdSns (newsmap w1)) w1)
      end
  | _, _ => Done w
  end.

(** [updateEPGDomains(egURI, toRemove)]: the result is
    [(updated, toRemove, state)]. *)
Definition updateEPGDomains (store : MOStore) (fuel : nat) (egURI : URI)
    (pm : PolicyManager) : outcome (bool * bool * PolicyManager) :=
  let pm0 := set_group_map (ensure emptyGroupState egURI) pm in
  let gs := index_or emptyGroupState egURI (group_map pm) in
  match resolveEpGroup store egURI with
  | None => Done (true, true, pm0)
  | Some epg =>
      let newInstCtx := epg_instContext epg in
      let vm1 :=
        match instContext gs ≫= getEncapId with
        | Some oldId => delete oldId (vnid_map pm0)
        | None => vnid_map pm0
        end in
      let vm2 :=
        match newInstCtx ≫= getEncapId with
        | Some newId => insert_if_absent newId egURI vm1
        | None => vm1
        end in
      let domainClass := epg_networkRSrc epg ≫= getTargetClass in
      let domainURI := epg_networkRSrc epg ≫= getTargetURI in
      let w0 := {| newrd := None; newbd := None; newfd := None;
                   newfdctx := None;
                   newsmap := addReferencedSubnets store (epg_subnetsRSrc epg) ∅;
                   newBDInstCtx := epg_instContext epg;
                   newRDInstCtx := epg_instContext epg;
                   newl2epretpolicy := None; newl3epretpolicy := None |} in
      w ← walkDomains store fuel domainClass domainURI w0;
      let updated :=
        negb (bool_decide (Some epg = epGroup gs))
        || negb (bool_decide (newInstCtx = instContext gs))
        || negb (bool_decide (newfd w = floodDomain gs))
        || negb (bool_decide (newfdctx w = floodContext gs))
        || negb (bool_decide (newbd w = bridgeDomain gs))
        || negb (bool_decide (newrd w = routingDomain gs))
        || negb (bool_decide (newsmap w = subnet_map gs))
        || negb (bool_decide (newBDInstCtx w = instBDContext gs))
        || negb (bool_decide (newRDInstCtx w = instRDContext gs))
        || negb (bool_decide (newl2epretpolicy w = l2EpRetPolicy gs))
        || negb (bool_decide (newl3epretpolicy w = l3EpRetPolicy gs)) in
      let gs' := {| epGroup := Some epg; instContext := newInstCtx;
                    floodDomain := newfd w; floodContext := newfdctx w;
                    bridgeDomain := newbd w; routingDomain := newrd w;
                    subnet_map := newsmap w;
                    instBDContext := newBDInstCtx w;
                    instRDContext := newRDInstCtx w;
                    l2EpRetPolicy := newl2epretpolicy w;
                    l3EpRetPolicy := newl3epretpolicy w |} in
      Done (updated, false,
            set_vnid_map (fun _ => vm2)
              (set_group_map (fun m => <[egURI := gs']> m) pm0))
  end.

(** What [updateDomain] hands to the listeners once the lock is released. *)
Record DomainNotifications : Type := {
  notifyGroups : gset URI;
  notifyDomainArg : option (class_id_t * URI);
  notifyRds : gset URI
}.

(** The loop of [updateDomain] over the entries of [group_map]. *)
Fixpoint updateDomain_groups (store : MOStore) (fuel : nat) (keys : list URI)
    (pm : PolicyManager) (notify : gset URI)
    : outcome (PolicyManager * gset URI) :=
  match keys with
  | [] => Done (pm, notify)
  | k :: keys' =>
      '(updated, toRemove, pm1) ← updateEPGDomains store fuel k pm;
      let notify1 := if updated : bool then {[k]} ∪ notify else notify in
      let pm2 := if toRemove : bool then set_group_map (delete k) pm1 else pm1 in
      updateDomain_groups store fuel keys' pm2 notify1
  end.

(** Routing domains reached from one notified group through the NAT index:
    [it2->second.routingDomain.get()->getURI()] for each network found. *)
Fixpoint natRoutingDomains (pm : PolicyManager) (nets : list URI) (acc : gset URI)
    : outcome (gset URI) :=
  match nets with
  | [] => Done acc
  | extNet :: nets' =>
      match l3n_map pm !! extNet with
      | Some l3s =>
          rd ← opt_get (l3s_routingDomain l3s);
          natRoutingDomains pm nets' ({[rd_uri rd]} ∪ acc)
      | None => natRoutingDomains pm nets' acc
      end
  end.

Fixpoint updateDomain_rds (pm : PolicyManager) (groups : list URI) (acc : gset URI)
    : outcome (gset URI) :=
  match groups with
  | [] => Done acc
  | u :: groups' =>
      match nat_epg_l3_ext pm !! u with
      | Some nets =>
          acc1 ← natRoutingDomains pm (elements nets) acc;
          updateDomain_rds pm groups' acc1
      | None => updateDomain_rds pm groups' acc
      end
  end.

Definition updateDomain (store : MOStore) (fuel : nat) (class_id : class_id_t)
    (uri : URI) (pm : PolicyManager) : outcome (PolicyManager * DomainNotifications) :=
  let pm0 :=
    if decide (class_id = EpGroup_CLASS_ID)
    then set_group_map (ensure emptyGroupState uri) pm
    else pm in
  '(pm1, groups) ← updateDomain_groups store fuel
                     (map_to_list (group_map pm0)).*1 pm0 ∅;
  rds ← updateDomain_rds pm1 (elements groups) ∅;
  Done (pm1,
        {| notifyGroups := groups;
           notifyDomainArg :=
             if decide (class_id = EpGroup_CLASS_ID) then None
             else Some (class_id, uri);
           notifyRds := rds ∖ {[uri]} |}).

(** ** Rule compiler *)

Definition UINT32_MAX : Z := 4294967295.
Definition MAX_POLICY_RULE_PRIORITY : Z := 8192.

(** Truncation to [uint16_t]. *)
Definition wrap16 (z : Z) : Z := z mod 65536.

(** Modelled from the spec: [OrderComparator] is declared in
    PolicyManager.h, which is not among the sources.  The spec has rules
    and classifiers sorted stably by their order attribute, ascending.  It
    does not say where an object without an order goes; here it sorts as
    [UINT32_MAX], and nothing below depends on that choice. *)
Definition orderKey (order : option Z) : Z := default UINT32_MAX order.

(** [std::stable_sort] by a key: elements are inserted from the right, each
    in front of the first element whose key is not smaller, so that equal
    keys keep the order they came in. *)
Fixpoint insert_by {A} (key : A → Z) (x : A) (l : list A) : list A :=
  match l with
  | [] => [x]
  | y :: l' => if key y <? key x then y :: insert_by key x l' else x :: y :: l'
  end.

Definition stable_sort {A} (key : A → Z) (l : list A) : list A :=
  foldr (insert_by key) [] l.

(** The template parameters [<Parent, Subject, Rule>] of
    [updatePolicyRules], with the specialisations of [resolveChildren] and
    [resolveRemoteSubnets]. *)
Class PolicyFamily (Parent Subject Rule : Type) : Type := {
  resolveParent : MOStore → URI → option Parent;
  resolveSubjects : Parent → list Subject;
  resolveRules : Subject → list Rule;
  getRuleOrder : Rule → option Z;
  getRuleDirection : Rule → option Z;
  resolveRuleToClassifierRSrc : Rule → list RSrc;
  resolveRuleToActionRSrc : Rule → list RSrc;
  resolveRemoteSubnets : MOStore → Rule → subnets_t
}.

(** Contracts: [resolveRemoteSubnets] is the empty primary template. *)
#[global] Instance ContractFamily : PolicyFamily Contract Subject Rule := {|
  resolveParent := resolveContract;
  resolveSubjects := contract_subject;
  resolveRules := subj_rule;
  getRuleOrder := rule_order;
  getRuleDirection := rule_direction;
  resolveRuleToClassifierRSrc := rule_classifierRSrc;
  resolveRuleToActionRSrc := rule_actionRSrc;
  resolveRemoteSubnets := fun _ _ => ∅
|}.

(** The classifier a [RuleToClassifierRSrc] contributes, if any. *)
Definition classifierOf (store : MOStore) (r : RSrc) : option L24Classifier :=
  match rsrc_target r with
  | Some (c, u) =>
      if decide (c = L24Classifier_CLASS_ID) then resolveL24Classifier store u
      else None
  | None => None
  end.

Definition resolveClassifiers (store : MOStore) (clsRel : list RSrc)
    : list L24Classifier :=
  stable_sort (fun c => orderKey (cls_order c)) (omap (classifierOf store) clsRel).

(** The locals of the loop over [actRel], and [newRedirGrps]. *)
Record ActionState : Type := {
  ruleAllow : bool;
  ruleRedirect : bool;
  minOrder : Z;
  destGrpUri : option URI;
  actRedirGrps : gset URI
}.

Definition actionStep (store : MOStore) (a : ActionState) (r : RSrc) : ActionState :=
  match rsrc_target r with
  | None => a
  | Some (c, u) =>
      if decide (c = AllowDenyAction_CLASS_ID) then
        match resolveAllowDenyAction store u with
        | Some act =>
            if default (UINT32_MAX - 1) (ada_order act) <? minOrder a then
              {| ruleAllow := negb (default 0 (ada_allow act) =? 0);
                 ruleRedirect := ruleRedirect a;
                 minOrder := default (UINT32_MAX - 1) (ada_order act);
                 destGrpUri := destGrpUri a;
                 actRedirGrps := actRedirGrps a |}
            else a
        | None => a
        end
      else if decide (c = RedirectAction_CLASS_ID) then
        match resolveRedirectAction store u ≫= ra_destGrpRSrc with
        | Some destRef =>
            {| ruleAllow := false; ruleRedirect := true;
               minOrder := minOrder a;
               destGrpUri := getTargetURI destRef;
               actRedirGrps :=
                 match getTargetURI destRef with
                 | Some d => {[d]} ∪ actRedirGrps a
                 | None => actRedirGrps a
                 end |}
        | None =>
            {| ruleAllow := false; ruleRedirect := true;
               minOrder := minOrder a;
               destGrpUri := destGrpUri a;
               actRedirGrps := actRedirGrps a |}
        end
      else a
  end.

Definition resolveActions (store : MOStore) (actRel : list RSrc)
    (redirGrps : gset URI) : ActionState :=
  foldl (actionStep store)
    {| ruleAllow := true; ruleRedirect := false; minOrder := UINT32_MAX;
       destGrpUri := None; actRedirGrps := redirGrps |}
    actRel.

(** [if (clsPrio < 127) clsPrio += 1]. *)
Definition nextClsPrio (clsPrio : Z) : Z :=
  if clsPrio <? 127 then wrap16 (clsPrio + 1) else clsPrio.

(** [if (rulePrio > 128) rulePrio -= 128]. *)
Definition nextRulePrio (rulePrio : Z) : Z :=
  if 128 <? rulePrio then wrap16 (rulePrio - 128) else rulePrio.

(** The loop over the classifiers of one rule: one [make_shared<PolicyRule>]
    per classifier, at consecutive fresh addresses. *)
Fixpoint emitClassifiers (mk : Z → L24Classifier → PolicyRule)
    (rulePrio clsPrio : Z) (heap : positive) (cs : list L24Classifier)
    : rule_list_t :=
  match cs with
  | [] => []
  | c :: cs' =>
      {| get := heap; deref := mk (wrap16 (rulePrio - clsPrio)) c |}
        :: emitClassifiers mk rulePrio (nextClsPrio clsPrio) (Pos.succ heap) cs'
  end.

Record CompileState : Type := {
  newRules : rule_list_t;
  newRedirGrps : gset URI;
  compileHeap : positive
}.

(** The allocator after [n] calls of [make_shared]. *)
Definition advance (heap : positive) (n : nat) : positive :=
  Nat.iter n Pos.succ heap.

(** The loop that collects the redirect groups of the old rules. *)
Definition collectRedirGrps (oldRules : rule_list_t) (acc : gset URI) : gset URI :=
  foldl (fun s r =>
           match redirDstGrpURI (deref r) with
           | Some u => {[u]} ∪ s
           | None => s
           end) acc oldRules.

(** The comparison loop: both iterators advance while the raw pointers
    agree; the result tells whether both reached the end. *)
Fixpoint samePointers {A} (l r : list (shared_ptr A)) : bool :=
  match l, r with
  | [], [] => true
  | x :: l', y :: r' => if decide (get x = get y) then samePointers l' r' else false
  | _, _ => false
  end.

Record PolicyRulesResult : Type := {
  res_updated : bool;
  res_notFound : bool;
  res_rules : rule_list_t;
  res_oldRedirGrps : gset URI;
  res_newRedirGrps : gset URI;
  res_heap : positive
}.

Section Compile.
Context {Parent Subject Rule : Type} `{!PolicyFamily Parent Subject Rule}.

(** What one rule emits, given the rule-priority counter and the resolved
    actions. *)
Definition emitRule (store : MOStore) (rule : Rule) (dir rulePrio : Z)
    (a : ActionState) (heap : positive) : rule_list_t :=
  emitClassifiers
    (fun p c =>
       {| direction := dir; prio := p; l24Classifier := c;
          allow := ruleAllow a;
          remoteSubnets := resolveRemoteSubnets store rule;
          redirect := ruleRedirect a;
          redirDstGrpURI := destGrpUri a |})
    rulePrio 0 heap
    (resolveClassifiers store (resolveRuleToClassifierRSrc rule)).

(** The body of the loop over the rules of a subject. *)
Definition compileRule (store : MOStore) (acc : Z * CompileState) (rule : Rule)
    : Z * CompileState :=
  match getRuleDirection rule with
  | None => acc
  | Some dir =>
      let a := resolveActions store (resolveRuleToActionRSrc rule)
                 (newRedirGrps acc.2) in
      let emitted := emitRule store rule dir acc.1 a (compileHeap acc.2) in
      (nextRulePrio acc.1,
       {| newRules := newRules acc.2 ++ emitted;
          newRedirGrps := actRedirGrps a;
          compileHeap := advance (compileHeap acc.2) (length emitted) |})
  end.

Definition compileRules (store : MOStore) (rulePrio : Z) (cst : CompileState)
    (rs : list Rule) : Z * CompileState :=
  foldl (compileRule store) (rulePrio, cst) rs.

(** The body of the loop over the subjects: the counter starts again at
    [MAX_POLICY_RULE_PRIORITY] for each of them. *)
Definition compileSubject (store : MOStore) (cst : CompileState) (sub : Subject)
    : CompileState :=
  (compileRules store MAX_POLICY_RULE_PRIORITY cst
     (stable_sort (fun r => orderKey (getRuleOrder r)) (resolveRules sub))).2.

Definition compileParent (store : MOStore) (parent : Parent) (cst : CompileState)
    : CompileState :=
  foldl (compileSubject store) cst (resolveSubjects parent).

Definition updatePolicyRules (store : MOStore) (parentURI : URI)
    (oldRules : rule_list_t) (oldRedirGrps newRedirGrps0 : gset URI)
    (heap : positive) : PolicyRulesResult :=
  match resolveParent store parentURI with
  | None =>
      {| res_updated := false; res_notFound := true; res_rules := oldRules;
         res_oldRedirGrps := oldRedirGrps; res_newRedirGrps := newRedirGrps0;
         res_heap := heap |}
  | Some parent =>
      let cst := compileParent store parent
                   {| newRules := []; newRedirGrps := newRedirGrps0;
                      compileHeap := heap |} in
      let updated := negb (samePointers oldRules (newRules cst)) in
      {| res_updated := updated; res_notFound := false;
         res_rules := if updated then newRules cst else oldRules;
         res_oldRedirGrps := collectRedirGrps oldRules oldRedirGrps;
         res_newRedirGrps := newRedirGrps cst;
         res_heap := compileHeap cst |}
  end.
End Compile.

(** ** Contracts *)

Definition set_rules (rs : rule_list_t) (cs : ContractState) : ContractState :=
  {| providerGroups := providerGroups cs; consumerGroups := consumerGroups cs;
     intraGroups := intraGroups cs; rules := rs |}.

Definition set_providerGroups (f : gset URI → gset URI) (cs : ContractState)
    : ContractState :=
  {| providerGroups := f (providerGroups cs); consumerGroups := consumerGroups cs;
     intraGroups := intraGroups cs; rules := rules cs |}.

Definition set_consumerGroups (f : gset URI → gset URI) (cs : ContractState)
    : ContractState :=
  {| providerGroups := providerGroups cs; consumerGroups := f (consumerGroups cs);
     intraGroups := intraGroups cs; rules := rules cs |}.

Definition set_intraGroups (f : gset URI → gset URI) (cs : ContractState)
    : ContractState :=
  {| providerGroups := providerGroups cs; consumerGroups := consumerGroups cs;
     intraGroups := f (intraGroups cs); rules := rules cs |}.

Definition set_ctrctSet (f : gset URI → gset URI) (s : RedirectDestGrpState)
    : RedirectDestGrpState :=
  {| redirDstList := redirDstList s; hashAlgo := hashAlgo s;
     resilientHashEnabled := resilientHashEnabled s; ctrctSet := f (ctrctSet s) |}.

(** [providerGroups.empty() && consumerGroups.empty() && intraGroups.empty()]. *)
Definition noGroups (cs : ContractState) : bool :=
  bool_decide (providerGroups cs = ∅)
  && bool_decide (consumerGroups cs = ∅)
  && bool_decide (intraGroups cs = ∅).

(** [updateContractRules(contrURI, notFound)]: the result is
    [(updated, notFound, state)]. *)
Definition updateContractRules (store : MOStore) (contrURI : URI)
    (pm : PolicyManager) : bool * bool * PolicyManager :=
  let cs := index_or emptyContractState contrURI (contractMap pm) in
  let r := updatePolicyRules (Parent := Contract) store contrURI
             (rules cs) ∅ ∅ (heap_next pm) in
  let pm1 :=
    set_heap_next (res_heap r)
      (set_contractMap (fun m => <[contrURI := set_rules (res_rules r) cs]> m) pm) in
  let rg1 :=
    foldl (fun m u =>
             match m !! u with
             | Some s => <[u := set_ctrctSet (fun c => c ∖ {[contrURI]}) s]> m
             | None => m
             end)
          (redirGrpMap pm1) (elements (res_oldRedirGrps r)) in
  let rg2 :=
    foldl (fun m u =>
             <[u := set_ctrctSet (fun c => {[contrURI]} ∪ c)
                      (index_or emptyRedirectDestGrpState u m)]> m)
          rg1 (elements (res_newRedirGrps r)) in
  (res_updated r, res_notFound r, set_redirGrpMap (fun _ => rg2) pm1).

(** The body of the loop of [updateContracts], for the entry at [c]. *)
Definition updateContracts_step (store : MOStore)
    (acc : PolicyManager * gset URI) (c : URI) : PolicyManager * gset URI :=
  let '(updated, notFound, pm1) := updateContractRules store c acc.1 in
  let notify1 := if updated : bool then {[c]} ∪ acc.2 else acc.2 in
  if notFound : bool then
    let cs := index_or emptyContractState c (contractMap pm1) in
    if noGroups cs
    then (set_contractMap (delete c) pm1, {[c]} ∪ notify1)
    else (set_contractMap (fun m => <[c := set_rules [] cs]> m) pm1,
          {[c]} ∪ notify1)
  else (pm1, notify1).

Definition updateContracts_loop (store : MOStore) (keys : list URI)
    (acc : PolicyManager * gset URI) : PolicyManager * gset URI :=
  foldl (updateContracts_step store) acc keys.

(** [updateContracts()]: the new state and [contractsToNotify]. *)
Definition updateContracts (store : MOStore) (pm : PolicyManager)
    : PolicyManager * gset URI :=
  updateContracts_loop store (map_to_list (contractMap pm)).*1 (pm, ∅).

(** The part of [ContractListener::objectUpdated] that runs on the caller's
    thread when the class is none of the per-object ones: an entry is
    created for a contract before the recompute is queued. *)
Definition contractListener_objectUpdated (classId : class_id_t) (uri : URI)
    (pm : PolicyManager) : PolicyManager :=
  if decide (classId = Contract_CLASS_ID)
  then set_contractMap (ensure emptyContractState uri) pm
  else pm.

Definition getContractRules (pm : PolicyManager) (contractURI : URI)
    : rule_list_t :=
  match contractMap pm !! contractURI with
  | Some cs => rules cs
  | None => []
  end.

(** [removeContractIfRequired(contractURI)]: whether the entry was erased,
    and the state. *)
Definition removeContractIfRequired (store : MOStore) (contractURI : URI)
    (pm : PolicyManager) : bool * PolicyManager :=
  match resolveContract store contractURI, contractMap pm !! contractURI with
  | None, Some cs =>
      if noGroups cs then (true, set_contractMap (delete contractURI) pm)
      else (false, pm)
  | _, _ => (false, pm)
  end.

(** The targets of the references whose target is set. *)
Definition targetsOf (rels : list RSrc) : gset URI :=
  list_to_set (omap getTargetURI rels).

(** The references of a group that resolves: provided, consumed, intra. *)
Definition resolveGroupContracts (store : MOStore) (groupType : class_id_t)
    (groupURI : URI) : option (gset URI * gset URI * gset URI) :=
  if decide (groupType = EpGroup_CLASS_ID) then
    match resolveEpGroup store groupURI with
    | Some epg =>
        Some (targetsOf (epg_provContractRSrc epg),
              targetsOf (epg_consContractRSrc epg),
              targetsOf (epg_intraContractRSrc epg))
    | None => None
    end
  else if decide (groupType = L3ExternalNetwork_CLASS_ID) then
    match resolveL3ExternalNetwork store groupURI with
    | Some l3n =>
        Some (targetsOf (l3n_provContractRSrc l3n),
              targetsOf (l3n_consContractRSrc l3n), ∅)
    | None => None
    end
  else None.

(** [contractMap[u].<role>Groups.insert(groupURI)]. *)
Definition addGroupTo
    (role : (gset URI → gset URI) → ContractState → ContractState)
    (groupURI : URI) (pm : PolicyManager) (u : URI) : PolicyManager :=
  set_contractMap
    (fun m => <[u := role (fun s => {[groupURI]} ∪ s)
                       (index_or emptyContractState u m)]> m) pm.

(** [contractMap[u].<role>Groups.erase(groupURI); removeContractIfRequired(u)]. *)
Definition removeGroupFrom (store : MOStore)
    (role : (gset URI → gset URI) → ContractState → ContractState)
    (groupURI : URI) (pm : PolicyManager) (u : URI) : PolicyManager :=
  (removeContractIfRequired store u
     (set_contractMap
        (fun m => <[u := role (fun s => s ∖ {[groupURI]})
                           (index_or emptyContractState u m)]> m) pm)).2.

(** The six sets [provAdded, provRemoved, consAdded, consRemoved,
    intraAdded, intraRemoved] of [updateGroupContracts]. *)
Record ContractDiff : Type := {
  provAdded : gset URI; provRemoved : gset URI;
  consAdded : gset URI; consRemoved : gset URI;
  intraAdded : gset URI; intraRemoved : gset URI
}.

Definition contractDiff (gcs : GroupContractState)
    (new : option (gset URI * gset URI * gset URI)) : ContractDiff :=
  match new with
  | None =>
      {| provAdded := ∅; provRemoved := contractsProvided gcs;
         consAdded := ∅; consRemoved := contractsConsumed gcs;
         intraAdded := ∅; intraRemoved := contractsIntra gcs |}
  | Some (newProvided, newConsumed, newIntra) =>
      {| provAdded := newProvided ∖ contractsProvided gcs;
         provRemoved := contractsProvided gcs ∖ newProvided;
         consAdded := newConsumed ∖ contractsConsumed gcs;
         consRemoved := contractsConsumed gcs ∖ newConsumed;
         intraAdded := newIntra ∖ contractsIntra gcs;
         intraRemoved := contractsIntra gcs ∖ newIntra |}
  end.

(** The six loops that apply a diff to [contractMap]. *)
Definition applyContractDiff (store : MOStore) (groupURI : URI) (d : ContractDiff)
    (pm : PolicyManager) : PolicyManager :=
  let pm1 := foldl (addGroupTo set_providerGroups groupURI) pm
               (elements (provAdded d)) in
  let pm2 := foldl (addGroupTo set_consumerGroups groupURI) pm1
               (elements (consAdded d)) in
  let pm3 := foldl (addGroupTo set_intraGroups groupURI) pm2
               (elements (intraAdded d)) in
  let pm4 := foldl (removeGroupFrom store set_providerGroups groupURI) pm3
               (elements (provRemoved d)) in
  let pm5 := foldl (removeGroupFrom store set_consumerGroups groupURI) pm4
               (elements (consRemoved d)) in
  foldl (removeGroupFrom store set_intraGroups groupURI) pm5
    (elements (intraRemoved d)).

(** [updateGroupContracts(groupType, groupURI, updatedContracts)]. *)
Definition updateGroupContracts (store : MOStore) (groupType : class_id_t)
    (groupURI : URI) (acc : PolicyManager * gset URI) : PolicyManager * gset URI :=
  let gcs := index_or emptyGroupContractState groupURI (groupContractMap acc.1) in
  let new := resolveGroupContracts store groupType groupURI in
  let d := contractDiff gcs new in
  let pm1 :=
    match new with
    | None => set_groupContractMap (delete groupURI) acc.1
    | Some (newProvided, newConsumed, newIntra) =>
        set_groupContractMap
          (fun m => <[groupURI := {| contractsProvided := newProvided;
                                     contractsConsumed := newConsumed;
                                     contractsIntra := newIntra |}]> m) acc.1
    end in
  (applyContractDiff store groupURI d pm1,
   provAdded d ∪ provRemoved d ∪ consAdded d ∪ consRemoved d
     ∪ intraAdded d ∪ intraRemoved d ∪ acc.2).

(** ** External-network tracker *)

(** [it->second.erase(net); if (it->second.size() == 0) erase(it)] on the
    slot of [natEpg], when there is one. *)
Definition pruneNatIndex (natEpg net : URI) (m : gmap URI (gset URI))
    : gmap URI (gset URI) :=
  match m !! natEpg with
  | Some s =>
      if decide (size (s ∖ {[net]}) = 0%nat) then delete natEpg m
      else <[natEpg := s ∖ {[net]}]> m
  | None => m
  end.

(** The body of the loop over the networks the routing domain now has. *)
Definition updateL3Nets_net (store : MOStore) (rd : RoutingDomain)
    (acc : PolicyManager * gset URI) (net : L3ExternalNetwork)
    : PolicyManager * gset URI :=
  let l3s := index_or emptyL3NetworkState (l3n_uri net) (l3n_map acc.1) in
  let idx1 :=
    match l3s_routingDomain l3s, l3s_natEpg l3s with
    | Some _, Some e => pruneNatIndex e (l3n_uri net) (nat_epg_l3_ext acc.1)
    | _, _ => nat_epg_l3_ext acc.1
    end in
  let '(natEpg', idx2) :=
    match l3n_natEPGroupRSrc net with
    | Some natRef =>
        match getTargetURI natRef with
        | Some natEpg =>
            (Some natEpg,
             <[natEpg := {[l3n_uri net]} ∪ default ∅ (idx1 !! natEpg)]> idx1)
        | None => (l3s_natEpg l3s, idx1)
        end
    | None => (None, idx1)
    end in
  let pm1 :=
    set_nat_epg_l3_ext (fun _ => idx2)
      (set_l3n_map
         (fun m => <[l3n_uri net := {| l3s_routingDomain := Some rd;
                                       l3s_natEpg := natEpg' |}]> m) acc.1) in
  updateGroupContracts store L3ExternalNetwork_CLASS_ID (l3n_uri net) (pm1, acc.2).

(** The loop over the networks attached before: those no longer there are
    dropped.  [l3n_map.erase(lit)] is applied to the iterator [find]
    returned, whether or not it is [end()]. *)
Fixpoint updateL3Nets_removed (store : MOStore) (newNets : gset URI)
    (old : list URI) (acc : PolicyManager * gset URI)
    : outcome (PolicyManager * gset URI) :=
  match old with
  | [] => Done acc
  | net :: old' =>
      if decide (net ∈ newNets) then updateL3Nets_removed store newNets old' acc
      else
        l3s ← opt_get (l3n_map acc.1 !! net);
        let idx :=
          match l3s_natEpg l3s with
          | Some e => pruneNatIndex e net (nat_epg_l3_ext acc.1)
          | None => nat_epg_l3_ext acc.1
          end in
        let pm1 := set_l3n_map (delete net)
                     (set_nat_epg_l3_ext (fun _ => idx) acc.1) in
        updateL3Nets_removed store newNets old'
          (updateGroupContracts store L3ExternalNetwork_CLASS_ID net (pm1, acc.2))
  end.

(** [updateL3Nets(rdURI, contractsToNotify)]. *)
Definition updateL3Nets (store : MOStore) (rdURI : URI)
    (acc : PolicyManager * gset URI) : outcome (PolicyManager * gset URI) :=
  let rds := index_or {| extNets := ∅ |} rdURI (rd_map acc.1) in
  let pm0 := set_rd_map (ensure {| extNets := ∅ |} rdURI) acc.1 in
  match resolveRoutingDomain store rdURI with
  | Some rd =>
      let nets := rd_l3ExternalDomain rd ≫= l3d_network in
      let newNets : gset URI := list_to_set (l3n_uri <$> nets) in
      let acc1 := foldl (updateL3Nets_net store rd) (pm0, acc.2) nets in
      acc2 ← updateL3Nets_removed store newNets (elements (extNets rds)) acc1;
      Done (set_rd_map (fun m => <[rdURI := {| extNets := newNets |}]> m) acc2.1,
            acc2.2)
  | None =>
      let acc1 :=
        foldl (fun a net =>
                 updateGroupContracts store L3ExternalNetwork_CLASS_ID net
                   (set_l3n_map (delete net) a.1, a.2))
              (pm0, acc.2) (elements (extNets rds)) in
      Done (set_rd_map (delete rdURI) acc1.1, acc1.2)
  end.

(** ** Redirect-group engine *)

(** The locals [bd], [rd], [bdInst], [rdInst] of the loop over the
    [RedirectDestToDomainRSrc] children of one destination. *)
Record DestDomains : Type := {
  dd_bd : option BridgeDomain;
  dd_rd : option RoutingDomain;
  dd_bdInst : option InstContext;
  dd_rdInst : option InstContext
}.

(** The loop over [redirDoms]; a domain that does not resolve is assigned
    and ends the loop ([break]). *)
Fixpoint resolveDestDomains (store : MOStore) (redirDoms : list RSrc)
    (st : DestDomains) : DestDomains :=
  match redirDoms with
  | [] => st
  | redirDom :: rest =>
      match rsrc_target redirDom with
      | None => resolveDestDomains store rest st
      | Some (c, u) =>
          if decide (c = BridgeDomain_CLASS_ID) then
            match resolveBridgeDomain store u with
            | Some bd =>
                resolveDestDomains store rest
                  {| dd_bd := Some bd; dd_rd := dd_rd st;
                     dd_bdInst := bd_instContext bd; dd_rdInst := dd_rdInst st |}
            | None =>
                {| dd_bd := None; dd_rd := dd_rd st;
                   dd_bdInst := dd_bdInst st; dd_rdInst := dd_rdInst st |}
            end
          else if decide (c = RoutingDomain_CLASS_ID) then
            match resolveRoutingDomain store u with
            | Some rd =>
                resolveDestDomains store rest
                  {| dd_bd := dd_bd st; dd_rd := Some rd;
                     dd_bdInst := dd_bdInst st; dd_rdInst := rd_instContext rd |}
            | None =>
                {| dd_bd := dd_bd st; dd_rd := None;
                   dd_bdInst := dd_bdInst st; dd_rdInst := dd_rdInst st |}
            end
          else resolveDestDomains store rest st
      end
  end.

Section RedirectGroups.
(** [boost::asio::ip::address::from_string(s, ec)]: the address, or
    nothing when [ec] is set.  An address is represented by a number that
    orders addresses as their [operator<] does. *)
Variable from_string : string → option Z.

(** [HashingAlgorithmEnumT::CONST_SYMMETRIC], from the generated model. *)
Variable CONST_SYMMETRIC : Z.

(** The body of the loop over the destinations: the destination to
    append, if it is complete.  [rd.get()] and [bd.get()] are not tested. *)
Definition resolveRedirectDest (store : MOStore) (redirDest : RedirectDest)
    : outcome (option PolicyRedirectDest) :=
  let st := resolveDestDomains store (rdst_domainRSrc redirDest)
              {| dd_bd := None; dd_rd := None;
                 dd_bdInst := None; dd_rdInst := None |} in
  match dd_bdInst st, dd_rdInst st, rdst_ip redirDest, rdst_mac redirDest with
  | Some bdInst, Some rdInst, Some ip, Some mac =>
      match from_string ip with
      | Some addr =>
          rd ← opt_get (dd_rd st);
          bd ← opt_get (dd_bd st);
          Done (Some {| prd_redirDst := redirDest; prd_ip := addr;
                        prd_mac := mac; prd_rd := rd; prd_bd := bd;
                        prd_rdInst := rdInst; prd_bdInst := bdInst |})
      | None => Done None
      end
  | _, _, _, _ => Done None
  end.

Fixpoint resolveRedirectDests (store : MOStore) (redirDests : list RedirectDest)
    (heap : positive) : outcome (redir_dest_list_t * positive) :=
  match redirDests with
  | [] => Done ([], heap)
  | redirDest :: rest =>
      d ← resolveRedirectDest store redirDest;
      match d with
      | Some prd =>
          '(l, heap') ← resolveRedirectDests store rest (Pos.succ heap);
          Done ({| get := heap; deref := prd |} :: l, heap')
      | None => resolveRedirectDests store rest heap
      end
  end.

(** [updateRedirectDestGroup(uri, notifyGroup)]. *)
Definition updateRedirectDestGroup (store : MOStore) (uri : URI)
    (acc : PolicyManager * gset URI) : outcome (PolicyManager * gset URI) :=
  let redirState := index_or emptyRedirectDestGrpState uri (redirGrpMap acc.1) in
  match resolveRedirectDestGroup store uri with
  | None =>
      Done (set_redirGrpMap (delete uri) acc.1, ctrctSet redirState ∪ acc.2)
  | Some redirDstGrp =>
      '(newRedirDests, heap') ←
        resolveRedirectDests store (rdg_redirectDest redirDstGrp)
          (heap_next acc.1);
      let algo := default CONST_SYMMETRIC (rdg_hashAlgo redirDstGrp) in
      let resilient := default 1 (rdg_resilientHashEnabled redirDstGrp) in
      let changed :=
        negb (samePointers (redirDstList redirState) newRedirDests)
        || negb (bool_decide (algo = hashAlgo redirState))
        || negb (bool_decide (resilient = resilientHashEnabled redirState)) in
      let notify :=
        if changed then ctrctSet redirState ∪ acc.2 else acc.2 in
      Done (set_heap_next heap'
              (set_redirGrpMap
                 (fun m =>
                    <[uri := {| redirDstList :=
                                  stable_sort (fun d => prd_ip (deref d))
                                    newRedirDests;
                                hashAlgo := algo;
                                resilientHashEnabled := resilient;
                                ctrctSet := ctrctSet redirState |}]> m)
                 acc.1),
            notify)
  end.
End RedirectGroups.

(** ** Properties of a state *)

(** The vnid index mirrors the encap ids of the groups: every group with an
    encap id is found under it, and every entry of the index leads to a
    group that has that encap id. *)
Definition vnid_index_consistent (pm : PolicyManager) : Prop :=
  (∀ g gs v, group_map pm !! g = Some gs →
             instContext gs ≫= getEncapId = Some v →
             vnid_map pm !! v = Some g)
  ∧ (∀ v g, vnid_map pm !! v = Some g →
            ∃ gs, group_map pm !! g = Some gs
                  ∧ instContext gs ≫= getEncapId = Some v).

(** In every group state a bridge-domain instance context comes with an
    instance context of the group itself. *)
Definition bd_context_implies_context (pm : PolicyManager) : Prop :=
  ∀ g gs, group_map pm !! g = Some gs →
          is_Some (instBDContext gs) → is_Some (instContext gs).

(** A vnid query takes its answer from the group's own instance context. *)
Definition reads_instContext (query : PolicyManager → URI → outcome (option Z))
    : Prop :=
  ∀ pm eg gs v, group_map pm !! eg = Some gs →
                query pm eg = Done (Some v) →
                instContext gs ≫= getEncapId = Some v.

Definition all_indices_empty (pm : PolicyManager) : Prop :=
  group_map pm = ∅ ∧ vnid_map pm = ∅ ∧ redirGrpMap pm = ∅
  ∧ contractMap pm = ∅ ∧ secGrpMap pm = ∅ ∧ groupContractMap pm = ∅
  ∧ l3n_map pm = ∅ ∧ rd_map pm = ∅ ∧ nat_epg_l3_ext pm = ∅.

(** The NAT reverse index mirrors [natEpg], and has no empty slot. *)
Definition nat_index_consistent (pm : PolicyManager) : Prop :=
  (∀ n e, (∃ l3s, l3n_map pm !! n = Some l3s ∧ l3s_natEpg l3s = Some e)
          ↔ (∃ s, nat_epg_l3_ext pm !! e = Some s ∧ n ∈ s))
  ∧ (∀ e s, nat_epg_l3_ext pm !! e = Some s → s ≠ ∅).

(** A contract entry is kept alive by its backing object or by a group. *)
Definition contract_alive (store : MOStore) (c : URI) (cs : ContractState) : Prop :=
  is_Some (resolveContract store c) ∨ noGroups cs = false.

(** No entry of [contractMap] is without backing object and without group. *)
Definition no_dead_contract (store : MOStore) (pm : PolicyManager) : Prop :=
  ∀ c cs, contractMap pm !! c = Some cs → contract_alive store c cs.

(** An entry exists exactly for the contracts that resolve or that some
    group refers to. *)
Definition contract_entries_exact (store : MOStore) (pm : PolicyManager) : Prop :=
  ∀ c, is_Some (contractMap pm !! c)
       ↔ (is_Some (resolveContract store c)
          ∨ ∃ cs, contractMap pm !! c = Some cs ∧ noGroups cs = false).

(** ** Scenarios *)

Definition ref (c : class_id_t) (u : URI) : RSrc := {| rsrc_target := Some (c, u) |}.

Definition unsetRef : RSrc := {| rsrc_target := None |}.

Definition instCtx (encap : option Z) : InstContext :=
  {| ic_encapId := encap; ic_multicastGroupIP := None; ic_classid := None;
     ic_epRetentionRSrc := None |}.

(** [objects l]: the resolver of a class whose objects are those of [l]. *)
Definition objects {A} (l : list (URI * A)) (u : URI) : option A :=
  (list_to_map l : gmap URI A) !! u.

Module Vnid.
(** Group [/g1] with encap id 100 and no forwarding domain. *)
Definition g1 : EpGroup :=
  {| epg_uri := "/g1"; epg_instContext := Some (instCtx (Some 100));
     epg_networkRSrc := None; epg_subnetsRSrc := None;
     epg_provContractRSrc := []; epg_consContractRSrc := [];
     epg_intraContractRSrc := [] |}.

Definition store : MOStore :=
  {| resolveEpGroup := objects [("/g1", g1)];
     resolveBridgeDomain := fun _ => None;
     resolveFloodDomain := fun _ => None;
     resolveRoutingDomain := fun _ => None;
     resolveSubnets := fun _ => None;
     resolveEndpointRetention := fun _ => None;
     resolveL3ExternalNetwork := fun _ => None;
     resolveContract := fun _ => None;
     resolveL24Classifier := fun _ => None;
     resolveAllowDenyAction := fun _ => None;
     resolveRedirectAction := fun _ => None;
     resolveRedirectDestGroup := fun _ => None |}.

Definition gs1 : GroupState :=
  {| epGroup := Some g1; instContext := Some (instCtx (Some 100));
     floodDomain := None; floodContext := None; bridgeDomain := None;
     routingDomain := None; subnet_map := ∅;
     instBDContext := Some (instCtx (Some 100));
     instRDContext := Some (instCtx (Some 100));
     l2EpRetPolicy := None; l3EpRetPolicy := None |}.

(** The state once [/g1] has been resolved. *)
Definition resolved : PolicyManager :=
  set_vnid_map (fun _ => {[ 100 := "/g1" ]})
    (set_group_map (fun _ => {[ "/g1" := gs1 ]}) initialManager).

(** The state once [/g1] has then left the store. *)
Definition removed : PolicyManager :=
  set_vnid_map (fun _ => {[ 100 := "/g1" ]}) initialManager.
End Vnid.

Module Chain.
(** Group [/g1] (encap id 1) in bridge domain [/bd1] (encap id 2) in
    routing domain [/rd1] (encap id 3). *)
Definition rd1 : RoutingDomain :=
  {| rd_uri := "/rd1"; rd_subnetsRSrc := None;
     rd_instContext := Some (instCtx (Some 3)); rd_l3ExternalDomain := [] |}.

Definition bd1 : BridgeDomain :=
  {| bd_uri := "/bd1";
     bd_networkRSrc := Some (ref RoutingDomain_CLASS_ID "/rd1");
     bd_subnetsRSrc := None; bd_instContext := Some (instCtx (Some 2));
     bd_routingMode := None |}.

Definition g1 (ctx : option InstContext) : EpGroup :=
  {| epg_uri := "/g1"; epg_instContext := ctx;
     epg_networkRSrc := Some (ref BridgeDomain_CLASS_ID "/bd1");
     epg_subnetsRSrc := None;
     epg_provContractRSrc := []; epg_consContractRSrc := [];
     epg_intraContractRSrc := [] |}.

Definition store (ctx : option InstContext) : MOStore :=
  {| resolveEpGroup := objects [("/g1", g1 ctx)];
     resolveBridgeDomain := objects [("/bd1", bd1)];
     resolveFloodDomain := fun _ => None;
     resolveRoutingDomain := objects [("/rd1", rd1)];
     resolveSubnets := fun _ => None;
     resolveEndpointRetention := fun _ => None;
     resolveL3ExternalNetwork := fun _ => None;
     resolveContract := fun _ => None;
     resolveL24Classifier := fun _ => None;
     resolveAllowDenyAction := fun _ => None;
     resolveRedirectAction := fun _ => None;
     resolveRedirectDestGroup := fun _ => None |}.

Definition gs1 (ctx : option InstContext) : GroupState :=
  {| epGroup := Some (g1 ctx); instContext := ctx;
     floodDomain := None; floodContext := None; bridgeDomain := Some bd1;
     routingDomain := Some rd1; subnet_map := ∅;
     instBDContext := Some (instCtx (Some 2));
     instRDContext := Some (instCtx (Some 3));
     l2EpRetPolicy := None; l3EpRetPolicy := None |}.

(** The state once the chain of [/g1] has been walked. *)
Definition resolved (ctx : option InstContext) : PolicyManager :=
  set_vnid_map
    (fun _ => match ctx ≫= getEncapId with
              | Some v => {[ v := "/g1" ]}
              | None => ∅
              end)
    (set_group_map (fun _ => {[ "/g1" := gs1 ctx ]}) initialManager).
End Chain.

Module Stopping.
(** The manager after the contract listener has heard of [/c1]. *)
Definition running : PolicyManager :=
  contractListener_objectUpdated Contract_CLASS_ID "/c1" initialManager.
End Stopping.

Module NatIndex.
(** External network [/n1] under routing domain [/rd1], with the given
    reference to a NAT endpoint group. *)
Definition n1 (natRef : option RSrc) : L3ExternalNetwork :=
  {| l3n_uri := "/n1"; l3n_natEPGroupRSrc := natRef;
     l3n_provContractRSrc := []; l3n_consContractRSrc := [] |}.

Definition rd1 (natRef : option RSrc) : RoutingDomain :=
  {| rd_uri := "/rd1"; rd_subnetsRSrc := None; rd_instContext := None;
     rd_l3ExternalDomain := [ {| l3d_network := [n1 natRef] |} ] |}.

Definition store (natRef : option RSrc) : MOStore :=
  {| resolveEpGroup := fun _ => None;
     resolveBridgeDomain := fun _ => None;
     resolveFloodDomain := fun _ => None;
     resolveRoutingDomain := objects [("/rd1", rd1 natRef)];
     resolveSubnets := fun _ => None;
     resolveEndpointRetention := fun _ => None;
     resolveL3ExternalNetwork := objects [("/n1", n1 natRef)];
     resolveContract := fun _ => None;
     resolveL24Classifier := fun _ => None;
     resolveAllowDenyAction := fun _ => None;
     resolveRedirectAction := fun _ => None;
     resolveRedirectDestGroup := fun _ => None |}.

Definition toG1 : option RSrc := Some (ref EpGroup_CLASS_ID "/g1").

(** [/n1] attached, with [/g1] as its NAT group. *)
Definition attached : PolicyManager :=
  set_nat_epg_l3_ext (fun _ => {[ "/g1" := {[ "/n1" ]} ]})
    (set_rd_map (fun _ => {[ "/rd1" := {| extNets := {[ "/n1" ]} |} ]})
       (set_l3n_map
          (fun _ => {[ "/n1" := {| l3s_routingDomain := Some (rd1 toG1);
                                   l3s_natEpg := Some "/g1" |} ]})
          (set_groupContractMap
             (fun _ => {[ "/n1" := emptyGroupContractState ]})
             initialManager))).

(** After the routing domain has left the store. *)
Definition domainRemoved : PolicyManager :=
  set_nat_epg_l3_ext (fun _ => {[ "/g1" := {[ "/n1" ]} ]}) initialManager.

(** After the NAT reference of [/n1] has lost its target. *)
Definition targetUnset : PolicyManager :=
  set_rd_map (fun _ => {[ "/rd1" := {| extNets := {[ "/n1" ]} |} ]})
    (set_l3n_map
       (fun _ => {[ "/n1" := {| l3s_routingDomain := Some (rd1 (Some unsetRef));
                                l3s_natEpg := Some "/g1" |} ]})
       (set_groupContractMap
          (fun _ => {[ "/n1" := emptyGroupContractState ]})
          initialManager)).
End NatIndex.

(** ** Properties of a compiled rule list *)

Definition prios (l : rule_list_t) : list Z := (fun r => prio (deref r)) <$> l.

Definition non_increasing (l : list Z) : Prop :=
  StronglySorted (fun a b => b ≤ a) l.

(** The values the rule-priority counter takes: the multiples of 128 from
    128 to 8192. *)
Definition rulePrio_valid (p : Z) : Prop := ∃ m, p = 128 * m ∧ 1 ≤ m ≤ 64.

(** What a loop appended to [newRules] between two of its states. *)
Definition emitted (before after : CompileState) : rule_list_t :=
  drop (length (newRules before)) (newRules after).

(** The compile state at the start of [updatePolicyRules]. *)
Definition startCompile (redirGrps : gset URI) (heap : positive) : CompileState :=
  {| newRules := []; newRedirGrps := redirGrps; compileHeap := heap |}.

(** Every rule of the list under construction was allocated at or after
    [h0], and so will the next ones be. *)
Definition allocated_from (h0 : positive) (cst : CompileState) : Prop :=
  Forall (fun r => (h0 ≤ get r)%positive) (newRules cst)
  ∧ (h0 ≤ compileHeap cst)%positive.

(** Rules that pass the [isDirectionSet] test. *)
Definition directed {Parent Subject Rule : Type}
    `{!PolicyFamily Parent Subject Rule} (r : Rule) : bool :=
  bool_decide (is_Some (getRuleDirection r)).

(** The contents of the rules, without their addresses. *)
Definition values {A} (l : list (shared_ptr A)) : list A := deref <$> l.

Module Compiled.
(** Values of [DirectionEnumT], from the generated model. *)
Definition CONST_IN : Z := 1.
Definition CONST_OUT : Z := 2.

Definition X : L24Classifier := {| cls_uri := "/X"; cls_order := None |}.
Definition Y : L24Classifier := {| cls_uri := "/Y"; cls_order := None |}.

Definition allowAction : AllowDenyAction :=
  {| ada_order := None; ada_allow := Some 1 |}.
Definition denyAction (order : option Z) : AllowDenyAction :=
  {| ada_order := order; ada_allow := Some 0 |}.
Definition redirectAction : RedirectAction :=
  {| ra_destGrpRSrc := Some (ref RedirectDestGroup_CLASS_ID "/rg") |}.

Definition mkRule (uri : URI) (order : Z) (dir : Z) (classifiers : list URI)
    (actions : list RSrc) : Rule :=
  {| rule_uri := uri; rule_order := Some order; rule_direction := Some dir;
     rule_classifierRSrc := ref L24Classifier_CLASS_ID <$> classifiers;
     rule_actionRSrc := actions |}.

Definition toAllow : RSrc := ref AllowDenyAction_CLASS_ID "/allow".
Definition toDeny : RSrc := ref AllowDenyAction_CLASS_ID "/deny".
Definition toRedirect : RSrc := ref RedirectAction_CLASS_ID "/redir".

(** Rule A: order 1, in, classifier X, allow.
    Rule B: order 2, out, classifier Y, deny. *)
Definition ruleA : Rule := mkRule "/c1/s/A" 1 CONST_IN ["/X"] [toAllow].
Definition ruleB : Rule := mkRule "/c1/s/B" 2 CONST_OUT ["/Y"] [toDeny].

(** A store with the classifiers and actions above, the deny action
    having the given order, and the given contracts. *)
Definition store (denyOrder : option Z) (contracts : list (URI * Contract))
    : MOStore :=
  {| resolveEpGroup := fun _ => None;
     resolveBridgeDomain := fun _ => None;
     resolveFloodDomain := fun _ => None;
     resolveRoutingDomain := fun _ => None;
     resolveSubnets := fun _ => None;
     resolveEndpointRetention := fun _ => None;
     resolveL3ExternalNetwork := fun _ => None;
     resolveContract := objects contracts;
     resolveL24Classifier := objects [("/X", X); ("/Y", Y)];
     resolveAllowDenyAction :=
       objects [("/allow", allowAction); ("/deny", denyAction denyOrder)];
     resolveRedirectAction := objects [("/redir", redirectAction)];
     resolveRedirectDestGroup := fun _ => None |}.

(** Contract [/c1]: one subject holding B and A, in that model order. *)
Definition c1 : Contract :=
  {| contract_subject := [ {| subj_rule := [ruleB; ruleA] |} ] |}.

(** A contract with two subjects: A and B in the first, A in the second. *)
Definition twoSubjects : Contract :=
  {| contract_subject := [ {| subj_rule := [ruleA; ruleB] |};
                           {| subj_rule := [ruleA] |} ] |}.

(** A contract whose only subject has 65 rules of equal order; the 64th
    has two classifiers. *)
Definition deep : Contract :=
  {| contract_subject :=
       [ {| subj_rule :=
              replicate 63 ruleA
              ++ [mkRule "/c1/s/two" 1 CONST_IN ["/X"; "/Y"] [toAllow]; ruleA] |} ] |}.

(** A contract whose only rule refers to a redirect action and to an
    allow action, in the given order. *)
Definition redirecting (actions : list RSrc) : Contract :=
  {| contract_subject :=
       [ {| subj_rule := [mkRule "/c2/s/R" 1 CONST_IN ["/X"] actions] |} ] |}.

(** A rule with one classifier reference and one reference to an
    allow-deny action. *)
Definition simpleRule (uri : URI) (order dir : Z) (classifier action : URI)
    : Rule :=
  {| rule_uri := uri; rule_order := Some order; rule_direction := Some dir;
     rule_classifierRSrc := [ref L24Classifier_CLASS_ID classifier];
     rule_actionRSrc := [ref AllowDenyAction_CLASS_ID action] |}.

Definition policyRule (dir p : Z) (c : L24Classifier) (a r : bool)
    (g : option URI) : PolicyRule :=
  {| direction := dir; prio := p; l24Classifier := c; allow := a;
     remoteSubnets := ∅; redirect := r; redirDstGrpURI := g |}.

(** The rules of [contractURI] after a first [updateContracts]. *)
Definition compiled (st : MOStore) (contractURI : URI) : rule_list_t :=
  getContractRules
    (updateContracts st
       (contractListener_objectUpdated Contract_CLASS_ID contractURI
          initialManager)).1
    contractURI.
End Compiled.

(** Two contract states with the same three sets of groups. *)
Definition same_groups (cs cs' : ContractState) : Prop :=
  providerGroups cs = providerGroups cs'
  ∧ consumerGroups cs = consumerGroups cs'
  ∧ intraGroups cs = intraGroups cs'.

(** The three setters [updateGroupContracts] reaches the sets through. *)
Definition is_role
    (role : (gset URI → gset URI) → ContractState → ContractState) : Prop :=
  role = set_providerGroups ∨ role = set_consumerGroups ∨ role = set_intraGroups.

Module Gc.
(** A group with the given provided and consumed contracts. *)
Definition group (uri : URI) (provided consumed : list URI) : EpGroup :=
  {| epg_uri := uri; epg_instContext := None;
     epg_networkRSrc := None; epg_subnetsRSrc := None;
     epg_provContractRSrc := ref Contract_CLASS_ID <$> provided;
     epg_consContractRSrc := ref Contract_CLASS_ID <$> consumed;
     epg_intraContractRSrc := [] |}.

Definition store (groups : list (URI * EpGroup))
    (contracts : list (URI * Contract)) : MOStore :=
  {| resolveEpGroup := objects groups;
     resolveBridgeDomain := fun _ => None;
     resolveFloodDomain := fun _ => None;
     resolveRoutingDomain := fun _ => None;
     resolveSubnets := fun _ => None;
     resolveEndpointRetention := fun _ => None;
     resolveL3ExternalNetwork := fun _ => None;
     resolveContract := objects contracts;
     resolveL24Classifier := fun _ => None;
     resolveAllowDenyAction := fun _ => None;
     resolveRedirectAction := fun _ => None;
     resolveRedirectDestGroup := fun _ => None |}.

Definition emptyContract : Contract := {| contract_subject := [] |}.

(** [/g1] provides [/c1], [/g2] consumes it; whether [/c1] is in the
    store is left open. *)
Definition attached (contracts : list (URI * Contract)) : MOStore :=
  store [("/g1", group "/g1" ["/c1"] []); ("/g2", group "/g2" [] ["/c1"])]
        contracts.

(** Both groups are there and refer to no contract. *)
Definition detached (contracts : list (URI * Contract)) : MOStore :=
  store [("/g1", group "/g1" [] []); ("/g2", group "/g2" [] [])] contracts.

(** The manager has heard of contract [/c1] and of nothing else. *)
Definition heard : PolicyManager :=
  contractListener_objectUpdated Contract_CLASS_ID "/c1" initialManager.

(** The entry of [/c1] once [/g1] and [/g2] are indexed. *)
Definition c1State : ContractState :=
  {| providerGroups := {[ "/g1" ]}; consumerGroups := {[ "/g2" ]};
     intraGroups := ∅; rules := [] |}.

(** The manager after both groups were indexed while attached. *)
Definition indexed : PolicyManager :=
  (updateGroupContracts (attached []) EpGroup_CLASS_ID "/g2"
     (updateGroupContracts (attached []) EpGroup_CLASS_ID "/g1"
        (initialManager, ∅))).1.
End Gc.

Module Redirecting.
(** [from_string] on the two addresses of the scenario, as their 32-bit
    values; it rejects everything else. *)
Definition parse (s : string) : option Z :=
  if decide (s = "10.0.0.1") then Some 167772161
  else if decide (s = "10.0.0.2") then Some 167772162
  else None.

Definition CONST_SYMMETRIC : Z := 1.

Definition dest (uri ip mac : string) : RedirectDest :=
  {| rdst_uri := uri;
     rdst_domainRSrc := [ref BridgeDomain_CLASS_ID "/bd1";
                         ref RoutingDomain_CLASS_ID "/rd1"];
     rdst_ip := Some ip; rdst_mac := Some mac |}.

(** Group [/rg]: destination 10.0.0.2 was added before 10.0.0.1. *)
Definition rg : RedirectDestGroup :=
  {| rdg_redirectDest := [dest "/rg/d2" "10.0.0.2" "00:00:00:00:00:02";
                          dest "/rg/d1" "10.0.0.1" "00:00:00:00:00:01"];
     rdg_hashAlgo := None; rdg_resilientHashEnabled := None |}.

(** Contract [/c2], whose rule redirects to [/rg]. *)
Definition store : MOStore :=
  {| resolveEpGroup := fun _ => None;
     resolveBridgeDomain := objects [("/bd1", Chain.bd1)];
     resolveFloodDomain := fun _ => None;
     resolveRoutingDomain := objects [("/rd1", Chain.rd1)];
     resolveSubnets := fun _ => None;
     resolveEndpointRetention := fun _ => None;
     resolveL3ExternalNetwork := fun _ => None;
     resolveContract :=
       objects [("/c2", Compiled.redirecting [Compiled.toRedirect])];
     resolveL24Classifier := objects [("/X", Compiled.X)];
     resolveAllowDenyAction := fun _ => None;
     resolveRedirectAction := objects [("/redir", Compiled.redirectAction)];
     resolveRedirectDestGroup := objects [("/rg", rg)] |}.

(** The manager once [/c2] has been compiled. *)
Definition compiled : PolicyManager :=
  (updateContracts store
     (contractListener_objectUpdated Contract_CLASS_ID "/c2" initialManager)).1.

Definition update (acc : PolicyManager * gset URI)
    : outcome (PolicyManager * gset URI) :=
  updateRedirectDestGroup parse CONST_SYMMETRIC store "/rg" acc.

(** The addresses of the destinations of [/rg], in list order. *)
Definition destinations (pm : PolicyManager) : list Z :=
  match redirGrpMap pm !! "/rg" with
  | Some st => (fun d => prd_ip (deref d)) <$> redirDstList st
  | None => []
  end.
End Redirecting.

Module Swap.
(** Groups [/g1] and [/g2] with the given encap ids. *)
Definition group (uri : URI) (encap : Z) : EpGroup :=
  {| epg_uri := uri; epg_instContext := Some (instCtx (Some encap));
     epg_networkRSrc := None; epg_subnetsRSrc := None;
     epg_provContractRSrc := []; epg_consContractRSrc := [];
     epg_intraContractRSrc := [] |}.

Definition store (encap1 encap2 : Z) : MOStore :=
  {| resolveEpGroup :=
       objects [("/g1", group "/g1" encap1); ("/g2", group "/g2" encap2)];
     resolveBridgeDomain := fun _ => None;
     resolveFloodDomain := fun _ => None;
     resolveRoutingDomain := fun _ => None;
     resolveSubnets := fun _ => None;
     resolveEndpointRetention := fun _ => None;
     resolveL3ExternalNetwork := fun _ => None;
     resolveContract := fun _ => None;
     resolveL24Classifier := fun _ => None;
     resolveAllowDenyAction := fun _ => None;
     resolveRedirectAction := fun _ => None;
     resolveRedirectDestGroup := fun _ => None |}.

(** Both groups resolved, [/g1] under 100 and [/g2] under 200, then the
    two encap ids exchanged in the store and the groups visited in the
    given order. *)
Definition exchanged (order : list URI) : outcome PolicyManager :=
  r1 ← updateDomain_groups (store 100 200) 4 ["/g1"; "/g2"] initialManager ∅;
  r2 ← updateDomain_groups (store 200 100) 4 order r1.1 ∅;
  Done r2.1.
End Swap.


(** ** What the rule compiler is expected to produce *)

(** The direction and the classifier of every [PolicyRule] a parent is
    compiled to, written as a comprehension: subjects in model order, the
    rules of a subject in [stable_sort] order without those that have no
    direction, the classifiers of a rule in [resolveClassifiers] order. *)
Definition compiledShape {Parent Subject Rule : Type}
    `{!PolicyFamily Parent Subject Rule} (store : MOStore) (parent : Parent)
    : list (Z * L24Classifier) :=
  sub ← resolveSubjects parent;
  rule ← stable_sort (fun r => orderKey (getRuleOrder r)) (resolveRules sub);
  match getRuleDirection rule with
  | Some dir =>
      (fun c => (dir, c))
        <$> resolveClassifiers store (resolveRuleToClassifierRSrc rule)
  | None => []
  end.

Definition shapeOf (l : rule_list_t) : list (Z * L24Classifier) :=
  (fun r => (direction (deref r), l24Classifier (deref r))) <$> l.

(** The rules a contract is compiled to, without their addresses. *)
Definition compiledValues (store : MOStore) (contract : Contract)
    : list PolicyRule :=
  values (newRules (compileParent store contract (startCompile ∅ 1))).

(** Every rule the manager holds for a contract was allocated before
    [heap_next]. *)
Definition rules_allocated (pm : PolicyManager) : Prop :=
  ∀ c cs, contractMap pm !! c = Some cs →
          Forall (fun r => (get r < heap_next pm)%positive) (rules cs).

(** Two states of a compile that differ in the addresses only. *)
Definition same_output (cst1 cst2 : CompileState) : Prop :=
  values (newRules cst1) = values (newRules cst2)
  ∧ newRedirGrps cst1 = newRedirGrps cst2.

(** Every rule of the list under construction was allocated before the
    allocator's next address. *)
Definition allocated_below (cst : CompileState) : Prop :=
  Forall (fun r => (get r < compileHeap cst)%positive) (newRules cst).

(** ** Queries on the contract index *)

(** [getContractProviders(contractURI, epgURIs)]: the URIs inserted into
    [epgURIs]. *)
Definition getContractProviders (pm : PolicyManager) (contractURI : URI)
    : gset URI :=
  match contractMap pm !! contractURI with
  | Some cs => providerGroups cs
  | None => ∅
  end.

Definition getContractConsumers (pm : PolicyManager) (contractURI : URI)
    : gset URI :=
  match contractMap pm !! contractURI with
  | Some cs => consumerGroups cs
  | None => ∅
  end.

Definition getContractIntra (pm : PolicyManager) (contractURI : URI)
    : gset URI :=
  match contractMap pm !! contractURI with
  | Some cs => intraGroups cs
  | None => ∅
  end.

(** [getContractsForGroup(eg, contractURIs)]: read from the store, not
    from the index. *)
Definition getContractsForGroup (store : MOStore) (eg : URI) : gset URI :=
  match resolveEpGroup store eg with
  | Some epg =>
      targetsOf (epg_provContractRSrc epg)
      ∪ targetsOf (epg_consContractRSrc epg)
      ∪ targetsOf (epg_intraContractRSrc epg)
  | None => ∅
  end.

(** The three roles a group can have towards a contract, with the set of
    each in a contract's state and in a group's state. *)
Inductive Role : Type := Provider | Consumer | Intra.

#[global] Instance Role_eq_dec : EqDecision Role.
Proof. solve_decision. Defined.

Definition setter (r : Role)
    : (gset URI → gset URI) → ContractState → ContractState :=
  match r with
  | Provider => set_providerGroups
  | Consumer => set_consumerGroups
  | Intra => set_intraGroups
  end.

Definition groupsOf (r : Role) (cs : ContractState) : gset URI :=
  match r with
  | Provider => providerGroups cs
  | Consumer => consumerGroups cs
  | Intra => intraGroups cs
  end.

Definition contractsOf (r : Role) (gcs : GroupContractState) : gset URI :=
  match r with
  | Provider => contractsProvided gcs
  | Consumer => contractsConsumed gcs
  | Intra => contractsIntra gcs
  end.

(** The groups filed under a contract in a role: what the query of that
    role returns. *)
Definition members (r : Role) (pm : PolicyManager) (c : URI) : gset URI :=
  match contractMap pm !! c with
  | Some cs => groupsOf r cs
  | None => ∅
  end.

(** The contracts a group is recorded to have in a role. *)
Definition held (r : Role) (pm : PolicyManager) (g : URI) : gset URI :=
  contractsOf r (index_or emptyGroupContractState g (groupContractMap pm)).

(** [contractMap] and [groupContractMap] mirror each other. *)
Definition refs_mirrored (pm : PolicyManager) : Prop :=
  ∀ r g c, g ∈ members r pm c ↔ c ∈ held r pm g.

(** The sets of a role in a diff, and in the references of a group. *)
Definition added (r : Role) (d : ContractDiff) : gset URI :=
  match r with
  | Provider => provAdded d
  | Consumer => consAdded d
  | Intra => intraAdded d
  end.

Definition removed (r : Role) (d : ContractDiff) : gset URI :=
  match r with
  | Provider => provRemoved d
  | Consumer => consRemoved d
  | Intra => intraRemoved d
  end.

Definition referred (r : Role) (new : option (gset URI * gset URI * gset URI))
    : gset URI :=
  match new with
  | Some (p, c, i) =>
      match r with Provider => p | Consumer => c | Intra => i end
  | None => ∅
  end.

(** ** Views of the external-network tracker *)

(** The networks filed under a NAT group. *)
Definition slot (idx : gmap URI (gset URI)) (natEpg : URI) : gset URI :=
  default ∅ (idx !! natEpg).

(** The NAT reverse index [idx] mirrors the [natEpg] of the network states
    [l3n] and has no empty slot, and every network state carries its
    routing domain. *)
Definition tracker_ok (l3n : gmap URI L3NetworkState)
    (idx : gmap URI (gset URI)) : Prop :=
  (∀ n e, l3n !! n ≫= l3s_natEpg = Some e ↔ n ∈ slot idx e)
  ∧ (∀ e s, idx !! e = Some s → s ≠ ∅)
  ∧ (∀ n l3s, l3n !! n = Some l3s → is_Some (l3s_routingDomain l3s)).

(** Every network state carries its routing domain. *)
Definition l3n_attached (pm : PolicyManager) : Prop :=
  ∀ n l3s, l3n_map pm !! n = Some l3s → is_Some (l3s_routingDomain l3s).

(** Every NAT reference among the networks has its target set. *)
Definition nat_targets_set (nets : list L3ExternalNetwork) : Prop :=
  ∀ net r, net ∈ nets → l3n_natEPGroupRSrc net = Some r →
           is_Some (getTargetURI r).

(** The networks under a routing domain: [resolveGbpL3ExternalNetwork] over
    its external domains. *)
Definition networksOf (rd : RoutingDomain) : list L3ExternalNetwork :=
  rd_l3ExternalDomain rd ≫= l3d_network.

(** [getRDForL3ExtNet(l3n)]. *)
Definition getRDForL3ExtNet (pm : PolicyManager) (l3n : URI)
    : option RoutingDomain :=
  match l3n_map pm !! l3n with
  | None => None
  | Some l3s => l3s_routingDomain l3s
  end.

(** The external networks recorded for a routing domain. *)
Definition recordedNets (pm : PolicyManager) (rdURI : URI) : gset URI :=
  extNets (index_or {| extNets := ∅ |} rdURI (rd_map pm)).

(** ** Redirect groups: the query and the registration of contracts *)

(** [getPolicyDestGroup(redirURI, redirList, hashParam_, hashOpt_)]:
    nothing when the group is unknown, else the destinations appended to
    [redirList], [hashParam_] and [hashOpt_]. *)
Definition getPolicyDestGroup (pm : PolicyManager) (redirURI : URI)
    : option (redir_dest_list_t * Z * Z) :=
  match redirGrpMap pm !! redirURI with
  | Some s => Some (redirDstList s, resilientHashEnabled s, hashAlgo s)
  | None => None
  end.

(** Every redirect group named by a rule under construction is among the
    redirect groups collected so far. *)
Definition redirects_collected (cst : CompileState) : Prop :=
  ∀ x u, x ∈ newRules cst → redirDstGrpURI (deref x) = Some u →
         u ∈ newRedirGrps cst.

(** Contract [c] is registered with redirect group [u]. *)
Definition registered (pm : PolicyManager) (c u : URI) : Prop :=
  ∃ s, redirGrpMap pm !! u = Some s ∧ c ∈ ctrctSet s.

(** [compareRedirects] never puts a later destination before an earlier
    one. *)
Definition ascending (l : redir_dest_list_t) : Prop :=
  StronglySorted (fun a b => prd_ip (deref a) ≤ prd_ip (deref b)) l.

(** A stored destination made from the destination object [redirDest]:
    the address it carries is what [from_string] made of the object's
    address, and it carries the object's MAC. *)
Definition made_from (from_string : string → option Z)
    (d : PolicyRedirectDest) (redirDest : RedirectDest) : Prop :=
  prd_redirDst d = redirDest
  ∧ rdst_ip redirDest ≫= from_string = Some (prd_ip d)
  ∧ rdst_mac redirDest = Some (prd_mac d).

Section AllRedirectGroups.
Variable from_string : string → option Z.
Variable CONST_SYMMETRIC : Z.

(** The loop of [updateRedirectDestGroups] over the entries of
    [redirGrpMap].  [updateRedirectDestGroup] erases the entry of a group
    that does not resolve, which is the entry the loop's iterator is at:
    the [itr++] that follows is then undefined. *)
Fixpoint updateRedirectDestGroups_loop (store : MOStore) (keys : list URI)
    (acc : PolicyManager * gset URI) : outcome (PolicyManager * gset URI) :=
  match keys with
  | [] => Done acc
  | k :: keys' =>
      acc1 ← updateRedirectDestGroup from_string CONST_SYMMETRIC store k acc;
      if decide (is_Some (redirGrpMap acc1.1 !! k))
      then updateRedirectDestGroups_loop store keys' acc1
      else Undefined
  end.

(** [updateRedirectDestGroups(notifyGroup)]. *)
Definition updateRedirectDestGroups (store : MOStore)
    (acc : PolicyManager * gset URI) : outcome (PolicyManager * gset URI) :=
  updateRedirectDestGroups_loop store (map_to_list (redirGrpMap acc.1)).*1 acc.
End AllRedirectGroups.

(** ** Subnet lookup *)

(** [boost::asio::ip::address]: a version-4 address with its
    [to_ulong()], or a version-6 address with its 16 bytes read as one
    number. *)
Inductive address : Type :=
  | address_v4 (a : Z)
  | address_v6 (a : Z).

Definition is_v4 (a : address) : bool :=
  match a with
  | address_v4 _ => true
  | address_v6 _ => false
  end.

(** Truncation to [uint32_t]. *)
Definition wrap32 (z : Z) : Z := z mod 2 ^ 32.

(** The [i]-th [uint64_t] of an [in6_addr]. *)
Definition word64 (i : Z) (a : Z) : Z := Z.land (Z.shiftr a (64 * i)) (Z.ones 64).

(** The version-4 branch of [findSubnetForEp]: the prefix length is capped
    at 32, the mask is [~0u << (32 - prefixLen)], or 0 for length 0, and
    the masked addresses are compared. *)
Definition v4_in_subnet (netAddr ip prefixLen : Z) : bool :=
  let prefixLen := if 32 <? prefixLen then 32 else prefixLen in
  let mask :=
    if negb (prefixLen =? 0)
    then wrap32 (Z.shiftl UINT32_MAX (32 - prefixLen))
    else 0 in
  Z.land netAddr mask =? Z.land ip mask.

Section SubnetLookup.
(** [address::from_string(s, ec)]: the address returned; the error code is
    not looked at. *)
Variable from_string : string → address.

(** [network::compute_ipv6_subnet(netAddr, prefixLen, &mask, &net_addr)],
    of the agent's network utilities: the mask and the network address. *)
Variable compute_ipv6_subnet : Z → Z → Z * Z.

(** The version-6 branch: both halves of the masked address are compared
    with the halves of the network address. *)
Definition v6_in_subnet (netAddr ip prefixLen : Z) : bool :=
  let prefixLen := if 128 <? prefixLen then 128 else prefixLen in
  let '(mask, net_addr) := compute_ipv6_subnet netAddr prefixLen in
  (Z.land (word64 0 ip) (word64 0 mask) =? word64 0 net_addr)
  && (Z.land (word64 1 ip) (word64 1 mask) =? word64 1 net_addr).

(** The loop over the subnets of the group. *)
Fixpoint findSubnet (subnets : list Subnet) (ip : address) : option Subnet :=
  match subnets with
  | [] => None
  | sn :: rest =>
      match sn_address sn, sn_prefixLen sn with
      | Some a, Some prefixLen =>
          let netAddr := from_string a in
          if negb (eqb (is_v4 netAddr) (is_v4 ip)) then findSubnet rest ip
          else
            match netAddr, ip with
            | address_v4 n, address_v4 i =>
                if v4_in_subnet n i prefixLen then Some sn
                else findSubnet rest ip
            | address_v6 n, address_v6 i =>
                if v6_in_subnet n i prefixLen then Some sn
                else findSubnet rest ip
            | _, _ => findSubnet rest ip
            end
      | _, _ => findSubnet rest ip
      end
  end.

(** [findSubnetForEp(eg, ip)]. *)
Definition findSubnetForEp (pm : PolicyManager) (eg : URI) (ip : address)
    : option Subnet :=
  match group_map pm !! eg with
  | None => None
  | Some gs => findSubnet (map_to_list (subnet_map gs)).*2 ip
  end.
End SubnetLookup.

(** Two 32-bit addresses agree on their [k] leading bits. *)
Definition same_prefix (k n i : Z) : Prop :=
  Z.shiftr n (32 - k) = Z.shiftr i (32 - k).

(** A subnet of the group state with address and prefix length set, whose
    address [from_string] reads as the version-4 address [n]. *)
Definition v4_subnet_of (from_string : string → address) (gs : GroupState)
    (sn : Subnet) (p n : Z) : Prop :=
  (∃ u, subnet_map gs !! u = Some sn)
  ∧ sn_prefixLen sn = Some p
  ∧ ∃ a, sn_address sn = Some a ∧ from_string a = address_v4 n.

Module Subnetting.
(** [from_string] on the one address of the scenario; every other string
    gives the address a failed parse leaves, 0.0.0.0. *)
Definition parse (s : string) : address :=
  if decide (s = "10.0.0.0") then address_v4 167772160 else address_v4 0.

(** No version-6 subnet occurs in the scenario. *)
Definition subnet6 (netAddr prefixLen : Z) : Z * Z := (0, 0).

(** Group [/g1] with the subnet 10.0.0.0/24. *)
Definition net24 : Subnet :=
  {| sn_uri := "/s1"; sn_address := Some "10.0.0.0"; sn_prefixLen := Some 24 |}.

Definition manager : PolicyManager :=
  set_group_map
    (fun _ => {[ "/g1" := {| epGroup := None; instContext := None;
                             floodDomain := None; floodContext := None;
                             bridgeDomain := None; routingDomain := None;
                             subnet_map := {[ "/s1" := net24 ]};
                             instBDContext := None; instRDContext := None;
                             l2EpRetPolicy := None; l3EpRetPolicy := None |} ]})
    initialManager.
End Subnetting.

(** ** Routing domains reached through the NAT index *)

(** Routing domain [rd] is that of an external network filed under NAT
    group [g]. *)
Definition nat_routing_domain (pm : PolicyManager) (g rd : URI) : Prop :=
  ∃ nets net l3s r,
    nat_epg_l3_ext pm !! g = Some nets ∧ net ∈ nets
    ∧ l3n_map pm !! net = Some l3s
    ∧ l3s_routingDomain l3s = Some r ∧ rd_uri r = rd.

(** ** Security groups *)

Definition set_secGrpMap (f : gmap URI rule_list_t → gmap URI rule_list_t)
    (pm : PolicyManager) : PolicyManager :=
  {| group_map := group_map pm; vnid_map := vnid_map pm;
     redirGrpMap := redirGrpMap pm; contractMap := contractMap pm;
     secGrpMap := f (secGrpMap pm); groupContractMap := groupContractMap pm;
     l3n_map := l3n_map pm; rd_map := rd_map pm;
     nat_epg_l3_ext := nat_epg_l3_ext pm; heap_next := heap_next pm |}.

(** [getSecGroupRules(secGroupURI, rules)]: the rules appended. *)
Definition getSecGroupRules (pm : PolicyManager) (secGroupURI : URI)
    : rule_list_t :=
  match secGrpMap pm !! secGroupURI with
  | Some rs => rs
  | None => []
  end.

Section SecGroups.
(** The instantiation [<SecGroup, SecGroupSubject, SecGroupRule>] of the
    template, whose classes come from the generated model. *)
Context {SecGroup SecGroupSubject SecGroupRule : Type}
  `{!PolicyFamily SecGroup SecGroupSubject SecGroupRule}.

(** [updateSecGrpRules(secGrpURI, notFound)]: the result is
    [(updated, notFound, state)]. *)
Definition updateSecGrpRules (store : MOStore) (secGrpURI : URI)
    (pm : PolicyManager) : bool * bool * PolicyManager :=
  let old := index_or [] secGrpURI (secGrpMap pm) in
  let r := updatePolicyRules (Parent := SecGroup) store secGrpURI old ∅ ∅
             (heap_next pm) in
  (res_updated r, res_notFound r,
   set_heap_next (res_heap r)
     (set_secGrpMap (fun m => <[secGrpURI := res_rules r]> m) pm)).

(** The body of the loop of [updateSecGrps], for the entry at [g]. *)
Definition updateSecGrps_step (store : MOStore)
    (acc : PolicyManager * gset URI) (g : URI) : PolicyManager * gset URI :=
  let '(updated, notFound, pm1) := updateSecGrpRules store g acc.1 in
  let notify1 := if updated : bool then {[g]} ∪ acc.2 else acc.2 in
  if notFound : bool
  then (set_secGrpMap (delete g) pm1, {[g]} ∪ notify1)
  else (pm1, notify1).

(** [updateSecGrps()]: the new state and [toNotify]. *)
Definition updateSecGrps (store : MOStore) (pm : PolicyManager)
    : PolicyManager * gset URI :=
  foldl (updateSecGrps_step store) (pm, ∅) (map_to_list (secGrpMap pm)).*1.
End SecGroups.
(** * Theorems *)

(** ** The vnid index *)

(** A group that no longer resolves leaves [updateEPGDomains] before the
    vnid index is touched. *)
Lemma updateEPGDomains_unresolved store fuel egURI pm :
  resolveEpGroup store egURI = None →
  ∃ pm', updateEPGDomains store fuel egURI pm = Done (true, true, pm')
         ∧ vnid_map pm' = vnid_map pm.
Proof.
  intros Hnone. unfold updateEPGDomains. rewrite Hnone. eauto.
Qed.

Lemma Vnid_resolved_consistent : vnid_index_consistent Vnid.resolved.
Proof.
  split.
  - intros g gs v Hg Hv. cbn in Hg.
    apply lookup_singleton_Some in Hg as [<- <-].
    cbn in Hv. by simplify_eq.
  - intros v g Hv. cbn in Hv.
    apply lookup_singleton_Some in Hv as [<- <-].
    exists Vnid.gs1. split; [apply lookup_singleton_eq | done].
Qed.

(** C1.  The vnid index stops mirroring the groups when a group is erased:
    starting from the empty manager, [/g1] with encap id 100 is resolved
    (the index is consistent), then leaves the store; the next
    [updateDomain] erases the group and keeps [vnid_map[100] = /g1]. *)
Theorem updateDomain_leaves_stale_vnid :
  ∃ n1 n2,
    updateDomain Vnid.store 4 EpGroup_CLASS_ID "/g1" initialManager
      = Done (Vnid.resolved, n1)
    ∧ vnid_index_consistent Vnid.resolved
    ∧ updateDomain emptyStore 4 EpGroup_CLASS_ID "/g1" Vnid.resolved
      = Done (Vnid.removed, n2)
    ∧ group_map Vnid.removed !! "/g1" = None
    ∧ getGroupForVnid Vnid.removed 100 = Some "/g1"
    ∧ ¬ vnid_index_consistent Vnid.removed.
Proof.
  eexists _, _. split; [vm_compute; reflexivity |].
  split; [apply Vnid_resolved_consistent |].
  split; [vm_compute; reflexivity |].
  split; [done |]. split; [done |].
  intros [_ Hback].
  destruct (Hback 100 "/g1") as (gs & Hgs & _); [done |].
  cbn in Hgs. by rewrite lookup_empty in Hgs.
Qed.

(** The index can also lose an entry while both groups stay: when two
    groups exchange their encap ids, the group visited first finds its new
    id taken ([insert] does not overwrite), and the group visited second
    erases that id as its old one.  Whatever the order of the visit, one
    group ends without an entry. *)
Lemma exchanged_encap_ids_lose_an_entry :
  (pm ← Swap.exchanged ["/g1"; "/g2"];
   Done (getVnidForGroup pm "/g1", getGroupForVnid pm 200,
         getVnidForGroup pm "/g2", getGroupForVnid pm 100))
    = Done (Some 200, None, Some 100, Some "/g2")
  ∧ (pm ← Swap.exchanged ["/g2"; "/g1"];
     Done (getVnidForGroup pm "/g1", getGroupForVnid pm 200,
           getVnidForGroup pm "/g2", getGroupForVnid pm 100))
    = Done (Some 200, Some "/g1", Some 100, None).
Proof. split; vm_compute; reflexivity. Qed.

(** ** The vnid queries *)

Lemma Chain_resolved ctx :
  ∃ n, updateDomain (Chain.store ctx) 4 EpGroup_CLASS_ID "/g1" initialManager
       = Done (Chain.resolved ctx, n).
Proof.
  destruct ctx as [[[v|] mc cl [r|]]|]; eexists; vm_compute; reflexivity.
Qed.

(** The chain scenario of the specification: after [/g1] (encap id 100,
    bridge domain [/bd1], routing domain [/rd1]) has settled, the group and
    its vnid are found under each other. *)
Lemma chain_scenario :
  getVnidForGroup (Chain.resolved (Some (instCtx (Some 100)))) "/g1" = Some 100
  ∧ getGroupForVnid (Chain.resolved (Some (instCtx (Some 100)))) 100 = Some "/g1"
  ∧ bridgeDomain (Chain.gs1 (Some (instCtx (Some 100)))) = Some Chain.bd1
  ∧ routingDomain (Chain.gs1 (Some (instCtx (Some 100)))) = Some Chain.rd1.
Proof. repeat split; reflexivity. Qed.

(** C10.  A bridge-domain instance context does not imply an instance
    context of the group: when [/g1] has none and its bridge domain has one,
    the resolver stores [instBDContext] without [instContext], and
    [getBDVnidForGroup] dereferences the unset [instContext]. *)
Theorem getBDVnidForGroup_reads_unset_instContext :
  ∃ n,
    updateDomain (Chain.store None) 4 EpGroup_CLASS_ID "/g1" initialManager
      = Done (Chain.resolved None, n)
    ∧ ¬ bd_context_implies_context (Chain.resolved None)
    ∧ getBDVnidForGroup (Chain.resolved None) "/g1" = Undefined.
Proof.
  eexists. split; [vm_compute; reflexivity |]. split; [| reflexivity].
  intros Himp.
  destruct (Himp "/g1" (Chain.gs1 None)) as [ic Hic]; [done | by eexists |].
  discriminate Hic.
Qed.

(** C8, as stated, fails for [getRDVnidForGroup]: with encap id 1 on the
    group and 3 on its routing domain the query answers 3. *)
Lemma getRDVnidForGroup_not_from_instContext :
  ¬ reads_instContext getRDVnidForGroup.
Proof.
  intros Hreads.
  specialize (Hreads (Chain.resolved (Some (instCtx (Some 1)))) "/g1"
                (Chain.gs1 (Some (instCtx (Some 1)))) 3).
  discriminate Hreads; reflexivity.
Qed.

(** C8, amended.  For a group in [group_map], [getBDVnidForGroup] answers
    with the encap id of [instContext], and answers exactly when
    [instBDContext] is set and [instContext] has an encap id;
    [getRDVnidForGroup] answers with the encap id of [instRDContext], and
    answers exactly when [instRDContext] has one. *)
Theorem vnid_queries_sources (pm : PolicyManager) (eg : URI) (gs : GroupState) :
  group_map pm !! eg = Some gs →
  (∀ v, getBDVnidForGroup pm eg = Done (Some v)
        ↔ is_Some (instBDContext gs) ∧ instContext gs ≫= getEncapId = Some v)
  ∧ (∀ v, getRDVnidForGroup pm eg = Done (Some v)
          ↔ instRDContext gs ≫= getEncapId = Some v).
Proof.
  intros Hgs. unfold getBDVnidForGroup, getRDVnidForGroup. rewrite Hgs.
  split; intros v.
  - destruct (instBDContext gs) as [bdc|], (instContext gs) as [ic|]; cbn;
      try destruct (getEncapId ic); split;
      try (intros [[? ?] ?]); try (intros [? ?]); intros;
      simplify_eq; eauto; try (by split; eauto); done.
  - destruct (instRDContext gs) as [rdc|]; cbn;
      try destruct (getEncapId rdc); split; intros; simplify_eq; done.
Qed.

(** C8, amended, at the chain [/g1] (encap id 1), [/bd1] (2), [/rd1] (3):
    the bridge-domain query answers 1, the routing-domain query 3. *)
Lemma vnid_queries_sources_witness :
  getBDVnidForGroup (Chain.resolved (Some (instCtx (Some 1)))) "/g1"
    = Done (Some 1)
  ∧ getRDVnidForGroup (Chain.resolved (Some (instCtx (Some 1)))) "/g1"
    = Done (Some 3).
Proof.
  destruct (vnid_queries_sources
              (Chain.resolved (Some (instCtx (Some 1)))) "/g1"
              (Chain.gs1 (Some (instCtx (Some 1)))) eq_refl) as [Hbd Hrd].
  split; [apply Hbd | apply Hrd]; repeat split; eauto.
Defined.

(** ** [stop] *)

(** C9, as stated, fails: an entry of [contractMap] survives [stop]. *)
Lemma stop_keeps_contractMap : ¬ all_indices_empty (stop Stopping.running).
Proof.
  intros (_ & _ & _ & Hc & _).
  assert (Hl : contractMap (stop Stopping.running) !! "/c1"
               = Some emptyContractState) by reflexivity.
  rewrite Hc in Hl. by rewrite lookup_empty in Hl.
Qed.

(** C9, amended.  After [stop], [group_map], [vnid_map] and [redirGrpMap]
    are empty; the six other index maps are as they were. *)
Theorem stop_clears_three_maps (pm : PolicyManager) :
  group_map (stop pm) = ∅ ∧ vnid_map (stop pm) = ∅ ∧ redirGrpMap (stop pm) = ∅
  ∧ contractMap (stop pm) = contractMap pm
  ∧ secGrpMap (stop pm) = secGrpMap pm
  ∧ groupContractMap (stop pm) = groupContractMap pm
  ∧ l3n_map (stop pm) = l3n_map pm
  ∧ rd_map (stop pm) = rd_map pm
  ∧ nat_epg_l3_ext (stop pm) = nat_epg_l3_ext pm.
Proof. by repeat split. Qed.

(** ** The NAT reverse index *)

Lemma NatIndex_attached_consistent : nat_index_consistent NatIndex.attached.
Proof.
  split.
  - intros n e. cbn. split.
    + intros (l3s & Hn & He).
      apply lookup_singleton_Some in Hn as [<- <-]. cbn in He. simplify_eq.
      exists {[ "/n1" ]}. split; [apply lookup_singleton_eq | set_solver].
    + intros (s & He & Hn).
      apply lookup_singleton_Some in He as [<- <-].
      apply elem_of_singleton in Hn as ->.
      eexists. split; [apply lookup_singleton_eq | done].
  - intros e s He. cbn in He.
    apply lookup_singleton_Some in He as [_ <-]. set_solver.
Qed.

(** C5.  The NAT reverse index stops mirroring [natEpg] in two of the
    cases of [updateL3Nets].  With [/n1] attached under [/rd1] and [/g1] as
    its NAT group (the index is consistent): when the routing domain leaves
    the store, [/n1] is erased from [l3n_map] and stays in
    [nat_epg_l3_ext[/g1]]; when the NAT reference loses its target, [/n1]
    is pruned from the index and keeps [natEpg = /g1]. *)
Theorem updateL3Nets_breaks_nat_index :
  updateL3Nets (NatIndex.store NatIndex.toG1) "/rd1" (initialManager, ∅)
    = Done (NatIndex.attached, ∅)
  ∧ nat_index_consistent NatIndex.attached
  ∧ updateL3Nets emptyStore "/rd1" (NatIndex.attached, ∅)
    = Done (NatIndex.domainRemoved, ∅)
  ∧ ¬ nat_index_consistent NatIndex.domainRemoved
  ∧ updateL3Nets (NatIndex.store (Some unsetRef)) "/rd1" (NatIndex.attached, ∅)
    = Done (NatIndex.targetUnset, ∅)
  ∧ ¬ nat_index_consistent NatIndex.targetUnset.
Proof.
  split; [vm_compute; reflexivity |].
  split; [apply NatIndex_attached_consistent |].
  split; [vm_compute; reflexivity |].
  split.
  { intros [Hiff _].
    destruct (proj2 (Hiff "/n1" "/g1")) as (l3s & Hn & _).
    - exists {[ "/n1" ]}. split; [reflexivity | set_solver].
    - cbn in Hn. by rewrite lookup_empty in Hn. }
  split; [vm_compute; reflexivity |].
  intros [Hiff _].
  destruct (proj1 (Hiff "/n1" "/g1")) as (s & He & _).
  - eexists. split; [reflexivity | done].
  - cbn in He. by rewrite lookup_empty in He.
Qed.

(** The NAT scenario of the specification: when [/n1] changes its NAT
    group from [/g1] to [/g2], the slot of [/g1] is removed and [/n1] is
    filed under [/g2]. *)
Lemma nat_reference_changed :
  (r ← updateL3Nets (NatIndex.store (Some (ref EpGroup_CLASS_ID "/g2"))) "/rd1"
         (NatIndex.attached, ∅);
   Done (nat_epg_l3_ext r.1))
  = Done {[ "/g2" := {[ "/n1" ]} ]}.
Proof. vm_compute. reflexivity. Qed.

(** ** The rule compiler: scenarios *)

(** The compile scenario of the specification: rules A and B of contract
    [/c1] come out in the order of their [order] attribute, with priorities
    8192 and 8064, as allow/in/X and deny/out/Y.  The deny action has no
    order of its own here. *)
Lemma contract_compile_scenario :
  values (Compiled.compiled (Compiled.store None [("/c1", Compiled.c1)]) "/c1")
  = [ Compiled.policyRule Compiled.CONST_IN 8192 Compiled.X true false None;
      Compiled.policyRule Compiled.CONST_OUT 8064 Compiled.Y false false None ].
Proof. vm_compute. reflexivity. Qed.

(** C2.  A deny action whose order is the largest 32-bit value never
    passes the test [order < minOrder], [minOrder] starting at that very
    value: rule B, whose sole action it is, is compiled with [allow = true]. *)
Theorem deny_action_of_largest_order_ignored :
  resolveAllowDenyAction
    (Compiled.store (Some UINT32_MAX) [("/c1", Compiled.c1)]) "/deny"
    = Some {| ada_order := Some 4294967295; ada_allow := Some 0 |}
  ∧ values (Compiled.compiled
              (Compiled.store (Some UINT32_MAX) [("/c1", Compiled.c1)]) "/c1")
    = [ Compiled.policyRule Compiled.CONST_IN 8192 Compiled.X true false None;
        Compiled.policyRule Compiled.CONST_OUT 8064 Compiled.Y true false None ].
Proof. split; vm_compute; reflexivity. Qed.

(** C6.  Whether a redirecting rule is compiled with [allow = false]
    depends on the order of its action references: an allow action
    processed after the redirect action sets [allow] again. *)
Theorem allow_after_redirect_overrides :
  values (Compiled.compiled
            (Compiled.store None
               [("/c2", Compiled.redirecting [Compiled.toRedirect; Compiled.toAllow])])
            "/c2")
    = [ Compiled.policyRule Compiled.CONST_IN 8192 Compiled.X true true (Some "/rg") ]
  ∧ values (Compiled.compiled
              (Compiled.store None
                 [("/c2", Compiled.redirecting [Compiled.toAllow; Compiled.toRedirect])])
              "/c2")
    = [ Compiled.policyRule Compiled.CONST_IN 8192 Compiled.X false true (Some "/rg") ].
Proof. split; vm_compute; reflexivity. Qed.

(** C7.  A recompute of an unchanged contract reports a change: the second
    [updateContracts] over the same store produces the same rules, at new
    addresses, and puts [/c1] in [contractsToNotify]. *)
Theorem unchanged_contract_notified_again :
  let store := Compiled.store None [("/c1", Compiled.c1)] in
  let first := updateContracts store
                 (contractListener_objectUpdated Contract_CLASS_ID "/c1"
                    initialManager) in
  let second := updateContracts store first.1 in
  values (getContractRules second.1 "/c1") = values (getContractRules first.1 "/c1")
  ∧ getContractRules first.1 "/c1" ≠ []
  ∧ (updateContractRules store "/c1" first.1).1.1 = true
  ∧ second.2 = {[ "/c1" ]}.
Proof. repeat split; vm_compute; (reflexivity || discriminate). Qed.

(** C3, as stated, fails: the counter starts again at 8192 for each
    subject, so over two subjects the priorities go 8192, 8064, 8192. *)
Lemma priorities_rise_across_subjects :
  prios (Compiled.compiled
           (Compiled.store None [("/c3", Compiled.twoSubjects)]) "/c3")
    = [8192; 8064; 8192]
  ∧ ¬ non_increasing
        (prios (Compiled.compiled
                  (Compiled.store None [("/c3", Compiled.twoSubjects)]) "/c3")).
Proof.
  assert (Hp : prios (Compiled.compiled
                        (Compiled.store None [("/c3", Compiled.twoSubjects)]) "/c3")
               = [8192; 8064; 8192]) by (vm_compute; reflexivity).
  split; [exact Hp |]. rewrite Hp. intros Hs.
  apply StronglySorted_inv in Hs as [Hs _].
  apply StronglySorted_inv in Hs as [_ Hall].
  apply Forall_inv in Hall. lia.
Qed.

(** At the floor the priorities can rise within one subject: the 64th rule
    is compiled at 128 and 127, the 65th at 128 again. *)
Lemma priorities_rise_at_the_floor :
  drop 62 (prios (Compiled.compiled
                    (Compiled.store None [("/c4", Compiled.deep)]) "/c4"))
  = [256; 128; 127; 128].
Proof. vm_compute. reflexivity. Qed.

(** The redirect scenario of the specification: the rule of [/c2] is
    compiled to a redirecting, non-allowing rule that names [/rg], and the
    destinations of [/rg] are stored in ascending order of address. *)
Lemma redirect_scenario :
  values (getContractRules Redirecting.compiled "/c2")
    = [ Compiled.policyRule Compiled.CONST_IN 8192 Compiled.X false true
          (Some "/rg") ]
  ∧ (r ← Redirecting.update (Redirecting.compiled, ∅);
     Done (Redirecting.destinations r.1, r.2))
    = Done ([167772161; 167772162], {[ "/c2" ]}).
Proof. split; vm_compute; reflexivity. Qed.

(** The redirect group behaves as the contract does: a second
    [updateRedirectDestGroup] over the same store stores the same
    destinations and notifies [/c2] again. *)
Lemma unchanged_redirect_group_notified_again :
  (r1 ← Redirecting.update (Redirecting.compiled, ∅);
   r2 ← Redirecting.update (r1.1, ∅);
   Done (Redirecting.destinations r1.1, Redirecting.destinations r2.1, r2.2))
  = Done ([167772161; 167772162], [167772161; 167772162], {[ "/c2" ]}).
Proof. vm_compute. reflexivity. Qed.

(** ** The rule compiler: priorities *)

Lemma wrap16_small z : 0 ≤ z < 65536 → wrap16 z = z.
Proof. intros Hz. unfold wrap16. by apply Z.mod_small. Qed.

Lemma nextClsPrio_range c : 0 ≤ c ≤ 127 → c ≤ nextClsPrio c ≤ 127.
Proof.
  intros Hc. unfold nextClsPrio.
  destruct (Z.ltb_spec c 127); [rewrite wrap16_small |]; lia.
Qed.

Lemma nextClsPrio_spec c : 0 ≤ c ≤ 127 → nextClsPrio c = Z.min (c + 1) 127.
Proof.
  intros Hc. unfold nextClsPrio.
  destruct (Z.ltb_spec c 127); [rewrite wrap16_small |]; lia.
Qed.

Lemma nextRulePrio_above p : 128 < p ≤ 8192 → nextRulePrio p = p - 128.
Proof.
  intros Hp. unfold nextRulePrio.
  destruct (Z.ltb_spec 128 p); [rewrite wrap16_small |]; lia.
Qed.

Lemma nextRulePrio_floor p : p ≤ 128 → nextRulePrio p = p.
Proof. intros Hp. unfold nextRulePrio. destruct (Z.ltb_spec 128 p); lia. Qed.

Lemma rulePrio_valid_range p : rulePrio_valid p → 128 ≤ p ≤ 8192.
Proof. intros (m & -> & Hm). lia. Qed.

Lemma rulePrio_valid_start : rulePrio_valid MAX_POLICY_RULE_PRIORITY.
Proof. exists 64. unfold MAX_POLICY_RULE_PRIORITY. lia. Qed.

Lemma nextRulePrio_valid p :
  rulePrio_valid p → rulePrio_valid (nextRulePrio p) ∧ nextRulePrio p ≤ p.
Proof.
  intros (m & -> & Hm). destruct (decide (1 < m)).
  - rewrite nextRulePrio_above by lia. split; [exists (m - 1) |]; lia.
  - rewrite nextRulePrio_floor by lia. split; [exists m |]; lia.
Qed.

Lemma non_increasing_app l1 l2 :
  non_increasing l1 → non_increasing l2 →
  (∀ x y, x ∈ l1 → y ∈ l2 → y ≤ x) →
  non_increasing (l1 ++ l2).
Proof. intros H1 H2 H12. apply StronglySorted_app. auto. Qed.

Lemma prefix_emitted (before after : CompileState) :
  newRules before `prefix_of` newRules after →
  newRules after = newRules before ++ emitted before after.
Proof. unfold emitted. intros [k ->]. by rewrite drop_app_length. Qed.

Lemma emitted_app (a b c : CompileState) :
  newRules a `prefix_of` newRules b → newRules b `prefix_of` newRules c →
  emitted a c = emitted a b ++ emitted b c.
Proof.
  intros [k Hk] [k' Hk']. unfold emitted.
  rewrite Hk', (drop_app_length (newRules b) k'), Hk, drop_app_length.
  by rewrite <- (assoc_L (++)), drop_app_length.
Qed.

Lemma emitted_refl (a : CompileState) : emitted a a = [].
Proof. unfold emitted. apply drop_all. Qed.

(** The priorities one rule is compiled to lie in the 128 values below the
    counter and do not increase; the classifier of index [k] gets the
    counter minus [k], the subtrahend stopping at 127. *)
Lemma emitClassifiers_prios mk p c h cs :
  (∀ q cl, prio (mk q cl) = q) → 128 ≤ p ≤ 8192 → 0 ≤ c ≤ 127 →
  Forall (fun q => p - 127 ≤ q ≤ p - c) (prios (emitClassifiers mk p c h cs))
  ∧ non_increasing (prios (emitClassifiers mk p c h cs)).
Proof.
  intros Hmk Hp. revert c h.
  induction cs as [|cl cs IH]; intros c h Hc; cbn.
  - split; constructor.
  - pose proof (nextClsPrio_range c Hc) as Hn.
    destruct (IH (nextClsPrio c) (Pos.succ h)) as [Hall Hs]; [lia |].
    rewrite Hmk, wrap16_small by lia. split.
    + constructor; [lia |].
      eapply Forall_impl; [exact Hall |]. cbn. intros q Hq. lia.
    + constructor; [exact Hs |].
      eapply Forall_impl; [exact Hall |]. cbn. intros q Hq. lia.
Qed.

Lemma emitClassifiers_lookup mk p c h cs (k : nat) r :
  (∀ q cl, prio (mk q cl) = q) → 128 ≤ p ≤ 8192 → 0 ≤ c ≤ 127 →
  emitClassifiers mk p c h cs !! k = Some r →
  prio (deref r) = p - Z.min (c + Z.of_nat k) 127.
Proof.
  intros Hmk Hp. revert c h k.
  induction cs as [|cl cs IH]; intros c h k Hc Hk; [done |].
  destruct k as [|k]; cbn in Hk.
  - simplify_eq. cbn. rewrite Hmk, wrap16_small; lia.
  - pose proof (nextClsPrio_range c Hc) as Hn.
    apply IH in Hk; [| lia].
    rewrite Hk, nextClsPrio_spec by done. lia.
Qed.

Lemma emitClassifiers_length mk p c h cs :
  length (emitClassifiers mk p c h cs) = length cs.
Proof. revert c h. induction cs; intros; cbn; [done | by f_equal]. Qed.

Lemma insert_by_perm {A} (key : A → Z) x l : insert_by key x l ≡ₚ x :: l.
Proof.
  induction l as [|y l IH]; cbn; [done |].
  destruct (key y <? key x); [| done].
  rewrite IH. apply Permutation_swap.
Qed.

Lemma stable_sort_perm {A} (key : A → Z) l : stable_sort key l ≡ₚ l.
Proof.
  unfold stable_sort. induction l as [|x l IH]; cbn; [done |].
  rewrite insert_by_perm. by f_equiv.
Qed.

Lemma insert_by_sorted {A} (key : A → Z) x l :
  StronglySorted (fun a b => key a ≤ key b) l →
  StronglySorted (fun a b => key a ≤ key b) (insert_by key x l).
Proof.
  induction 1 as [|y l Hs IH Hall]; cbn; [repeat constructor |].
  destruct (Z.ltb_spec (key y) (key x)).
  - constructor; [done |].
    rewrite insert_by_perm. constructor; [lia | done].
  - constructor; [by constructor |].
    constructor; [done |].
    eapply Forall_impl; [exact Hall |]. cbn. intros; lia.
Qed.

(** [stable_sort] sorts: its result is ordered by the key. *)
Lemma stable_sort_sorted {A} (key : A → Z) l :
  StronglySorted (fun a b => key a ≤ key b) (stable_sort key l).
Proof.
  unfold stable_sort.
  induction l as [|x l IH]; cbn; [constructor | by apply insert_by_sorted].
Qed.

Lemma insert_by_filter {A} (key : A → Z) (k : Z) x l :
  filter (fun a => key a = k) (insert_by key x l)
  = filter (fun a => key a = k) (x :: l).
Proof.
  induction l as [|y l IH]; cbn; [done |].
  destruct (Z.ltb_spec (key y) (key x)); [| done].
  rewrite filter_cons, IH, !filter_cons.
  repeat case_decide; try done; lia.
Qed.

(** [stable_sort] is stable: elements of equal key keep their order. *)
Lemma stable_sort_stable {A} (key : A → Z) (k : Z) l :
  filter (fun a => key a = k) (stable_sort key l)
  = filter (fun a => key a = k) l.
Proof.
  unfold stable_sort. induction l as [|x l IH]; cbn; [done |].
  by rewrite insert_by_filter, !filter_cons, IH.
Qed.

Section Priorities.
Context {Parent Subject Rule : Type} `{!PolicyFamily Parent Subject Rule}.

Lemma compileRule_undirected store acc (r : Rule) :
  directed r = false → compileRule store acc r = acc.
Proof.
  unfold directed, compileRule. intros Hd.
  destruct (getRuleDirection r); [| done].
  apply bool_decide_eq_false in Hd. by destruct Hd.
Qed.

Lemma compileRule_prefix store acc (r : Rule) :
  newRules acc.2 `prefix_of` newRules (compileRule store acc r).2.
Proof.
  unfold compileRule. destruct (getRuleDirection r); [| done].
  cbn. by apply prefix_app_r.
Qed.

(** One round of the loop over the rules: the counter stays between 128
    and its old value, and what was emitted lies in the 128 values below
    the old counter, in non-increasing order. *)
Lemma compileRule_prios store acc (r : Rule) :
  rulePrio_valid acc.1 →
  (rulePrio_valid (compileRule store acc r).1
   ∧ (compileRule store acc r).1 ≤ acc.1)
  ∧ Forall (fun q => acc.1 - 127 ≤ q ≤ acc.1)
      (prios (emitted acc.2 (compileRule store acc r).2))
  ∧ non_increasing (prios (emitted acc.2 (compileRule store acc r).2)).
Proof.
  intros Hv. pose proof (rulePrio_valid_range _ Hv) as Hp.
  unfold compileRule.
  destruct (getRuleDirection r) as [dir|].
  - cbn. unfold emitted. cbn. rewrite drop_app_length.
    split; [by apply nextRulePrio_valid |].
    unfold emitRule.
    match goal with
    | |- context [emitClassifiers ?mk ?p ?c ?h ?cs] =>
        destruct (emitClassifiers_prios mk p c h cs) as [Hall Hs];
        [done | exact Hp | lia |]
    end.
    split; [| exact Hs].
    eapply Forall_impl; [exact Hall |]. cbn. intros; lia.
  - rewrite emitted_refl. repeat split; try lia; try done; constructor.
Qed.

Lemma compileRule_counter store acc (r : Rule) :
  128 < acc.1 ≤ 8192 → directed r = true →
  (compileRule store acc r).1 = acc.1 - 128.
Proof.
  intros Hp Hd. unfold compileRule, directed in *.
  apply bool_decide_eq_true in Hd as [dir ->]. cbn.
  by apply nextRulePrio_above.
Qed.

Lemma compileRules_cons store p cst (r : Rule) rs :
  compileRules store p cst (r :: rs)
  = compileRules store (compileRule store (p, cst) r).1
      (compileRule store (p, cst) r).2 rs.
Proof. unfold compileRules. cbn. by destruct (compileRule store (p, cst) r). Qed.

Lemma compileRules_app store p cst (rs1 rs2 : list Rule) :
  compileRules store p cst (rs1 ++ rs2)
  = compileRules store (compileRules store p cst rs1).1
      (compileRules store p cst rs1).2 rs2.
Proof.
  unfold compileRules. rewrite foldl_app.
  by destruct (foldl (compileRule store) (p, cst) rs1).
Qed.

(** The loop over the rules of a subject. *)
Lemma compileRules_prios store (rs : list Rule) : ∀ p cst,
  rulePrio_valid p →
  (rulePrio_valid (compileRules store p cst rs).1
   ∧ (compileRules store p cst rs).1 ≤ p)
  ∧ newRules cst `prefix_of` newRules (compileRules store p cst rs).2
  ∧ Forall (fun q => q ≤ p)
      (prios (emitted cst (compileRules store p cst rs).2))
  ∧ (filter (fun r => directed r = true) rs = [] →
     emitted cst (compileRules store p cst rs).2 = [])
  ∧ (128 * Z.of_nat (length (filter (fun r => directed r = true) rs)) ≤ p →
     non_increasing (prios (emitted cst (compileRules store p cst rs).2))).
Proof.
  induction rs as [|r rs IH]; intros p cst Hv.
  - cbn. rewrite emitted_refl. repeat split; try lia; try done; constructor.
  - pose proof (rulePrio_valid_range _ Hv) as Hp.
    rewrite compileRules_cons.
    pose proof (compileRule_prios store (p, cst) r Hv)
      as ((Hv1 & Hp1) & Hall1 & Hs1).
    pose proof (compileRule_prefix store (p, cst) r) as Hpre1.
    cbn [fst snd] in Hv1, Hp1, Hall1, Hs1, Hpre1.
    set (p1 := (compileRule store (p, cst) r).1) in *.
    set (cst1 := (compileRule store (p, cst) r).2) in *.
    destruct (IH p1 cst1) as ((Hv2 & Hp2) & Hpre2 & Hall2 & Hnone2 & Hs2);
      [done |].
    rewrite (emitted_app cst cst1) by done.
    split; [split; [done | lia] |]. split; [by etrans |]. split.
    { unfold prios. rewrite fmap_app. apply Forall_app. split.
      - eapply Forall_impl; [exact Hall1 |]. cbn. intros; lia.
      - eapply Forall_impl; [exact Hall2 |]. cbn. intros; lia. }
    rewrite filter_cons. destruct (directed r) eqn:Hd.
    + rewrite decide_True by done. split; [done |]. cbn [length].
      intros Hn. unfold prios. rewrite fmap_app.
      destruct (filter (fun r0 => directed r0 = true) rs) as [|r' rs'] eqn:Hf.
      * rewrite Hnone2 by done. cbn. by rewrite app_nil_r.
      * cbn [length] in Hn.
        assert (Hc : p1 = p - 128).
        { subst p1. rewrite compileRule_counter; [done | cbn; lia | done]. }
        apply non_increasing_app; [done | apply Hs2; cbn [length]; lia |].
        intros x y Hx Hy.
        rewrite Forall_forall in Hall1, Hall2.
        specialize (Hall1 x Hx). specialize (Hall2 y Hy). cbn in *. lia.
    + rewrite decide_False by done.
      subst p1 cst1. rewrite compileRule_undirected by done. cbn [fst snd].
      rewrite emitted_refl. cbn [app].
      rewrite compileRule_undirected in Hnone2, Hs2 by done.
      split; [done |]. exact Hs2.
Qed.

(** Whatever is emitted after a rule that was compiled above the floor
    has a priority strictly below everything emitted for that rule. *)
Lemma later_rules_strictly_below store p cst (r : Rule) rs x y :
  rulePrio_valid p → 128 < p →
  x ∈ prios (emitted cst (compileRule store (p, cst) r).2) →
  y ∈ prios (emitted (compileRule store (p, cst) r).2
               (compileRules store p cst (r :: rs)).2) →
  y < x.
Proof.
  intros Hv Hp Hx Hy. rewrite compileRules_cons in Hy.
  pose proof (rulePrio_valid_range _ Hv) as Hr.
  destruct (directed r) eqn:Hd.
  - pose proof (compileRule_prios store (p, cst) r Hv) as ((Hv1 & _) & Hall1 & _).
    pose proof (compileRule_counter store (p, cst) r) as Hc.
    cbn [fst] in Hc, Hall1, Hv1. rewrite Hc in * by (done || lia).
    destruct (compileRules_prios store rs (p - 128)
                (compileRule store (p, cst) r).2 Hv1) as (_ & _ & Hall2 & _).
    rewrite Forall_forall in Hall1, Hall2.
    specialize (Hall1 x Hx). specialize (Hall2 y Hy). cbn in *. lia.
  - rewrite compileRule_undirected in Hx by done. cbn in Hx.
    rewrite emitted_refl in Hx. by apply elem_of_nil in Hx.
Qed.

(** C3, amended.  In what one subject contributes to the compiled list
    (the counter starts again at 8192 for each subject): the priorities are
    non-increasing in emission order over what is emitted for the first 64
    rules with a direction, hence over the whole contribution of a subject
    that has at most 64 of them; and everything emitted after a rule that
    was compiled with the counter above 128 has a strictly smaller priority
    than everything emitted for that rule. *)
Theorem priorities_within_subject store (sub : Subject) (cst : CompileState) :
  (∀ rs1 rs2,
     stable_sort (fun r => orderKey (getRuleOrder r)) (resolveRules sub)
     = rs1 ++ rs2 →
     (length (filter (fun r => directed r = true) rs1) ≤ 64)%nat →
     non_increasing
       (prios (emitted cst (compileRules store MAX_POLICY_RULE_PRIORITY cst rs1).2)))
  ∧ ((length (filter (fun r => directed r = true) (resolveRules sub)) ≤ 64)%nat →
     non_increasing (prios (emitted cst (compileSubject store cst sub))))
  ∧ (∀ rs1 (r : Rule) rs2 x y,
       stable_sort (fun r => orderKey (getRuleOrder r)) (resolveRules sub)
       = rs1 ++ r :: rs2 →
       128 < (compileRules store MAX_POLICY_RULE_PRIORITY cst rs1).1 →
       x ∈ prios (emitted
                    (compileRules store MAX_POLICY_RULE_PRIORITY cst rs1).2
                    (compileRule store
                       (compileRules store MAX_POLICY_RULE_PRIORITY cst rs1) r).2) →
       y ∈ prios (emitted
                    (compileRule store
                       (compileRules store MAX_POLICY_RULE_PRIORITY cst rs1) r).2
                    (compileSubject store cst sub)) →
       y < x).
Proof.
  unfold compileSubject. split; [| split].
  - intros rs1 rs2 _ Hn.
    apply compileRules_prios; [apply rulePrio_valid_start |].
    unfold MAX_POLICY_RULE_PRIORITY. lia.
  - intros Hn.
    apply compileRules_prios; [apply rulePrio_valid_start |].
    rewrite (stable_sort_perm _ (resolveRules sub)).
    unfold MAX_POLICY_RULE_PRIORITY. lia.
  - intros rs1 r rs2 x y Hsplit Hc Hx Hy.
    rewrite Hsplit, compileRules_app in Hy.
    destruct (compileRules_prios store rs1 MAX_POLICY_RULE_PRIORITY cst)
      as ((Hv1 & _) & _); [apply rulePrio_valid_start |].
    destruct (compileRules store MAX_POLICY_RULE_PRIORITY cst rs1)
      as [p1 cst1] eqn:Hmid.
    cbn [fst snd] in *.
    by eapply (later_rules_strictly_below store p1 cst1 r rs2).
Qed.
End Priorities.

(** C3, amended, at the subject of the compile scenario: its two rules
    are compiled to 8192 and 8064. *)
Lemma priorities_within_subject_witness :
  non_increasing
    (prios (emitted (startCompile ∅ 1)
              (compileRules (Compiled.store None []) MAX_POLICY_RULE_PRIORITY
                 (startCompile ∅ 1) [Compiled.ruleA]).2))
  ∧ non_increasing
      (prios (emitted (startCompile ∅ 1)
                (compileSubject (Compiled.store None []) (startCompile ∅ 1)
                   {| subj_rule := [Compiled.ruleB; Compiled.ruleA] |})))
  ∧ 8064 < 8192.
Proof.
  destruct (priorities_within_subject (Compiled.store None [])
              {| subj_rule := [Compiled.ruleB; Compiled.ruleA] |}
              (startCompile ∅ 1)) as (Hprefix & Hsorted & Hstrict).
  split; [| split].
  - apply (Hprefix [Compiled.ruleA] [Compiled.ruleB]); [reflexivity |].
    vm_compute. lia.
  - apply Hsorted. vm_compute. lia.
  - apply (Hstrict [] Compiled.ruleA [Compiled.ruleB]).
    + reflexivity.
    + reflexivity.
    + vm_compute. apply list_elem_of_here.
    + vm_compute. apply list_elem_of_here.
Defined.

(** ** Contract garbage collection *)

Lemma foldl_preserves {A B} (P : A → Prop) (f : A → B → A) (l : list B) (a : A) :
  (∀ a b, P a → P (f a b)) → P a → P (foldl f a l).
Proof. intros Hf. revert a. induction l; cbn; auto. Qed.

Lemma noGroups_set_rules rs cs : noGroups (set_rules rs cs) = noGroups cs.
Proof. done. Qed.

Lemma contract_alive_same_groups store c cs cs' :
  same_groups cs cs' → contract_alive store c cs → contract_alive store c cs'.
Proof.
  intros (Hp & Hc & Hi) [Hr|Hg]; [by left | right].
  unfold noGroups in *. by rewrite <- Hp, <- Hc, <- Hi.
Qed.

Lemma same_groups_set_rules rs cs : same_groups cs (set_rules rs cs).
Proof. done. Qed.

Lemma noGroups_empty : noGroups emptyContractState = true.
Proof. done. Qed.

(** [updateContractRules] reports [notFound] exactly for a contract that
    does not resolve, and touches [contractMap] at its own key only, where
    it replaces the rule list. *)
Lemma updateContractRules_spec store c pm :
  (updateContractRules store c pm).1.2
    = bool_decide (resolveContract store c = None)
  ∧ ∃ rs, contractMap (updateContractRules store c pm).2
          = <[c := set_rules rs (index_or emptyContractState c (contractMap pm))]>
              (contractMap pm).
Proof.
  unfold updateContractRules, updatePolicyRules. cbn [resolveParent ContractFamily].
  destruct (resolveContract store c) as [contract|]; cbn; split; eauto.
Qed.

(** One round of the loop of [updateContracts]. *)
Lemma updateContracts_step_other store acc c k :
  k ≠ c →
  contractMap (updateContracts_step store acc c).1 !! k = contractMap acc.1 !! k.
Proof.
  intros Hk. unfold updateContracts_step.
  destruct (updateContractRules_spec store c acc.1) as [Hnf [rs Hm]].
  destruct (updateContractRules store c acc.1) as [[updated notFound] pm1].
  cbn [fst snd] in *.
  destruct notFound; [destruct (noGroups _) |]; cbn; rewrite Hm;
    by rewrite ?lookup_delete_ne, ?lookup_insert_ne.
Qed.

Lemma updateContracts_step_alive store acc c cs' :
  contractMap (updateContracts_step store acc c).1 !! c = Some cs' →
  contract_alive store c cs'.
Proof.
  unfold updateContracts_step.
  destruct (updateContractRules_spec store c acc.1) as [Hnf [rs Hm]].
  destruct (updateContractRules store c acc.1) as [[updated notFound] pm1].
  cbn [fst snd] in *.
  destruct notFound.
  - destruct (noGroups _) eqn:Hg; cbn.
    + by rewrite lookup_delete_eq.
    + rewrite lookup_insert_eq. intros [= <-]. by right.
  - cbn. rewrite Hm, lookup_insert_eq. intros [= <-]. left.
    symmetry in Hnf. apply bool_decide_eq_false in Hnf.
    by destruct (resolveContract store c).
Qed.

Lemma updateContracts_step_keeps store acc c cs :
  contractMap acc.1 !! c = Some cs → contract_alive store c cs →
  ∃ cs', contractMap (updateContracts_step store acc c).1 !! c = Some cs'
         ∧ same_groups cs cs'.
Proof.
  intros Hc Halive. unfold updateContracts_step.
  destruct (updateContractRules_spec store c acc.1) as [Hnf [rs Hm]].
  destruct (updateContractRules store c acc.1) as [[updated notFound] pm1].
  cbn [fst snd] in *.
  unfold index_or in Hm. rewrite Hc in Hm. cbn in Hm.
  destruct notFound.
  - symmetry in Hnf. apply bool_decide_eq_true in Hnf.
    destruct Halive as [[? Hr]|Hg]; [congruence |].
    unfold index_or. rewrite Hm, lookup_insert_eq. cbn.
    rewrite noGroups_set_rules, Hg. cbn. rewrite lookup_insert_eq.
    by eexists; split.
  - cbn. rewrite Hm, lookup_insert_eq. by eexists; split.
Qed.

Lemma updateContracts_loop_cons store c keys acc :
  updateContracts_loop store (c :: keys) acc
  = updateContracts_loop store keys (updateContracts_step store acc c).
Proof. done. Qed.

Lemma updateContracts_loop_other store keys : ∀ acc k,
  k ∉ keys →
  contractMap (updateContracts_loop store keys acc).1 !! k = contractMap acc.1 !! k.
Proof.
  induction keys as [|c keys IH]; intros acc k Hk; [done |].
  apply not_elem_of_cons in Hk as [Hkc Hk].
  rewrite updateContracts_loop_cons, IH by done.
  by apply updateContracts_step_other.
Qed.

Lemma updateContracts_loop_alive store keys : ∀ acc k cs,
  k ∈ keys →
  contractMap (updateContracts_loop store keys acc).1 !! k = Some cs →
  contract_alive store k cs.
Proof.
  induction keys as [|c keys IH]; intros acc k cs Hk Hcs;
    [by apply elem_of_nil in Hk |].
  rewrite updateContracts_loop_cons in Hcs.
  destruct (decide (k ∈ keys)) as [Hin|Hnotin].
  - by eapply (IH (updateContracts_step store acc c)).
  - apply elem_of_cons in Hk as [-> | ?]; [| done].
    rewrite updateContracts_loop_other in Hcs by done.
    by eapply updateContracts_step_alive.
Qed.

Lemma updateContracts_loop_keeps store keys : ∀ acc k cs,
  contractMap acc.1 !! k = Some cs → contract_alive store k cs →
  ∃ cs', contractMap (updateContracts_loop store keys acc).1 !! k = Some cs'
         ∧ same_groups cs cs'.
Proof.
  induction keys as [|c keys IH]; intros acc k cs Hk Halive.
  - exists cs. by split.
  - rewrite updateContracts_loop_cons.
    destruct (decide (k = c)) as [-> | Hne].
    + destruct (updateContracts_step_keeps store acc c cs Hk Halive)
        as (cs1 & Hcs1 & Hsame1).
      destruct (IH (updateContracts_step store acc c) c cs1 Hcs1)
        as (cs2 & ? & Hsame2).
      { by eapply contract_alive_same_groups. }
      exists cs2. split; [done |].
      destruct Hsame1 as (? & ? & ?), Hsame2 as (? & ? & ?).
      repeat split; congruence.
    + apply (IH (updateContracts_step store acc c)); [| done].
      by rewrite updateContracts_step_other.
Qed.

(** [removeContractIfRequired] erases an entry exactly when it is dead. *)
Lemma removeContractIfRequired_spec store c pm :
  ((removeContractIfRequired store c pm).1 = true
   ↔ ∃ cs, contractMap pm !! c = Some cs ∧ ¬ contract_alive store c cs)
  ∧ contractMap (removeContractIfRequired store c pm).2
    = (if (removeContractIfRequired store c pm).1
       then delete c (contractMap pm) else contractMap pm).
Proof.
  unfold removeContractIfRequired, contract_alive.
  destruct (resolveContract store c) as [contract|] eqn:Hr,
           (contractMap pm !! c) as [cs|] eqn:Hc; cbn.
  - split; [| done]. split; [done |]. intros (cs' & [= <-] & Hd).
    destruct Hd. left. eauto.
  - split; [| done]. split; [done |]. by intros (cs' & ? & _).
  - destruct (noGroups cs) eqn:Hg; cbn; (split; [| done]).
    + split; [| done]. intros _. exists cs. split; [done |].
      intros [[? ?]|?]; congruence.
    + split; [done |]. intros (cs' & [= <-] & Hd). destruct Hd. by right.
  - split; [| done]. split; [done |]. by intros (cs' & ? & _).
Qed.

Lemma noGroups_added role g cs :
  is_role role → noGroups (role (fun s => {[g]} ∪ s) cs) = false.
Proof.
  intros [-> | [-> | ->]]; unfold noGroups; cbn;
    rewrite ?andb_false_iff, !bool_decide_eq_false; set_solver.
Qed.

Lemma addGroupTo_no_dead store role g pm u :
  is_role role → no_dead_contract store pm →
  no_dead_contract store (addGroupTo role g pm u).
Proof.
  intros Hrole Hpm c cs. unfold addGroupTo. cbn.
  destruct (decide (c = u)) as [-> | Hne].
  - rewrite lookup_insert_eq. intros [= <-]. right. by apply noGroups_added.
  - rewrite lookup_insert_ne by done. apply Hpm.
Qed.

Lemma removeGroupFrom_no_dead store role g pm u :
  no_dead_contract store pm →
  no_dead_contract store (removeGroupFrom store role g pm u).
Proof.
  intros Hpm c cs. unfold removeGroupFrom.
  match goal with
  | |- context [removeContractIfRequired store u ?pm1] =>
      destruct (removeContractIfRequired_spec store u pm1) as [Hiff Hm];
      destruct (removeContractIfRequired store u pm1) as [erased pm2]
  end.
  cbn [fst snd] in *. rewrite Hm. cbn.
  destruct erased.
  - destruct (decide (c = u)) as [-> | Hne].
    + by rewrite lookup_delete_eq.
    + rewrite lookup_delete_ne, lookup_insert_ne by done. apply Hpm.
  - destruct (decide (c = u)) as [-> | Hne].
    + intros Hcs.
      destruct (decide (contract_alive store u cs)) as [|Hdead]; [done |].
      assert (false = true) as [=]. apply Hiff. eauto.
    + rewrite lookup_insert_ne by done. apply Hpm.
Qed.

Lemma applyContractDiff_no_dead store g d pm :
  no_dead_contract store pm → no_dead_contract store (applyContractDiff store g d pm).
Proof.
  intros Hpm. unfold applyContractDiff.
  repeat (apply foldl_preserves;
          [first [ by intros; apply removeGroupFrom_no_dead
                 | intros; apply addGroupTo_no_dead; [unfold is_role; eauto | done] ] |]).
  done.
Qed.

Lemma updateGroupContracts_no_dead store groupType g acc :
  no_dead_contract store acc.1 →
  no_dead_contract store (updateGroupContracts store groupType g acc).1.
Proof.
  intros Hpm. unfold updateGroupContracts. cbn [fst].
  apply applyContractDiff_no_dead.
  by destruct (resolveGroupContracts store groupType g) as [[[? ?] ?]|].
Qed.

Lemma updateContracts_no_dead store pm :
  no_dead_contract store (updateContracts store pm).1.
Proof.
  intros k cs Hk. unfold updateContracts in Hk.
  destruct (decide (k ∈ (map_to_list (contractMap pm)).*1)) as [Hin|Hnotin].
  - by eapply updateContracts_loop_alive.
  - rewrite updateContracts_loop_other in Hk by done. destruct Hnotin.
    apply list_elem_of_fmap. exists (k, cs). split; [done |].
    by apply elem_of_map_to_list.
Qed.

Lemma no_dead_contract_ext store pm pm' :
  contractMap pm' = contractMap pm →
  no_dead_contract store pm → no_dead_contract store pm'.
Proof. unfold no_dead_contract. by intros ->. Qed.

Lemma updateL3Nets_net_no_dead store rd acc net :
  no_dead_contract store acc.1 →
  no_dead_contract store (updateL3Nets_net store rd acc net).1.
Proof.
  intros Hacc. unfold updateL3Nets_net.
  destruct (match l3n_natEPGroupRSrc net with Some _ => _ | None => _ end)
    as [natEpg' idx2].
  by apply updateGroupContracts_no_dead.
Qed.

Lemma updateL3Nets_removed_no_dead store newNets old : ∀ acc acc',
  no_dead_contract store acc.1 →
  updateL3Nets_removed store newNets old acc = Done acc' →
  no_dead_contract store acc'.1.
Proof.
  induction old as [|net old IH]; intros acc acc' Hacc; cbn.
  - by intros [= <-].
  - case_decide; [by apply IH |].
    destruct (l3n_map acc.1 !! net) as [l3s|]; cbn; [| done].
    apply IH. by apply updateGroupContracts_no_dead.
Qed.

(** [updateL3Nets] reaches [contractMap] through [updateGroupContracts]
    only. *)
Lemma updateL3Nets_no_dead store rdURI acc acc' :
  no_dead_contract store acc.1 →
  updateL3Nets store rdURI acc = Done acc' →
  no_dead_contract store acc'.1.
Proof.
  intros Hacc. unfold updateL3Nets.
  destruct (resolveRoutingDomain store rdURI) as [rd|].
  - match goal with
    | |- context [updateL3Nets_removed store ?nn ?old ?a] =>
        destruct (updateL3Nets_removed store nn old a) as [acc2| |] eqn:Hrem
    end; cbn; try done.
    intros [= <-]. cbn.
    eapply (updateL3Nets_removed_no_dead _ _ _ _ acc2) in Hrem; [done |].
    apply (foldl_preserves (fun a => no_dead_contract store a.1)); [| done].
    intros a net. apply updateL3Nets_net_no_dead.
  - intros [= <-]. cbn.
    apply (foldl_preserves (fun a => no_dead_contract store a.1)); [| done].
    intros a net Ha. by apply updateGroupContracts_no_dead.
Qed.

(** The garbage-collection scenario of the specification: [/c1] is not in
    the store.  While [/g1] provides it and [/g2] consumes it,
    [updateContracts] keeps the entry; once both groups are detached the
    entry is gone. *)
Lemma contract_gc_scenario :
  contractExists Gc.indexed "/c1" = true
  ∧ contractExists (updateContracts (Gc.attached []) Gc.indexed).1 "/c1" = true
  ∧ contractExists
      (updateGroupContracts (Gc.detached []) EpGroup_CLASS_ID "/g1"
         (Gc.indexed, ∅)).1 "/c1" = true
  ∧ contractExists
      (updateGroupContracts (Gc.detached []) EpGroup_CLASS_ID "/g2"
         (updateGroupContracts (Gc.detached []) EpGroup_CLASS_ID "/g1"
            (Gc.indexed, ∅))).1 "/c1" = false.
Proof. repeat split; vm_compute; reflexivity. Qed.

(** C4, as stated, fails in both directions.  An entry with no group and
    no backing object is still there after [updateGroupContracts] has run
    for a group that does not refer to it; and a contract that resolves has
    no entry as long as nothing has mentioned it. *)
Lemma contract_entries_not_exact :
  ¬ no_dead_contract (Gc.detached [])
      (updateGroupContracts (Gc.detached []) EpGroup_CLASS_ID "/g1"
         (Gc.heard, ∅)).1
  ∧ ¬ contract_entries_exact (Gc.detached [])
        (updateGroupContracts (Gc.detached []) EpGroup_CLASS_ID "/g1"
           (Gc.heard, ∅)).1
  ∧ ¬ contract_entries_exact (Gc.detached [("/c1", Gc.emptyContract)])
        (updateContracts (Gc.detached [("/c1", Gc.emptyContract)])
           initialManager).1.
Proof.
  assert (Hl : contractMap
                 (updateGroupContracts (Gc.detached []) EpGroup_CLASS_ID "/g1"
                    (Gc.heard, ∅)).1 !! "/c1" = Some emptyContractState)
    by (vm_compute; reflexivity).
  split; [| split].
  - intros Hdead. destruct (Hdead _ _ Hl) as [[? Hr]|Hg]; discriminate.
  - intros Hexact.
    destruct (proj1 (Hexact "/c1")) as [[? Hr]|(cs & Hcs & Hg)]; [by eexists | discriminate |].
    rewrite Hl in Hcs. by simplify_eq.
  - intros Hexact.
    destruct (proj2 (Hexact "/c1")) as [cs Hcs]; [left; by eexists |].
    discriminate Hcs.
Qed.

(** C4, amended.  After [updateContracts] every entry of [contractMap] has
    a backing contract that resolves or a non-empty set of provider,
    consumer or intra groups, and every entry that had one of the two
    before is still there with the same groups.  [updateGroupContracts]
    and [updateL3Nets] leave no entry without both if there was none
    before, and [removeContractIfRequired] erases an entry exactly when it
    has neither.  (Whether a contract that resolves has an entry is left
    open.) *)
Theorem contract_gc store pm :
  no_dead_contract store (updateContracts store pm).1
  ∧ (∀ c cs, contractMap pm !! c = Some cs → contract_alive store c cs →
             ∃ cs', contractMap (updateContracts store pm).1 !! c = Some cs'
                    ∧ same_groups cs cs')
  ∧ (∀ groupType g notify,
       no_dead_contract store pm →
       no_dead_contract store
         (updateGroupContracts store groupType g (pm, notify)).1)
  ∧ (∀ rdURI notify acc',
       no_dead_contract store pm →
       updateL3Nets store rdURI (pm, notify) = Done acc' →
       no_dead_contract store acc'.1)
  ∧ (∀ c, (removeContractIfRequired store c pm).1 = true
          ↔ ∃ cs, contractMap pm !! c = Some cs ∧ ¬ contract_alive store c cs).
Proof.
  split; [apply updateContracts_no_dead |].
  split.
  { intros c cs Hc Halive. unfold updateContracts.
    by apply (updateContracts_loop_keeps store _ (pm, ∅)). }
  split.
  { intros groupType g notify.
    apply (updateGroupContracts_no_dead store groupType g (pm, notify)). }
  split.
  { intros rdURI notify acc'.
    apply (updateL3Nets_no_dead store rdURI (pm, notify)). }
  intros c. apply removeContractIfRequired_spec.
Qed.

Lemma Gc_indexed_contractMap : contractMap Gc.indexed = {[ "/c1" := Gc.c1State ]}.
Proof. vm_compute. reflexivity. Qed.

(** C4, amended, at the scenario of the specification: with [/g1] and
    [/g2] indexed and [/c1] absent from the store, [updateContracts] keeps
    the entry of [/c1], and detaching [/g1] or updating a routing domain
    leaves no entry without group and without backing object. *)
Lemma contract_gc_witness :
  (∃ cs', contractMap (updateContracts (Gc.attached []) Gc.indexed).1 !! "/c1"
          = Some cs' ∧ same_groups Gc.c1State cs')
  ∧ no_dead_contract (Gc.detached [])
      (updateGroupContracts (Gc.detached []) EpGroup_CLASS_ID "/g1"
         (Gc.indexed, ∅)).1
  ∧ (∃ acc', updateL3Nets (Gc.detached []) "/rd1" (Gc.indexed, ∅) = Done acc'
             ∧ no_dead_contract (Gc.detached []) acc'.1).
Proof.
  assert (Hindexed : no_dead_contract (Gc.detached []) Gc.indexed).
  { intros c cs. rewrite Gc_indexed_contractMap.
    intros [<- <-]%lookup_singleton_Some. right. reflexivity. }
  destruct (contract_gc (Gc.attached []) Gc.indexed) as (_ & Hkeep & _).
  destruct (contract_gc (Gc.detached []) Gc.indexed)
    as (_ & _ & Hgc & Hl3 & _).
  split; [| split].
  - apply Hkeep; [reflexivity | right; reflexivity].
  - by apply Hgc.
  - eexists. split; [vm_compute; reflexivity |].
    eapply (Hl3 "/rd1" ∅); [done | vm_compute; reflexivity].
Defined.

(** ** Change detection *)

Lemma advance_le h n : (h ≤ advance h n)%positive.
Proof.
  unfold advance. induction n as [|n IH]; [cbn; lia |].
  change (Nat.iter (S n) Pos.succ h) with (Pos.succ (Nat.iter n Pos.succ h)). lia.
Qed.

(** A list of fresh allocations agrees pointer by pointer with a list of
    older ones only if both are empty. *)
Lemma samePointers_fresh {A} h (old new : list (shared_ptr A)) :
  Forall (fun r => (get r < h)%positive) old →
  Forall (fun r => (h ≤ get r)%positive) new →
  samePointers old new = true → old = [] ∧ new = [].
Proof.
  destruct old as [|x old], new as [|y new]; cbn; try done.
  intros [Hx _]%Forall_cons [Hy _]%Forall_cons.
  case_decide; [lia | done].
Qed.

Lemma emitClassifiers_fresh mk p c h0 cs : ∀ h,
  (h0 ≤ h)%positive →
  Forall (fun r => (h0 ≤ get r)%positive) (emitClassifiers mk p c h cs).
Proof.
  revert c. induction cs as [|cl cs IH]; intros c h Hh; cbn; constructor.
  - done.
  - apply IH. lia.
Qed.

Section Fresh.
Context {Parent Subject Rule : Type} `{!PolicyFamily Parent Subject Rule}.

Lemma compileRule_fresh store h0 acc (r : Rule) :
  allocated_from h0 acc.2 → allocated_from h0 (compileRule store acc r).2.
Proof.
  intros [Hall Hh]. unfold compileRule.
  destruct (getRuleDirection r) as [dir|]; [| done]. cbn. split.
  - apply Forall_app. split; [done |]. by apply emitClassifiers_fresh.
  - etrans; [exact Hh | apply advance_le].
Qed.

Lemma compileSubject_fresh store h0 cst (sub : Subject) :
  allocated_from h0 cst → allocated_from h0 (compileSubject store cst sub).
Proof.
  intros Hcst. unfold compileSubject, compileRules.
  apply (foldl_preserves (fun acc => allocated_from h0 acc.2)); [| done].
  intros acc r. apply compileRule_fresh.
Qed.

Lemma compileParent_fresh store h0 cst (parent : Parent) :
  allocated_from h0 cst → allocated_from h0 (compileParent store parent cst).
Proof.
  intros Hcst. unfold compileParent.
  apply (foldl_preserves (allocated_from h0)); [| done].
  intros acc sub. by apply compileSubject_fresh.
Qed.

(** [updatePolicyRules] reports a change for every parent that resolves,
    unless the old list and the new list are both empty: the outcome does
    not depend on what the rules are. *)
Lemma updatePolicyRules_reports_change store uri (parent : Parent)
    (oldRules : rule_list_t) olds news heap :
  resolveParent store uri = Some parent →
  Forall (fun r => (get r < heap)%positive) oldRules →
  res_updated (updatePolicyRules store uri oldRules olds news heap) = false →
  oldRules = []
  ∧ newRules (compileParent store parent (startCompile news heap)) = [].
Proof.
  intros Hparent Hold. unfold updatePolicyRules. rewrite Hparent. cbn.
  intros Hsame%negb_false_iff.
  apply (samePointers_fresh heap) in Hsame; [done | done |].
  apply (compileParent_fresh store heap (startCompile news heap) parent).
  split; [constructor | done].
Qed.
End Fresh.

Section RedirectFresh.
Variable from_string : string → option Z.
Variable CONST_SYMMETRIC : Z.

Lemma resolveRedirectDests_fresh store h0 dests : ∀ heap l heap',
  (h0 ≤ heap)%positive →
  resolveRedirectDests from_string store dests heap = Done (l, heap') →
  Forall (fun r => (h0 ≤ get r)%positive) l.
Proof.
  induction dests as [|d dests IH]; intros heap l heap' Hh; cbn.
  - by intros [= <- <-].
  - destruct (resolveRedirectDest from_string store d) as [[prd|] | |]; cbn;
      try done.
    + destruct (resolveRedirectDests from_string store dests (Pos.succ heap))
        as [[l' h'] | |] eqn:Hrest; cbn; try done.
      intros [= <- <-]. constructor; [done |].
      eapply (IH (Pos.succ heap)); [lia | done].
    + by apply IH.
Qed.

(** [updateRedirectDestGroup] notifies the contracts of a group that
    resolves whenever the group had a destination before, whatever the
    destinations are now. *)
Lemma updateRedirectDestGroup_reports_change store uri acc grp st pm' notify' :
  resolveRedirectDestGroup store uri = Some grp →
  redirGrpMap acc.1 !! uri = Some st →
  redirDstList st ≠ [] →
  Forall (fun r => (get r < heap_next acc.1)%positive) (redirDstList st) →
  updateRedirectDestGroup from_string CONST_SYMMETRIC store uri acc
    = Done (pm', notify') →
  ctrctSet st ⊆ notify'.
Proof.
  intros Hgrp Hst Hne Hold. unfold updateRedirectDestGroup.
  rewrite Hgrp. unfold index_or. rewrite Hst. cbn.
  destruct (resolveRedirectDests from_string store (rdg_redirectDest grp)
              (heap_next acc.1)) as [[l h'] | |] eqn:Hl; cbn; try done.
  destruct (samePointers (redirDstList st) l) eqn:Hsame.
  - apply (samePointers_fresh (heap_next acc.1)) in Hsame as [? _];
      [done | done |].
    by eapply resolveRedirectDests_fresh.
  - cbn. intros [= <- <-]. set_solver.
Qed.
End RedirectFresh.

(** ** The rule compiler: actions *)

Lemma actionStep_redirect_kept store a r :
  ruleRedirect a = true → ruleRedirect (actionStep store a r) = true.
Proof.
  intros Ha. unfold actionStep.
  destruct (rsrc_target r) as [[c u]|]; [| done].
  repeat case_decide; [| | done].
  - destruct (resolveAllowDenyAction store u); [| done]. by case_match.
  - by destruct (_ ≫= _).
Qed.

Lemma actionStep_redirect store a u :
  ruleRedirect (actionStep store a (ref RedirectAction_CLASS_ID u)) = true
  ∧ ruleAllow (actionStep store a (ref RedirectAction_CLASS_ID u)) = false.
Proof. unfold actionStep. cbn. by destruct (_ ≫= _). Qed.

(** A reference to a redirect action makes the rule a redirecting one,
    wherever it stands among the action references. *)
Lemma resolveActions_redirect store actRel grps u :
  ref RedirectAction_CLASS_ID u ∈ actRel →
  ruleRedirect (resolveActions store actRel grps) = true.
Proof.
  unfold resolveActions. generalize dependent actRel.
  intros actRel. generalize ({| ruleAllow := true; ruleRedirect := false;
                                minOrder := UINT32_MAX; destGrpUri := None;
                                actRedirGrps := grps |}).
  induction actRel as [|r actRel IH]; intros a Hin; [by apply elem_of_nil in Hin |].
  cbn. apply elem_of_cons in Hin as [<- | Hin]; [| by apply IH].
  apply (foldl_preserves (fun a => ruleRedirect a = true)).
  - intros a' r'. apply actionStep_redirect_kept.
  - apply actionStep_redirect.
Qed.

(** It also makes the rule a non-allowing one when it is the last action
    reference to be processed. *)
Lemma resolveActions_redirect_last store actRel grps u :
  ruleAllow (resolveActions store (actRel ++ [ref RedirectAction_CLASS_ID u]) grps)
  = false.
Proof. unfold resolveActions. rewrite foldl_snoc. apply actionStep_redirect. Qed.

Section Flags.
Context {Parent Subject Rule : Type} `{!PolicyFamily Parent Subject Rule}.

(** Every [PolicyRule] emitted for a rule carries the direction of the rule
    and the outcome of the loop over its actions. *)
Lemma emitRule_flags store (rule : Rule) dir p a heap x :
  x ∈ emitRule store rule dir p a heap →
  direction (deref x) = dir
  ∧ allow (deref x) = ruleAllow a
  ∧ redirect (deref x) = ruleRedirect a
  ∧ redirDstGrpURI (deref x) = destGrpUri a.
Proof.
  unfold emitRule.
  generalize (resolveClassifiers store (resolveRuleToClassifierRSrc rule)).
  generalize 0. revert heap.
  intros heap c cs. revert heap c.
  induction cs as [|cl cs IH]; intros heap c; cbn.
  - by intros ?%elem_of_nil.
  - intros [-> | Hin]%elem_of_cons; [done | by eapply IH].
Qed.

(** The priority of the classifier of index [k] of a rule compiled at
    counter [p]: [p - k], the subtrahend stopping at 127. *)
Lemma emitRule_priority store (rule : Rule) dir p a heap (k : nat) x :
  rulePrio_valid p →
  emitRule store rule dir p a heap !! k = Some x →
  prio (deref x) = p - Z.min (Z.of_nat k) 127.
Proof.
  intros Hp%rulePrio_valid_range Hk. unfold emitRule in Hk.
  eapply emitClassifiers_lookup in Hk; [| done | done | lia].
  by rewrite Hk.
Qed.
End Flags.

(** ** The compile scenario, for any store *)

Section TwoRules.
Variable store : MOStore.
Variables (c ua ub xu yu au du : URI) (X Y : L24Classifier).
Variables (dirIn dirOut : Z) (allowAct denyAct : AllowDenyAction).
Variable heap : positive.

Hypothesis HX : resolveL24Classifier store xu = Some X.
Hypothesis HY : resolveL24Classifier store yu = Some Y.
Hypothesis Hallow : resolveAllowDenyAction store au = Some allowAct.
Hypothesis Hallows : default 0 (ada_allow allowAct) ≠ 0.
Hypothesis Hdeny : resolveAllowDenyAction store du = Some denyAct.
Hypothesis Hdenies : default 0 (ada_allow denyAct) = 0.
Hypothesis Horder : default (UINT32_MAX - 1) (ada_order denyAct) < UINT32_MAX.

(** A contract whose only subject holds rule A (order 1, in, classifier X,
    an allow action) and rule B (order 2, out, classifier Y, a deny action
    of an order below the largest) is compiled to two rules: allow/in/X at
    priority 8192, then deny/out/Y at 8064. *)
Lemma two_rule_contract rs :
  rs = [Compiled.simpleRule ua 1 dirIn xu au;
        Compiled.simpleRule ub 2 dirOut yu du]
  ∨ rs = [Compiled.simpleRule ub 2 dirOut yu du;
          Compiled.simpleRule ua 1 dirIn xu au] →
  resolveContract store c = Some {| contract_subject := [ {| subj_rule := rs |} ] |} →
  updatePolicyRules (Parent := Contract) store c [] ∅ ∅ heap
  = {| res_updated := true; res_notFound := false;
       res_rules :=
         [ {| get := heap;
              deref := Compiled.policyRule dirIn 8192 X true false None |};
           {| get := Pos.succ heap;
              deref := Compiled.policyRule dirOut 8064 Y false false None |} ];
       res_oldRedirGrps := ∅; res_newRedirGrps := ∅;
       res_heap := Pos.succ (Pos.succ heap) |}.
Proof.
  intros Hrs Hc. unfold updatePolicyRules. cbn [resolveParent ContractFamily].
  rewrite Hc.
  assert (Hsort : stable_sort (fun r => orderKey (getRuleOrder r)) rs
                  = [Compiled.simpleRule ua 1 dirIn xu au;
                     Compiled.simpleRule ub 2 dirOut yu du])
    by (destruct Hrs as [-> | ->]; reflexivity).
  unfold compileParent, compileSubject, compileRules.
  cbn [resolveSubjects resolveRules ContractFamily contract_subject subj_rule foldl].
  rewrite Hsort. cbn [foldl]. unfold compileRule, emitRule, resolveClassifiers,
    resolveActions, Compiled.simpleRule.
  cbn [getRuleDirection resolveRuleToClassifierRSrc resolveRuleToActionRSrc
       resolveRemoteSubnets ContractFamily rule_direction rule_classifierRSrc
       rule_actionRSrc fst snd newRedirGrps compileHeap newRules omap
       list_omap classifierOf rsrc_target ref foldl actionStep minOrder].
  rewrite !decide_True by done. rewrite HX, HY, Hallow, Hdeny.
  cbn [minOrder].
  destruct (Z.ltb_spec (default (UINT32_MAX - 1) (ada_order denyAct)) UINT32_MAX);
    [| lia].
  assert (Hallowed : ruleAllow
            (if default (UINT32_MAX - 1) (ada_order allowAct) <? UINT32_MAX
             then {| ruleAllow := negb (default 0 (ada_allow allowAct) =? 0);
                     ruleRedirect := false;
                     minOrder := default (UINT32_MAX - 1) (ada_order allowAct);
                     destGrpUri := None; actRedirGrps := ∅ |}
             else {| ruleAllow := true; ruleRedirect := false;
                     minOrder := UINT32_MAX; destGrpUri := None;
                     actRedirGrps := ∅ |}) = true).
  { case_match; [| done]. cbn. by destruct (Z.eqb_spec (default 0 (ada_allow allowAct)) 0). }
  destruct (default (UINT32_MAX - 1) (ada_order allowAct) <? UINT32_MAX);
    cbn in Hallowed |- *; rewrite ?Hallowed, Hdenies; reflexivity.
Qed.
End TwoRules.

(** * Further properties *)

(** ** The rule compiler: range and shape of the output *)

Section CompiledOutput.
Context {Parent Subject Rule : Type} `{!PolicyFamily Parent Subject Rule}.

Lemma compileRule_range store acc (r : Rule) :
  rulePrio_valid acc.1 →
  Forall (fun q => 1 ≤ q ≤ 8192) (prios (newRules acc.2)) →
  rulePrio_valid (compileRule store acc r).1
  ∧ Forall (fun q => 1 ≤ q ≤ 8192) (prios (newRules (compileRule store acc r).2)).
Proof.
  intros Hv Hall.
  destruct (compileRule_prios store acc r Hv) as ((Hv' & _) & Hnew & _).
  split; [done |].
  rewrite (prefix_emitted acc.2 (compileRule store acc r).2)
    by apply compileRule_prefix.
  unfold prios in *. rewrite fmap_app. apply Forall_app. split; [done |].
  apply rulePrio_valid_range in Hv.
  eapply Forall_impl; [exact Hnew |]. cbn. intros; lia.
Qed.

Lemma compileSubject_range store cst (sub : Subject) :
  Forall (fun q => 1 ≤ q ≤ 8192) (prios (newRules cst)) →
  Forall (fun q => 1 ≤ q ≤ 8192) (prios (newRules (compileSubject store cst sub))).
Proof.
  intros Hall. unfold compileSubject, compileRules.
  apply (foldl_preserves
           (fun acc => rulePrio_valid acc.1
                       ∧ Forall (fun q => 1 ≤ q ≤ 8192) (prios (newRules acc.2)))).
  - intros acc r [? ?]. by apply compileRule_range.
  - split; [apply rulePrio_valid_start | done].
Qed.

(** X1.  Every [PolicyRule] a parent is compiled to has a priority between
    1 and 8192: the subtraction [rulePrio - clsPrio] never wraps around in
    [uint16_t], and no rule is given priority 0. *)
Theorem compiled_priorities_in_range store (parent : Parent) grps heap :
  Forall (fun x => 1 ≤ prio (deref x) ≤ 8192)
    (newRules (compileParent store parent (startCompile grps heap))).
Proof.
  assert (Hall : Forall (fun q => 1 ≤ q ≤ 8192)
                   (prios (newRules (compileParent store parent
                                       (startCompile grps heap))))).
  { unfold compileParent.
    apply (foldl_preserves
             (fun cst => Forall (fun q => 1 ≤ q ≤ 8192) (prios (newRules cst)))).
    - intros cst sub. apply compileSubject_range.
    - constructor. }
  unfold prios in Hall. by apply Forall_fmap in Hall.
Qed.

Lemma emitClassifiers_shape mk p c h cs dir :
  (∀ q cl, direction (mk q cl) = dir ∧ l24Classifier (mk q cl) = cl) →
  shapeOf (emitClassifiers mk p c h cs) = (fun cl => (dir, cl)) <$> cs.
Proof.
  intros Hmk. revert c h. induction cs as [|cl cs IH]; intros c h; cbn; [done |].
  destruct (Hmk (wrap16 (p - c)) cl) as [-> ->]. f_equal. apply IH.
Qed.

Lemma compileRule_shape store acc (r : Rule) :
  shapeOf (newRules (compileRule store acc r).2)
  = shapeOf (newRules acc.2)
    ++ match getRuleDirection r with
       | Some dir =>
           (fun c => (dir, c))
             <$> resolveClassifiers store (resolveRuleToClassifierRSrc r)
       | None => []
       end.
Proof.
  unfold compileRule. destruct (getRuleDirection r) as [dir|]; cbn.
  - unfold shapeOf at 1. rewrite fmap_app. f_equal.
    unfold emitRule. by apply emitClassifiers_shape.
  - by rewrite app_nil_r.
Qed.

Lemma compileRules_shape store rs : ∀ p cst,
  shapeOf (newRules (compileRules store p cst rs).2)
  = shapeOf (newRules cst)
    ++ (rule ← rs;
        match getRuleDirection rule with
        | Some dir =>
            (fun c => (dir, c))
              <$> resolveClassifiers store (resolveRuleToClassifierRSrc rule)
        | None => []
        end).
Proof.
  induction rs as [|r rs IH]; intros p cst.
  - cbn. by rewrite app_nil_r.
  - rewrite compileRules_cons, IH, compileRule_shape. cbn.
    by rewrite (assoc_L (++)).
Qed.

(** X2.  The compiled list has one [PolicyRule] for each classifier that
    resolves, of each rule that has a direction: subjects in model order,
    rules in the order of the stable sort, classifiers in the order of
    theirs; each carries the direction of its rule. *)
Theorem compiled_rules_shape store (parent : Parent) grps heap :
  shapeOf (newRules (compileParent store parent (startCompile grps heap)))
  = compiledShape store parent.
Proof.
  unfold compileParent, compiledShape.
  assert (Hgen : ∀ subs cst,
            shapeOf (newRules (foldl (compileSubject store) cst subs))
            = shapeOf (newRules cst)
              ++ (sub ← subs;
                  rule ← stable_sort (fun r => orderKey (getRuleOrder r))
                           (resolveRules sub);
                  match getRuleDirection rule with
                  | Some dir =>
                      (fun c => (dir, c))
                        <$> resolveClassifiers store
                              (resolveRuleToClassifierRSrc rule)
                  | None => []
                  end)).
  { induction subs as [|sub subs IH]; intros cst; cbn.
    - by rewrite app_nil_r.
    - rewrite IH. unfold compileSubject. rewrite compileRules_shape.
      by rewrite (assoc_L (++)). }
  by rewrite Hgen.
Qed.
End CompiledOutput.

(** ** [updateContracts]: what becomes of each contract *)

Lemma updateContracts_step_notify store acc c :
  acc.2 ⊆ (updateContracts_step store acc c).2.
Proof.
  unfold updateContracts_step.
  destruct (updateContractRules store c acc.1) as [[updated notFound] pm1].
  destruct updated, notFound; try destruct (noGroups _); cbn; set_solver.
Qed.

Lemma updateContracts_loop_notify store keys : ∀ acc,
  acc.2 ⊆ (updateContracts_loop store keys acc).2.
Proof.
  induction keys as [|k keys IH]; intros acc; [done |].
  rewrite updateContracts_loop_cons. etrans; [| apply IH].
  apply updateContracts_step_notify.
Qed.

(** One round of the loop, for a contract that does not resolve. *)
Lemma updateContracts_step_notFound store acc c :
  resolveContract store c = None →
  c ∈ (updateContracts_step store acc c).2
  ∧ match contractMap (updateContracts_step store acc c).1 !! c with
    | Some cs => rules cs = []
    | None => True
    end.
Proof.
  intros Hc. unfold updateContracts_step.
  destruct (updateContractRules_spec store c acc.1) as [Hnf _].
  destruct (updateContractRules store c acc.1) as [[updated notFound] pm1].
  cbn [fst snd] in *. rewrite Hc, bool_decide_eq_true_2 in Hnf by done.
  subst notFound. destruct (noGroups _); cbn.
  - split; [set_solver |]. by rewrite lookup_delete_eq.
  - split; [set_solver |]. by rewrite lookup_insert_eq.
Qed.

(** An entry that comes out of a round has the groups the entry had when
    going in (those of a fresh entry if there was none). *)
Lemma updateContracts_step_groups store acc c k cs' :
  contractMap (updateContracts_step store acc c).1 !! k = Some cs' →
  same_groups (index_or emptyContractState k (contractMap acc.1)) cs'.
Proof.
  destruct (decide (k = c)) as [-> | Hne].
  - unfold updateContracts_step.
    destruct (updateContractRules_spec store c acc.1) as [_ [rs Hm]].
    destruct (updateContractRules store c acc.1) as [[updated notFound] pm1].
    cbn [fst snd] in *.
    destruct notFound; [destruct (noGroups _) |]; cbn.
    + by rewrite lookup_delete_eq.
    + rewrite lookup_insert_eq. unfold index_or at 1.
      rewrite Hm, lookup_insert_eq. cbn. by intros [= <-].
    + rewrite Hm, lookup_insert_eq. by intros [= <-].
  - rewrite updateContracts_step_other by done. unfold index_or.
    by intros ->.
Qed.

Lemma updateContracts_loop_groups store keys : ∀ acc k cs',
  contractMap (updateContracts_loop store keys acc).1 !! k = Some cs' →
  same_groups (index_or emptyContractState k (contractMap acc.1)) cs'.
Proof.
  induction keys as [|c keys IH]; intros acc k cs' Hk.
  - unfold index_or. cbn in Hk. by rewrite Hk.
  - rewrite updateContracts_loop_cons in Hk.
    pose proof (IH _ _ _ Hk) as Hsame. unfold index_or in Hsame at 1.
    destruct (contractMap (updateContracts_step store acc c).1 !! k)
      as [cs1|] eqn:H1; cbn in Hsame.
    + apply updateContracts_step_groups in H1.
      destruct H1 as (? & ? & ?), Hsame as (? & ? & ?).
      repeat split; congruence.
    + destruct (decide (k = c)) as [-> | Hne].
      * unfold updateContracts_step in H1.
        destruct (updateContractRules_spec store c acc.1) as [_ [rs Hm]].
        destruct (updateContractRules store c acc.1) as [[updated notFound] pm1].
        cbn [fst snd] in *.
        destruct notFound; [destruct (noGroups _) eqn:Hg |]; cbn in H1.
        -- unfold index_or in Hg. rewrite Hm, lookup_insert_eq in Hg. cbn in Hg.
           rewrite noGroups_set_rules in Hg.
           unfold noGroups in Hg.
           apply andb_true_iff in Hg as [[Hp Hc]%andb_true_iff Hi].
           apply bool_decide_eq_true in Hp, Hc, Hi.
           destruct Hsame as (? & ? & ?). repeat split; cbn in *; congruence.
        -- by rewrite lookup_insert_eq in H1.
        -- by rewrite Hm, lookup_insert_eq in H1.
      * rewrite updateContracts_step_other in H1 by done.
        unfold index_or. by rewrite H1.
Qed.

Lemma updateContracts_loop_notFound store keys : ∀ acc c,
  resolveContract store c = None → c ∈ keys →
  c ∈ (updateContracts_loop store keys acc).2
  ∧ match contractMap (updateContracts_loop store keys acc).1 !! c with
    | Some cs => rules cs = []
    | None => True
    end.
Proof.
  induction keys as [|k keys IH]; intros acc c Hc Hin;
    [by apply elem_of_nil in Hin |].
  rewrite updateContracts_loop_cons.
  destruct (decide (c ∈ keys)) as [Hrest | Hrest]; [by apply IH |].
  apply elem_of_cons in Hin as [<- | ?]; [| done].
  destruct (updateContracts_step_notFound store acc c Hc) as [Hn Hr].
  split.
  - by apply updateContracts_loop_notify.
  - by rewrite updateContracts_loop_other.
Qed.

(** X3.  A contract that [contractMap] knows and that does not resolve is
    put in [contractsToNotify] by [updateContracts]; afterwards it has no
    rules, and it keeps its entry exactly when a group provides, consumes
    or uses it. *)
Theorem updateContracts_unresolved store pm c cs :
  contractMap pm !! c = Some cs →
  resolveContract store c = None →
  c ∈ (updateContracts store pm).2
  ∧ getContractRules (updateContracts store pm).1 c = []
  ∧ (contractExists (updateContracts store pm).1 c = true ↔ noGroups cs = false).
Proof.
  intros Hcs Hc. unfold updateContracts.
  assert (Hin : c ∈ (map_to_list (contractMap pm)).*1).
  { apply list_elem_of_fmap. exists (c, cs). split; [done |].
    by apply elem_of_map_to_list. }
  destruct (updateContracts_loop_notFound store _ (pm, ∅) c Hc Hin) as [Hn Hr].
  split; [done |]. split.
  - unfold getContractRules. revert Hr. by case_match.
  - unfold contractExists. rewrite bool_decide_eq_true. split.
    + intros [cs' Hcs'].
      pose proof (updateContracts_loop_groups _ _ _ _ _ Hcs') as Hsame.
      unfold index_or in Hsame. cbn in Hsame. rewrite Hcs in Hsame. cbn in Hsame.
      eapply updateContracts_loop_alive in Hcs'; [| done].
      destruct Hcs' as [[? Hr']|Hg]; [congruence |].
      destruct Hsame as (Hp & Hc' & Hi). unfold noGroups in *.
      by rewrite Hp, Hc', Hi.
    + intros Hg.
      destruct (updateContracts_loop_keeps store (map_to_list (contractMap pm)).*1
                  (pm, ∅) c cs Hcs) as (cs' & -> & _); [by right | by eexists].
Qed.

(** X3 at the manager that has only heard of [/c1], with an empty store:
    [/c1] is notified and its entry is gone. *)
Lemma updateContracts_unresolved_witness :
  "/c1" ∈ (updateContracts emptyStore Gc.heard).2
  ∧ getContractRules (updateContracts emptyStore Gc.heard).1 "/c1" = []
  ∧ contractExists (updateContracts emptyStore Gc.heard).1 "/c1" = false.
Proof.
  destruct (updateContracts_unresolved emptyStore Gc.heard "/c1"
              emptyContractState eq_refl eq_refl) as (Hn & Hr & Hex).
  split; [exact Hn |]. split; [exact Hr |].
  destruct (contractExists (updateContracts emptyStore Gc.heard).1 "/c1") eqn:E;
    [| reflexivity].
  pose proof (proj1 Hex eq_refl) as Hg. vm_compute in Hg. discriminate Hg.
Defined.

(** ** [updateContracts]: the rules of a contract that resolves *)

Lemma advance_succ h n : advance (Pos.succ h) n = Pos.succ (advance h n).
Proof.
  unfold advance. induction n as [|n IH]; [done |].
  change (Nat.iter (S n) Pos.succ (Pos.succ h))
    with (Pos.succ (Nat.iter n Pos.succ (Pos.succ h))).
  by rewrite IH.
Qed.

Lemma emitClassifiers_below mk p cs : ∀ c h,
  Forall (fun r => (get r < advance h (length cs))%positive)
    (emitClassifiers mk p c h cs).
Proof.
  induction cs as [|cl cs IH]; intros c h; [constructor |].
  change (emitClassifiers mk p c h (cl :: cs))
    with ({| get := h; deref := mk (wrap16 (p - c)) cl |}
            :: emitClassifiers mk p (nextClsPrio c) (Pos.succ h) cs).
  change (advance h (length (cl :: cs)))
    with (Pos.succ (advance h (length cs))).
  constructor.
  - change (h < Pos.succ (advance h (length cs)))%positive.
    pose proof (advance_le h (length cs)). lia.
  - rewrite <- advance_succ. apply IH.
Qed.

Lemma emitClassifiers_values mk p cs h h' : ∀ c,
  values (emitClassifiers mk p c h cs) = values (emitClassifiers mk p c h' cs).
Proof.
  revert h h'. induction cs as [|cl cs IH]; intros h h' c; cbn; [done |].
  f_equal. apply IH.
Qed.

Section CompiledValues.
Context {Parent Subject Rule : Type} `{!PolicyFamily Parent Subject Rule}.

Lemma compileRule_same_output store acc1 acc2 (r : Rule) :
  acc1.1 = acc2.1 → same_output acc1.2 acc2.2 →
  (compileRule store acc1 r).1 = (compileRule store acc2 r).1
  ∧ same_output (compileRule store acc1 r).2 (compileRule store acc2 r).2.
Proof.
  intros Hp [Hv Hg]. unfold compileRule.
  destruct (getRuleDirection r) as [dir|]; [| done]. cbn.
  rewrite Hp, Hg. split; [done |]. split; [| done]. cbn.
  unfold values in *. rewrite !fmap_app, Hv. f_equal.
  apply emitClassifiers_values.
Qed.

Lemma compileSubject_same_output store cst1 cst2 (sub : Subject) :
  same_output cst1 cst2 →
  same_output (compileSubject store cst1 sub) (compileSubject store cst2 sub).
Proof.
  intros Hsame. unfold compileSubject, compileRules.
  generalize (stable_sort (fun r => orderKey (getRuleOrder r)) (resolveRules sub)).
  generalize MAX_POLICY_RULE_PRIORITY. intros p rs. revert p cst1 cst2 Hsame.
  induction rs as [|r rs IH]; intros p cst1 cst2 Hsame; [done |]. cbn.
  destruct (compileRule_same_output store (p, cst1) (p, cst2) r eq_refl Hsame)
    as [Hp Hs].
  destruct (compileRule store (p, cst1) r) as [p1 c1],
           (compileRule store (p, cst2) r) as [p2 c2]. cbn in Hp, Hs. subst p2.
  by apply IH.
Qed.

Lemma compileParent_same_output store (parent : Parent) cst1 cst2 :
  same_output cst1 cst2 →
  same_output (compileParent store parent cst1) (compileParent store parent cst2).
Proof.
  unfold compileParent. revert cst1 cst2.
  induction (resolveSubjects parent) as [|sub subs IH]; intros cst1 cst2 Hsame;
    [done |].
  cbn. apply IH. by apply compileSubject_same_output.
Qed.

Lemma compileRule_below store acc (r : Rule) :
  allocated_below acc.2 → allocated_below (compileRule store acc r).2.
Proof.
  unfold allocated_below, compileRule. intros Hall.
  destruct (getRuleDirection r) as [dir|]; [| done]. cbn.
  apply Forall_app. split.
  - eapply Forall_impl; [exact Hall |]. cbn. intros x Hx.
    match goal with |- (_ < advance ?h ?n)%positive =>
      pose proof (advance_le h n) end. lia.
  - unfold emitRule.
    match goal with |- context [emitClassifiers ?mk ?p ?c ?h ?cs] =>
      pose proof (emitClassifiers_below mk p cs c h) as Hb;
      rewrite <- (emitClassifiers_length mk p c h cs) in Hb end.
    exact Hb.
Qed.

Lemma compileParent_below store (parent : Parent) cst :
  allocated_below cst → allocated_below (compileParent store parent cst).
Proof.
  intros Hcst. unfold compileParent.
  apply (foldl_preserves allocated_below); [| done].
  intros c sub Hc. unfold compileSubject, compileRules.
  apply (foldl_preserves (fun acc => allocated_below acc.2)); [| done].
  intros acc r. apply compileRule_below.
Qed.
End CompiledValues.

Lemma compiledValues_any_heap store (contract : Contract) heap :
  values (newRules (compileParent store contract (startCompile ∅ heap)))
  = compiledValues store contract.
Proof. by apply compileParent_same_output. Qed.

(** What [updateContractRules] does to [contractMap] and to the allocator,
    in terms of the result of [updatePolicyRules]. *)
Lemma updateContractRules_result store c pm :
  let cs := index_or emptyContractState c (contractMap pm) in
  let r := updatePolicyRules (Parent := Contract) store c (rules cs) ∅ ∅
             (heap_next pm) in
  contractMap (updateContractRules store c pm).2
    = <[c := set_rules (res_rules r) cs]> (contractMap pm)
  ∧ heap_next (updateContractRules store c pm).2 = res_heap r
  ∧ (updateContractRules store c pm).1.2 = res_notFound r.
Proof. done. Qed.

(** The result of [updatePolicyRules] for a contract of a manager whose
    rules were all allocated before [heap]. *)
Lemma updatePolicyRules_allocated store c (old : rule_list_t) heap :
  Forall (fun r => (get r < heap)%positive) old →
  let r := updatePolicyRules (Parent := Contract) store c old ∅ ∅ heap in
  (heap ≤ res_heap r)%positive
  ∧ Forall (fun x => (get x < res_heap r)%positive) (res_rules r)
  ∧ match resolveContract store c with
    | Some contract =>
        res_notFound r = false
        ∧ values (res_rules r) = compiledValues store contract
    | None => res_notFound r = true ∧ res_rules r = old
    end.
Proof.
  intros Hold. unfold updatePolicyRules. cbn [resolveParent ContractFamily].
  destruct (resolveContract store c) as [contract|]; [| by repeat split].
  cbv zeta. cbn [res_heap res_rules res_notFound].
  destruct (compileParent_fresh store heap (startCompile ∅ heap) contract)
    as [Hfresh Hheap]; [by split; [constructor |] |].
  assert (Hbelow : allocated_below
                     (compileParent store contract (startCompile ∅ heap)))
    by (apply compileParent_below; constructor).
  split; [done |].
  destruct (samePointers old _) eqn:Hsame; cbn [negb].
  - apply (samePointers_fresh heap) in Hsame as [-> Hnew]; [| done..].
    split; [constructor |]. split; [done |].
    rewrite <- (compiledValues_any_heap store contract heap).
    unfold startCompile. by rewrite Hnew.
  - split; [exact Hbelow |]. split; [done |].
    apply compiledValues_any_heap.
Qed.

(** One round of the loop keeps the rules allocated, and leaves a contract
    that resolves with its compiled rules. *)
Lemma updateContracts_step_rules store acc c :
  rules_allocated acc.1 →
  rules_allocated (updateContracts_step store acc c).1
  ∧ ∀ contract, resolveContract store c = Some contract →
      values (getContractRules (updateContracts_step store acc c).1 c)
      = compiledValues store contract.
Proof.
  intros Hall. unfold updateContracts_step.
  destruct (updateContractRules_result store c acc.1) as (Hm & Hh & Hnf).
  set (cs := index_or emptyContractState c (contractMap acc.1)) in *.
  assert (Hold : Forall (fun r => (get r < heap_next acc.1)%positive) (rules cs)).
  { unfold cs, index_or. destruct (contractMap acc.1 !! c) as [cs0|] eqn:Hc; cbn.
    - by eapply Hall.
    - constructor. }
  pose proof (updatePolicyRules_allocated store c (rules cs) (heap_next acc.1) Hold)
    as (Hle & Hnew & Hres).
  set (r := updatePolicyRules store c (rules cs) ∅ ∅ (heap_next acc.1)) in *.
  destruct (updateContractRules store c acc.1) as [[updated notFound] pm1].
  cbn [fst snd] in *. subst notFound.
  assert (Hothers : ∀ k cs', k ≠ c → contractMap acc.1 !! k = Some cs' →
            Forall (fun x => (get x < heap_next pm1)%positive) (rules cs')).
  { intros k cs' _ Hk. rewrite Hh.
    eapply Forall_impl; [by eapply Hall |]. cbn. intros; lia. }
  destruct (resolveContract store c) as [contract|].
  - destruct Hres as [-> Hvalues]. cbn. split.
    + unfold rules_allocated. intros k cs'. rewrite Hm. destruct (decide (k = c)) as [-> | Hne].
      * rewrite lookup_insert_eq. intros [= <-]. cbn. by rewrite Hh.
      * rewrite lookup_insert_ne by done. by apply Hothers.
    + intros ? [= <-]. unfold getContractRules.
      by rewrite Hm, lookup_insert_eq.
  - destruct Hres as [-> Hrules]. split; [| done].
    unfold rules_allocated. destruct (noGroups _); cbn; intros k cs'.
    + destruct (decide (k = c)) as [-> | Hne].
      * by rewrite lookup_delete_eq.
      * rewrite lookup_delete_ne, Hm, lookup_insert_ne by done. by apply Hothers.
    + destruct (decide (k = c)) as [-> | Hne].
      * rewrite lookup_insert_eq. intros [= <-]. constructor.
      * rewrite lookup_insert_ne, Hm, lookup_insert_ne by done. by apply Hothers.
Qed.

Lemma updateContracts_loop_rules store keys : ∀ acc,
  rules_allocated acc.1 →
  rules_allocated (updateContracts_loop store keys acc).1
  ∧ ∀ c contract, c ∈ keys → resolveContract store c = Some contract →
      values (getContractRules (updateContracts_loop store keys acc).1 c)
      = compiledValues store contract.
Proof.
  induction keys as [|k keys IH]; intros acc Hall.
  - split; [done |]. by intros c contract ?%elem_of_nil.
  - rewrite updateContracts_loop_cons.
    destruct (updateContracts_step_rules store acc k Hall) as [Hall1 Hstep].
    destruct (IH _ Hall1) as [Hall2 Hrest]. split; [done |].
    intros c contract Hin Hc.
    destruct (decide (c ∈ keys)) as [Hr | Hr]; [by apply Hrest |].
    apply elem_of_cons in Hin as [-> | ?]; [| done].
    unfold getContractRules. rewrite updateContracts_loop_other by done.
    by apply Hstep.
Qed.

(** X4.  In a manager whose rules were all allocated before [heap_next],
    [updateContracts] leaves every contract that [contractMap] knows and
    that resolves with the rules its current definition compiles to,
    whatever rules it had before; and the rules are again all allocated
    before [heap_next]. *)
Theorem updateContracts_compiles store pm :
  rules_allocated pm →
  rules_allocated (updateContracts store pm).1
  ∧ ∀ c contract,
      is_Some (contractMap pm !! c) →
      resolveContract store c = Some contract →
      values (getContractRules (updateContracts store pm).1 c)
      = compiledValues store contract.
Proof.
  intros Hall. unfold updateContracts.
  destruct (updateContracts_loop_rules store (map_to_list (contractMap pm)).*1
              (pm, ∅) Hall) as [Hall' Hrules].
  split; [done |]. intros c contract [cs Hcs] Hc. apply Hrules; [| done].
  apply list_elem_of_fmap. exists (c, cs). split; [done |].
  by apply elem_of_map_to_list.
Qed.

(** X4 at contract [/c1] of the compile scenario: after a second
    [updateContracts] its rules are again what [/c1] compiles to. *)
Lemma updateContracts_compiles_witness :
  values (getContractRules
            (updateContracts (Compiled.store None [("/c1", Compiled.c1)])
               (updateContracts (Compiled.store None [("/c1", Compiled.c1)])
                  Gc.heard).1).1 "/c1")
  = compiledValues (Compiled.store None [("/c1", Compiled.c1)]) Compiled.c1.
Proof.
  assert (H0 : rules_allocated Gc.heard).
  { intros c cs Hc.
    assert (Hm : contractMap Gc.heard = {[ "/c1" := emptyContractState ]})
      by (vm_compute; reflexivity).
    rewrite Hm in Hc. apply lookup_singleton_Some in Hc as [_ <-].
    constructor. }
  destruct (updateContracts_compiles
              (Compiled.store None [("/c1", Compiled.c1)]) Gc.heard H0)
    as [H1 _].
  destruct (updateContracts_compiles
              (Compiled.store None [("/c1", Compiled.c1)]) _ H1) as [_ H2].
  apply H2; [vm_compute; by eexists | reflexivity].
Defined.

(** ** The domain resolver: groups and their vnids *)

Lemma insert_if_absent_lookup k v m k' :
  insert_if_absent k v m !! k'
  = if decide (k' = k) then Some (default v (m !! k)) else m !! k'.
Proof.
  unfold insert_if_absent. destruct (m !! k) as [x|] eqn:Hk; case_decide;
    subst; cbn; try done.
  - by rewrite lookup_insert_eq.
  - by rewrite lookup_insert_ne.
Qed.

(** What [updateEPGDomains] leaves in [group_map] and in [vnid_map]. *)
Lemma updateEPGDomains_maps store fuel g pm updated toRemove pm' :
  updateEPGDomains store fuel g pm = Done (updated, toRemove, pm') →
  (∀ g', g' ≠ g → group_map pm' !! g' = group_map pm !! g')
  ∧ match resolveEpGroup store g with
    | Some epg =>
        toRemove = false
        ∧ (∃ gs, group_map pm' !! g = Some gs
                 ∧ epGroup gs = Some epg
                 ∧ instContext gs = epg_instContext epg)
        ∧ vnid_map pm'
          = (let gs := index_or emptyGroupState g (group_map pm) in
             let vm1 := match instContext gs ≫= getEncapId with
                        | Some oldId => delete oldId (vnid_map pm)
                        | None => vnid_map pm
                        end in
             match epg_instContext epg ≫= getEncapId with
             | Some newId => insert_if_absent newId g vm1
             | None => vm1
             end)
    | None =>
        toRemove = true ∧ updated = true
        ∧ is_Some (group_map pm' !! g) ∧ vnid_map pm' = vnid_map pm
    end.
Proof.
  unfold updateEPGDomains.
  destruct (resolveEpGroup store g) as [epg|].
  - destruct (walkDomains _ _ _ _ _) as [w| |]; cbn; try done.
    intros [= <- <- <-]. cbn. split.
    + intros g' Hne. unfold ensure. by rewrite !lookup_insert_ne.
    + split; [done |]. split; [| done].
      eexists. rewrite lookup_insert_eq. split; [done |]. by split.
  - intros [= <- <- <-]. cbn. unfold ensure. split.
    + intros g' Hne. by rewrite lookup_insert_ne.
    + rewrite lookup_insert_eq. repeat split; by eauto.
Qed.

(** X5.  [updateEPGDomains] keeps the vnid index in step with the groups
    when the group resolves and no other group state has the encap id the
    group has now. *)
Theorem updateEPGDomains_keeps_vnid_index store fuel g pm epg updated toRemove pm' :
  vnid_index_consistent pm →
  resolveEpGroup store g = Some epg →
  (∀ v g' gs', epg_instContext epg ≫= getEncapId = Some v →
               group_map pm !! g' = Some gs' →
               instContext gs' ≫= getEncapId = Some v → g' = g) →
  updateEPGDomains store fuel g pm = Done (updated, toRemove, pm') →
  vnid_index_consistent pm'.
Proof.
  intros [Hfwd Hbwd] Hepg Hfree Hrun.
  apply updateEPGDomains_maps in Hrun as [Hother Hg]. rewrite Hepg in Hg.
  destruct Hg as (_ & (gs' & Hgs' & _ & Hctx) & Hvm). cbn zeta in Hvm.
  set (gs := index_or emptyGroupState g (group_map pm)) in *.
  set (oldE := instContext gs ≫= getEncapId) in *.
  set (newE := epg_instContext epg ≫= getEncapId) in *.
  (* the old id of [g], when there is one, is filed under [g] *)
  assert (Hold : ∀ v, oldE = Some v → vnid_map pm !! v = Some g).
  { intros v Hv. unfold oldE, gs, index_or in Hv.
    destruct (group_map pm !! g) as [gs0|] eqn:Hg0; [| done].
    by eapply Hfwd. }
  (* an entry of the old index that leads to [g] is under the old id *)
  assert (Hown : ∀ v, vnid_map pm !! v = Some g → oldE = Some v).
  { intros v Hv. destruct (Hbwd _ _ Hv) as (gs0 & Hg0 & He).
    unfold oldE, gs, index_or. by rewrite Hg0. }
  (* the index with the old id erased *)
  set (vm1 := match oldE with
              | Some oldId => delete oldId (vnid_map pm)
              | None => vnid_map pm
              end) in *.
  assert (Hvm1 : ∀ v, vm1 !! v = if decide (oldE = Some v) then None
                                  else vnid_map pm !! v).
  { intros v. unfold vm1. destruct oldE as [o|]; case_decide; simplify_eq.
    - by rewrite lookup_delete_eq.
    - rewrite lookup_delete_ne; [done | congruence].
    - done. }
  (* the new id is free in it *)
  assert (Hnew : ∀ v, newE = Some v → vm1 !! v = None).
  { intros v Hv. rewrite Hvm1. case_decide; [done |].
    destruct (vnid_map pm !! v) as [x|] eqn:Hx; [| done].
    destruct (Hbwd _ _ Hx) as (gsx & Hgx & Hex).
    assert (x = g) as -> by (by eapply Hfree).
    apply Hown in Hx. congruence. }
  assert (Hvm' : ∀ v, vnid_map pm' !! v
                      = if decide (newE = Some v) then Some g else vm1 !! v).
  { intros v. rewrite Hvm. destruct newE as [n|] eqn:Hn.
    - rewrite insert_if_absent_lookup. rewrite (Hnew n eq_refl). cbn.
      repeat case_decide; simplify_eq; done.
    - by rewrite decide_False. }
  split.
  - intros g0 gs0 v Hg0 Hv. rewrite Hvm'.
    destruct (decide (g0 = g)) as [-> | Hne].
    + rewrite Hgs' in Hg0. simplify_eq. rewrite Hctx in Hv.
      by rewrite decide_True.
    + rewrite Hother in Hg0 by done.
      rewrite decide_False; [| intros Hn; by eapply Hne, Hfree].
      rewrite Hvm1, decide_False; [by eapply Hfwd |].
      intros Ho%Hold. erewrite Hfwd in Ho by done. congruence.
  - intros v x. rewrite Hvm'. case_decide as Hn.
    + intros [= <-]. exists gs'. split; [done |]. by rewrite Hctx.
    + rewrite Hvm1. case_decide as Ho; [done |]. intros Hx.
      destruct (Hbwd _ _ Hx) as (gsx & Hgx & Hex).
      assert (x ≠ g) by (intros ->; by apply Ho, Hown).
      exists gsx. by rewrite Hother.
Qed.

(** X5 at the manager that holds [/g1] under vnid 100: resolving [/g2]
    with encap id 200 keeps the index consistent. *)
Lemma updateEPGDomains_keeps_vnid_index_witness :
  ∃ updated toRemove pm',
    updateEPGDomains (Swap.store 100 200) 4 "/g2" Vnid.resolved
      = Done (updated, toRemove, pm')
    ∧ vnid_index_consistent pm'.
Proof.
  destruct (updateEPGDomains (Swap.store 100 200) 4 "/g2" Vnid.resolved)
    as [[[updated toRemove] pm']| |] eqn:Hrun;
    [| vm_compute in Hrun; discriminate Hrun..].
  exists updated, toRemove, pm'. split; [reflexivity |].
  apply (updateEPGDomains_keeps_vnid_index (Swap.store 100 200) 4 "/g2"
           Vnid.resolved (Swap.group "/g2" 200) updated toRemove pm').
  - apply Vnid_resolved_consistent.
  - reflexivity.
  - intros v g' gs' [= <-] Hg' Hv. cbn in Hg'.
    apply lookup_singleton_Some in Hg' as [<- <-]. discriminate Hv.
  - exact Hrun.
Defined.

(** The loop of [updateDomain]: a group that is not visited keeps its
    entry; a visited one ends with the state of its object, or without an
    entry and among the notified groups when the object is gone. *)
Lemma updateDomain_groups_spec store fuel keys :
  ∀ pm notify pm' notify',
    updateDomain_groups store fuel keys pm notify = Done (pm', notify') →
    notify ⊆ notify'
    ∧ ∀ g,
        (g ∉ keys → group_map pm' !! g = group_map pm !! g)
        ∧ (g ∈ keys →
           match resolveEpGroup store g with
           | Some epg =>
               ∃ gs, group_map pm' !! g = Some gs
                     ∧ epGroup gs = Some epg
                     ∧ instContext gs = epg_instContext epg
           | None => group_map pm' !! g = None ∧ g ∈ notify'
           end).
Proof.
  induction keys as [| k keys IH]; intros pm notify pm' notify' Hrun.
  - injection Hrun as <- <-. split; [done |]. intros g. split; [done |].
    by intros ?%elem_of_nil.
  - cbn [updateDomain_groups] in Hrun.
    destruct (updateEPGDomains store fuel k pm) as [[[u rm] pm1]| |] eqn:Hk;
      cbn in Hrun; try done.
    apply updateEPGDomains_maps in Hk as [Hother Hat].
    apply IH in Hrun as [Hsub Hrest].
    assert (Hk2 : ∀ g, g ≠ k →
              group_map (if rm then set_group_map (delete k) pm1 else pm1) !! g
              = group_map pm !! g).
    { intros g Hne. rewrite <- Hother by done.
      destruct rm; [| done]. cbn. by rewrite lookup_delete_ne. }
    split; [destruct u; [etrans; [apply union_subseteq_r | done] | done] |].
    intros g. destruct (Hrest g) as [Hout Hin]. split.
    + intros Hg. apply not_elem_of_cons in Hg as [Hne Hg].
      rewrite Hout by done. by apply Hk2.
    + intros Hg. destruct (decide (g ∈ keys)) as [| Hnot]; [by apply Hin |].
      apply elem_of_cons in Hg as [-> | Hg]; [| done].
      rewrite (Hout Hnot). destruct (resolveEpGroup store k) as [epg|].
      * by destruct Hat as (-> & Hgs & _).
      * destruct Hat as (-> & -> & _ & _). cbn. rewrite lookup_delete_eq.
        split; [done |]. apply Hsub, elem_of_union_l. by apply elem_of_singleton.
Qed.

(** X6.  After [updateDomain] the group map holds exactly the groups it
    knew (with [uri] when the class is [EpGroup]) whose object resolves,
    each with that object and its instance context; the known groups that
    do not resolve are handed to the listeners. *)
Theorem updateDomain_groups_follow_store store fuel class_id uri pm pm' n :
  updateDomain store fuel class_id uri pm = Done (pm', n) →
  let known g :=
    is_Some (group_map pm !! g) ∨ (class_id = EpGroup_CLASS_ID ∧ g = uri) in
  (∀ g, is_Some (group_map pm' !! g)
        ↔ known g ∧ is_Some (resolveEpGroup store g))
  ∧ (∀ g gs, group_map pm' !! g = Some gs →
             epGroup gs = resolveEpGroup store g
             ∧ instContext gs = resolveEpGroup store g ≫= epg_instContext)
  ∧ (∀ g, known g → resolveEpGroup store g = None → g ∈ notifyGroups n).
Proof.
  intros Hrun known. unfold updateDomain in Hrun.
  set (pm0 := if decide (class_id = EpGroup_CLASS_ID)
              then set_group_map (ensure emptyGroupState uri) pm else pm) in *.
  destruct (updateDomain_groups store fuel _ pm0 ∅) as [[pm1 groups]| |] eqn:Hloop;
    cbn in Hrun; try done.
  destruct (updateDomain_rds pm1 (elements groups) ∅) as [rds| |];
    cbn in Hrun; try done.
  injection Hrun as <- <-. cbn [notifyGroups].
  apply updateDomain_groups_spec in Hloop as [_ Hloop].
  assert (Hkeys : ∀ g, g ∈ (map_to_list (group_map pm0)).*1 ↔ known g).
  { intros g. rewrite list_elem_of_fmap. unfold known, pm0. split.
    - intros ([g' gs] & -> & Hin%elem_of_map_to_list). cbn in *.
      case_decide; [| by left; eauto]. cbn in Hin. unfold ensure in Hin.
      apply lookup_insert_Some in Hin as [[<- _] | [_ Hin]]; [by right |].
      left; eauto.
    - intros Hk.
      assert (is_Some (group_map pm0 !! g)) as [gs Hgs].
      { unfold pm0. case_decide as Hc; cbn; unfold ensure.
        - destruct (decide (g = uri)) as [-> | Hne].
          + rewrite lookup_insert_eq; eauto.
          + rewrite lookup_insert_ne by done.
            by destruct Hk as [| [_ ?]].
        - by destruct Hk as [| [? _]]. }
      exists (g, gs). split; [done |]. by apply elem_of_map_to_list. }
  assert (Hnone : ∀ g, ¬ known g → group_map pm1 !! g = None).
  { intros g Hk. destruct (Hloop g) as [Hout _].
    rewrite Hout by (by rewrite Hkeys).
    destruct (group_map pm0 !! g) as [gs|] eqn:Hgs; [| done].
    exfalso. apply Hk, Hkeys, list_elem_of_fmap. exists (g, gs).
    split; [done |]. by apply elem_of_map_to_list. }
  split; [| split].
  - intros g. split.
    + intros Hsome. destruct (decide (known g)) as [Hk | Hk].
      * split; [done |]. destruct (Hloop g) as [_ Hin].
        specialize (Hin (proj2 (Hkeys g) Hk)).
        destruct (resolveEpGroup store g); [eauto |].
        destruct Hin as [Hn _]. rewrite Hn in Hsome. by destruct Hsome.
      * rewrite (Hnone g Hk) in Hsome. by destruct Hsome.
    + intros [Hk [epg Hepg]]. destruct (Hloop g) as [_ Hin].
      specialize (Hin (proj2 (Hkeys g) Hk)). rewrite Hepg in Hin.
      destruct Hin as (gs & -> & _). eauto.
  - intros g gs Hgs. destruct (decide (known g)) as [Hk | Hk].
    + destruct (Hloop g) as [_ Hin].
      specialize (Hin (proj2 (Hkeys g) Hk)).
      destruct (resolveEpGroup store g) as [epg|].
      * destruct Hin as (gs' & Hgs' & He & Hc). by simplify_eq.
      * destruct Hin as [Hn _]. congruence.
    + rewrite (Hnone g Hk) in Hgs. done.
  - intros g Hk Hres. destruct (Hloop g) as [_ Hin].
    specialize (Hin (proj2 (Hkeys g) Hk)). rewrite Hres in Hin. by destruct Hin.
Qed.

(** X6 at the manager that holds [/g1], told of a group [/g2] that the
    store does not have: [/g1] stays and [/g2] is notified. *)
Lemma updateDomain_groups_follow_store_witness :
  ∃ pm' n,
    updateDomain Vnid.store 4 EpGroup_CLASS_ID "/g2" Vnid.resolved
      = Done (pm', n)
    ∧ is_Some (group_map pm' !! "/g1")
    ∧ group_map pm' !! "/g2" = None
    ∧ "/g2" ∈ notifyGroups n.
Proof.
  destruct (updateDomain Vnid.store 4 EpGroup_CLASS_ID "/g2" Vnid.resolved)
    as [[pm' n]| |] eqn:Hrun; [| vm_compute in Hrun; discriminate Hrun..].
  exists pm', n. split; [reflexivity |].
  destruct (updateDomain_groups_follow_store Vnid.store 4 EpGroup_CLASS_ID
              "/g2" Vnid.resolved pm' n Hrun) as (Hiff & _ & Hgone).
  split; [| split].
  - apply Hiff. split; [left |]; vm_compute; by eexists.
  - destruct (group_map pm' !! "/g2") as [gs|] eqn:Hg2; [| reflexivity].
    destruct (proj1 (Hiff "/g2") (ex_intro _ gs Hg2)) as [_ [epg Hepg]].
    discriminate Hepg.
  - apply Hgone; [right; by split | reflexivity].
Defined.

(** ** [updateDomain]: the routing domains to notify *)

Lemma natRoutingDomains_spec pm nets : ∀ acc acc',
  natRoutingDomains pm nets acc = Done acc' →
  ∀ rd, rd ∈ acc'
        ↔ rd ∈ acc
          ∨ ∃ net l3s r, net ∈ nets ∧ l3n_map pm !! net = Some l3s
                         ∧ l3s_routingDomain l3s = Some r ∧ rd_uri r = rd.
Proof.
  induction nets as [| net nets IH]; intros acc acc' Hrun rd;
    cbn [natRoutingDomains] in Hrun.
  - injection Hrun as <-. split; [by left |].
    intros [? | (? & ? & ? & ?%elem_of_nil & _)]; done.
  - destruct (l3n_map pm !! net) as [l3s|] eqn:Hnet.
    + destruct (l3s_routingDomain l3s) as [r|] eqn:Hr; cbn in Hrun; [| done].
      rewrite (IH _ _ Hrun rd), elem_of_union, elem_of_singleton. split.
      * intros [[-> | ?] | (net' & l3s' & r' & Hin & Hrest)]; [| by left |].
        -- right. exists net, l3s, r. split; [apply list_elem_of_here | done].
        -- right. exists net', l3s', r'.
           split; [by apply list_elem_of_further | done].
      * intros [? | (net' & l3s' & r' & [-> | Hin]%elem_of_cons & Hl & Hr' & Hu)];
          [by left; right | |].
        -- left; left. congruence.
        -- right. by exists net', l3s', r'.
    + rewrite (IH _ _ Hrun rd). split.
      * intros [? | (net' & l3s' & r' & Hin & Hrest)]; [by left |].
        right. exists net', l3s', r'.
        split; [by apply list_elem_of_further | done].
      * intros [? | (net' & l3s' & r' & [-> | Hin]%elem_of_cons & Hl & Hrest)];
          [by left | congruence |].
        right. by exists net', l3s', r'.
Qed.

Lemma updateDomain_rds_spec pm groups : ∀ acc acc',
  updateDomain_rds pm groups acc = Done acc' →
  ∀ rd, rd ∈ acc' ↔ rd ∈ acc ∨ ∃ g, g ∈ groups ∧ nat_routing_domain pm g rd.
Proof.
  induction groups as [| u groups IH]; intros acc acc' Hrun rd;
    cbn [updateDomain_rds] in Hrun.
  - injection Hrun as <-. split; [by left |].
    intros [? | (? & ?%elem_of_nil & _)]; done.
  - destruct (nat_epg_l3_ext pm !! u) as [nets|] eqn:Hu.
    + destruct (natRoutingDomains pm (elements nets) acc) as [acc1| |] eqn:H1;
        cbn in Hrun; try done.
      rewrite (IH _ _ Hrun rd), (natRoutingDomains_spec _ _ _ _ H1 rd). split.
      * intros [[? | (net & l3s & r & Hin%elem_of_elements & Hrest)]
               | (g & Hg & Hnat)]; [by left | |].
        -- right. exists u. split; [apply list_elem_of_here |].
           by exists nets, net, l3s, r.
        -- right. exists g. split; [by apply list_elem_of_further | done].
      * intros [? | (g & [-> | Hg]%elem_of_cons & Hnat)]; [by left; left | |].
        -- destruct Hnat as (nets' & net & l3s & r & Hnets & Hin & Hrest).
           left; right. exists net, l3s, r.
           split; [apply elem_of_elements; congruence | done].
        -- right. by exists g.
    + rewrite (IH _ _ Hrun rd). split.
      * intros [? | (g & Hg & Hnat)]; [by left |].
        right. exists g. split; [by apply list_elem_of_further | done].
      * intros [? | (g & [-> | Hg]%elem_of_cons & Hnat)]; [by left | |].
        -- destruct Hnat as (nets' & ? & ? & ? & Hnets & _). congruence.
        -- right. by exists g.
Qed.

(** Resolving the groups leaves the external-network tracker alone. *)
Lemma updateEPGDomains_tracker store fuel g pm updated toRemove pm' :
  updateEPGDomains store fuel g pm = Done (updated, toRemove, pm') →
  l3n_map pm' = l3n_map pm ∧ nat_epg_l3_ext pm' = nat_epg_l3_ext pm.
Proof.
  unfold updateEPGDomains.
  destruct (resolveEpGroup store g) as [epg|].
  - destruct (walkDomains _ _ _ _ _) as [w| |]; cbn; try done.
    by intros [= <- <- <-].
  - by intros [= <- <- <-].
Qed.

Lemma updateDomain_groups_tracker store fuel keys : ∀ pm notify pm' notify',
  updateDomain_groups store fuel keys pm notify = Done (pm', notify') →
  l3n_map pm' = l3n_map pm ∧ nat_epg_l3_ext pm' = nat_epg_l3_ext pm.
Proof.
  induction keys as [| k keys IH]; intros pm notify pm' notify' Hrun.
  - by injection Hrun as <- <-.
  - cbn [updateDomain_groups] in Hrun.
    destruct (updateEPGDomains store fuel k pm) as [[[u rm] pm1]| |] eqn:Hk;
      cbn in Hrun; try done.
    apply updateEPGDomains_tracker in Hk as [<- <-].
    apply IH in Hrun as [-> ->]. by destruct rm.
Qed.

(** X7.  The routing domains [updateDomain] notifies are exactly the
    routing domains, other than [uri], of the external networks filed in
    the NAT index under a notified group; the tracker's maps are left as
    they were. *)
Theorem updateDomain_notified_rds store fuel class_id uri pm pm' n :
  updateDomain store fuel class_id uri pm = Done (pm', n) →
  (∀ rd, rd ∈ notifyRds n
         ↔ rd ≠ uri ∧ ∃ g, g ∈ notifyGroups n ∧ nat_routing_domain pm g rd)
  ∧ l3n_map pm' = l3n_map pm ∧ nat_epg_l3_ext pm' = nat_epg_l3_ext pm.
Proof.
  unfold updateDomain. intros Hrun.
  destruct (updateDomain_groups store fuel _ _ ∅) as [[pm1 groups]| |] eqn:Hloop;
    cbn in Hrun; try done.
  destruct (updateDomain_rds pm1 (elements groups) ∅) as [rds| |] eqn:Hrds;
    cbn in Hrun; try done.
  injection Hrun as <- <-. cbn [notifyGroups notifyRds].
  apply updateDomain_groups_tracker in Hloop as [Hl3n Hidx].
  assert (Hl3n' : l3n_map pm1 = l3n_map pm) by (rewrite Hl3n; by case_decide).
  assert (Hidx' : nat_epg_l3_ext pm1 = nat_epg_l3_ext pm)
    by (rewrite Hidx; by case_decide).
  split; [| done]. intros rd.
  rewrite elem_of_difference, elem_of_singleton,
    (updateDomain_rds_spec _ _ _ _ Hrds rd), elem_of_empty.
  unfold nat_routing_domain. rewrite Hl3n', Hidx'.
  setoid_rewrite elem_of_elements. tauto.
Qed.

(** X7 at the scenario of network [/n1] under [/rd1] with NAT group
    [/g1]: when [/g1] appears in the store, [/rd1] is notified. *)
Lemma updateDomain_notified_rds_witness :
  ∃ pm' n,
    updateDomain Vnid.store 4 EpGroup_CLASS_ID "/g1" NatIndex.attached
      = Done (pm', n)
    ∧ "/rd1" ∈ notifyRds n.
Proof.
  destruct (updateDomain Vnid.store 4 EpGroup_CLASS_ID "/g1" NatIndex.attached)
    as [[pm' n]| |] eqn:Hrun; [| vm_compute in Hrun; discriminate Hrun..].
  destruct (updateDomain_notified_rds Vnid.store 4 EpGroup_CLASS_ID "/g1"
              NatIndex.attached pm' n Hrun) as [Hiff _].
  exists pm', n. split; [reflexivity |]. apply Hiff. split; [discriminate |].
  exists "/g1". split.
  - vm_compute in Hrun. injection Hrun as _ <-. vm_compute. reflexivity.
  - exists {[ "/n1" ]}, "/n1",
      {| l3s_routingDomain := Some (NatIndex.rd1 NatIndex.toG1);
         l3s_natEpg := Some "/g1" |}, (NatIndex.rd1 NatIndex.toG1).
    split; [vm_compute; reflexivity |].
    split; [by apply elem_of_singleton |].
    split; [vm_compute; reflexivity |]. by split.
Defined.

(** ** The contract index and the group index *)

Lemma getContractProviders_members pm c :
  getContractProviders pm c = members Provider pm c.
Proof. done. Qed.

Lemma getContractConsumers_members pm c :
  getContractConsumers pm c = members Consumer pm c.
Proof. done. Qed.

Lemma getContractIntra_members pm c :
  getContractIntra pm c = members Intra pm c.
Proof. done. Qed.

Lemma groupsOf_setter r r' f cs :
  groupsOf r (setter r' f cs)
  = if decide (r = r') then f (groupsOf r cs) else groupsOf r cs.
Proof. by destruct r, r'. Qed.

Lemma groupsOf_empty r : groupsOf r emptyContractState = ∅.
Proof. by destruct r. Qed.

Lemma noGroups_groupsOf r cs : noGroups cs = true → groupsOf r cs = ∅.
Proof.
  unfold noGroups. intros [[Hp Hc]%andb_true_iff Hi]%andb_true_iff.
  apply bool_decide_eq_true in Hp, Hc, Hi. by destruct r.
Qed.

Lemma members_index_or r pm c :
  members r pm c = groupsOf r (index_or emptyContractState c (contractMap pm)).
Proof.
  unfold members, index_or. destruct (contractMap pm !! c); [done |].
  by rewrite groupsOf_empty.
Qed.

Lemma apply_role_members r r' f pm u c :
  members r
    (set_contractMap
       (fun m => <[u := setter r' f (index_or emptyContractState u m)]> m) pm) c
  = if decide (r = r' ∧ c = u) then f (members r pm c) else members r pm c.
Proof.
  rewrite (members_index_or r pm c). unfold members. cbn.
  destruct (decide (c = u)) as [-> | Hne].
  - rewrite lookup_insert_eq, groupsOf_setter.
    destruct (decide (r = r')) as [-> | Hr].
    + by rewrite decide_True.
    + rewrite decide_False; [done | by intros [? _]].
  - rewrite lookup_insert_ne by done.
    rewrite decide_False by (by intros [_ ?]).
    unfold index_or. destruct (contractMap pm !! c); [done |].
    by rewrite groupsOf_empty.
Qed.

Lemma removeContractIfRequired_members store r u pm c :
  members r (removeContractIfRequired store u pm).2 c = members r pm c.
Proof.
  unfold removeContractIfRequired.
  destruct (resolveContract store u); [done |].
  destruct (contractMap pm !! u) as [cs|] eqn:Hu; [| done].
  destruct (noGroups cs) eqn:Hg; [| done].
  unfold members. cbn. destruct (decide (c = u)) as [-> | Hne].
  - rewrite lookup_delete_eq, Hu. by rewrite noGroups_groupsOf.
  - by rewrite lookup_delete_ne.
Qed.

Lemma addGroupTo_members r r' g pm u c :
  members r (addGroupTo (setter r') g pm u) c
  = if decide (r = r' ∧ c = u) then {[g]} ∪ members r pm c
    else members r pm c.
Proof. apply (apply_role_members r r' (fun s => {[g]} ∪ s)). Qed.

Lemma removeGroupFrom_members store r r' g pm u c :
  members r (removeGroupFrom store (setter r') g pm u) c
  = if decide (r = r' ∧ c = u) then members r pm c ∖ {[g]}
    else members r pm c.
Proof.
  unfold removeGroupFrom. rewrite removeContractIfRequired_members.
  apply (apply_role_members r r' (fun s => s ∖ {[g]})).
Qed.

Lemma foldl_addGroupTo_members r r' g l : ∀ pm c,
  members r (foldl (addGroupTo (setter r') g) pm l) c
  = if decide (r = r' ∧ c ∈ l) then {[g]} ∪ members r pm c
    else members r pm c.
Proof.
  induction l as [| u l IH]; intros pm c; cbn [foldl].
  - rewrite decide_False; [done |]. by intros [_ ?%elem_of_nil].
  - rewrite IH, addGroupTo_members.
    repeat case_decide; rewrite ?elem_of_cons in *; try done;
      try (exfalso; tauto).
    all: by rewrite (assoc_L (∪)), (idemp_L (∪)).
Qed.

Lemma foldl_removeGroupFrom_members store r r' g l : ∀ pm c,
  members r (foldl (removeGroupFrom store (setter r') g) pm l) c
  = if decide (r = r' ∧ c ∈ l) then members r pm c ∖ {[g]}
    else members r pm c.
Proof.
  induction l as [| u l IH]; intros pm c; cbn [foldl].
  - rewrite decide_False; [done |]. by intros [_ ?%elem_of_nil].
  - rewrite IH, removeGroupFrom_members.
    repeat case_decide; rewrite ?elem_of_cons in *; try done;
      try (exfalso; tauto).
    all: by rewrite difference_difference_l_L, (idemp_L (∪)).
Qed.

Lemma removeContractIfRequired_groupContractMap store u pm :
  groupContractMap (removeContractIfRequired store u pm).2 = groupContractMap pm.
Proof.
  unfold removeContractIfRequired.
  destruct (resolveContract store u); [done |].
  destruct (contractMap pm !! u) as [cs|]; [| done].
  by destruct (noGroups cs).
Qed.

Lemma applyContractDiff_groupContractMap store g d pm :
  groupContractMap (applyContractDiff store g d pm) = groupContractMap pm.
Proof.
  unfold applyContractDiff.
  repeat (apply (foldl_preserves
                   (fun pm' => groupContractMap pm' = groupContractMap pm));
          [intros a b Ha; rewrite <- Ha; unfold removeGroupFrom;
           rewrite ?removeContractIfRequired_groupContractMap;
           reflexivity |]).
  reflexivity.
Qed.

(** The six loops, seen from one contract and one role. *)
Lemma applyContractDiff_members store g d pm r c :
  members r (applyContractDiff store g d pm) c
  = (if decide (c ∈ removed r d)
     then (if decide (c ∈ added r d) then {[g]} ∪ members r pm c
           else members r pm c) ∖ {[g]}
     else if decide (c ∈ added r d) then {[g]} ∪ members r pm c
          else members r pm c).
Proof.
  unfold applyContractDiff. cbv zeta.
  change set_providerGroups with (setter Provider).
  change set_consumerGroups with (setter Consumer).
  change set_intraGroups with (setter Intra).
  rewrite !foldl_removeGroupFrom_members, !foldl_addGroupTo_members.
  destruct r; cbn [added removed];
    repeat case_decide; rewrite ?elem_of_elements in *; try done;
    exfalso; intuition congruence.
Qed.

Lemma contractDiff_added r gcs new c :
  c ∈ added r (contractDiff gcs new)
  ↔ c ∈ referred r new ∧ c ∉ contractsOf r gcs.
Proof.
  destruct new as [[[p q] i]|], r; cbn;
    rewrite ?elem_of_difference, ?elem_of_empty; tauto.
Qed.

Lemma contractDiff_removed r gcs new c :
  c ∈ removed r (contractDiff gcs new)
  ↔ c ∈ contractsOf r gcs ∧ c ∉ referred r new.
Proof.
  destruct new as [[[p q] i]|], r; cbn;
    rewrite ?elem_of_difference, ?elem_of_empty; tauto.
Qed.

(** What [updateGroupContracts] records for each group. *)
Lemma updateGroupContracts_held store groupType g acc r g' :
  held r (updateGroupContracts store groupType g acc).1 g'
  = if decide (g' = g)
    then referred r (resolveGroupContracts store groupType g)
    else held r acc.1 g'.
Proof.
  unfold held, updateGroupContracts. cbn [fst].
  rewrite applyContractDiff_groupContractMap. unfold index_or.
  destruct (resolveGroupContracts store groupType g) as [[[p q] i]|]; cbn;
    case_decide as Hg; subst.
  - rewrite lookup_insert_eq. by destruct r.
  - by rewrite lookup_insert_ne.
  - rewrite lookup_delete_eq. by destruct r.
  - by rewrite lookup_delete_ne.
Qed.

(** What [updateGroupContracts] files under each contract: for its group
    the entry is left alone where record and reference agree, and made to
    follow the reference where they differ. *)
Lemma updateGroupContracts_members store groupType g acc r g' c :
  g' ∈ members r (updateGroupContracts store groupType g acc).1 c
  ↔ (if decide (g' = g)
     then if decide (c ∈ held r acc.1 g
                     ↔ c ∈ referred r (resolveGroupContracts store groupType g))
          then g ∈ members r acc.1 c
          else c ∈ referred r (resolveGroupContracts store groupType g)
     else g' ∈ members r acc.1 c).
Proof.
  unfold updateGroupContracts. cbn [fst].
  rewrite applyContractDiff_members.
  set (new := resolveGroupContracts store groupType g).
  set (gcs := index_or emptyGroupContractState g (groupContractMap acc.1)).
  assert (Hm : ∀ pm1,
            contractMap pm1 = contractMap acc.1 →
            members r pm1 c = members r acc.1 c)
    by (intros pm1 Hpm1; unfold members; by rewrite Hpm1).
  rewrite Hm by (by destruct new as [[[? ?] ?]|]).
  pose proof (contractDiff_added r gcs new c) as Ha.
  pose proof (contractDiff_removed r gcs new c) as Hr.
  change (contractsOf r gcs) with (held r acc.1 g) in Ha, Hr.
  destruct (decide (c ∈ held r acc.1 g)), (decide (c ∈ referred r new));
    repeat case_decide; subst;
    rewrite ?elem_of_difference, ?elem_of_union, ?elem_of_singleton;
    tauto.
Qed.

Lemma refs_mirrored_initial : refs_mirrored initialManager.
Proof. intros r g c. unfold members, held. by destruct r. Qed.

(** X8.  [updateGroupContracts] keeps the contract index and the group
    index mirrors of each other: a group is filed under a contract in a
    role exactly when that contract is recorded for the group in that
    role. *)
Theorem updateGroupContracts_mirrored store groupType g acc :
  refs_mirrored acc.1 →
  refs_mirrored (updateGroupContracts store groupType g acc).1.
Proof.
  intros Hpre r g' c.
  rewrite updateGroupContracts_members, updateGroupContracts_held.
  specialize (Hpre r). case_decide; [subst | apply Hpre].
  specialize (Hpre g c). case_decide; tauto.
Qed.

(** X8 at the scenario of the two indexed groups: the indexes mirror each
    other once [/g1] and [/g2] have been indexed from a fresh manager. *)
Lemma updateGroupContracts_mirrored_witness : refs_mirrored Gc.indexed.
Proof.
  unfold Gc.indexed.
  apply (updateGroupContracts_mirrored (Gc.attached []) EpGroup_CLASS_ID "/g2").
  apply (updateGroupContracts_mirrored (Gc.attached []) EpGroup_CLASS_ID "/g1").
  exact refs_mirrored_initial.
Defined.

Lemma referred_EpGroup store g r :
  referred r (resolveGroupContracts store EpGroup_CLASS_ID g)
  = match resolveEpGroup store g with
    | Some epg =>
        targetsOf (match r with
                   | Provider => epg_provContractRSrc epg
                   | Consumer => epg_consContractRSrc epg
                   | Intra => epg_intraContractRSrc epg
                   end)
    | None => ∅
    end.
Proof.
  unfold resolveGroupContracts. rewrite decide_True by done.
  destruct (resolveEpGroup store g); by destruct r.
Qed.

(** X9.  After [updateGroupContracts] for an endpoint group on mirrored
    indexes, the three queries on a contract return the group exactly
    when the group's object refers to the contract in that role, and
    never when the group has no object; together they agree with
    [getContractsForGroup]. *)
Theorem updateGroupContracts_indexes_references store g acc c :
  refs_mirrored acc.1 →
  let pm' := (updateGroupContracts store EpGroup_CLASS_ID g acc).1 in
  match resolveEpGroup store g with
  | Some epg =>
      (g ∈ getContractProviders pm' c ↔ c ∈ targetsOf (epg_provContractRSrc epg))
      ∧ (g ∈ getContractConsumers pm' c ↔ c ∈ targetsOf (epg_consContractRSrc epg))
      ∧ (g ∈ getContractIntra pm' c ↔ c ∈ targetsOf (epg_intraContractRSrc epg))
  | None =>
      (g ∉ getContractProviders pm' c) ∧ (g ∉ getContractConsumers pm' c)
      ∧ (g ∉ getContractIntra pm' c)
  end
  ∧ (g ∈ getContractProviders pm' c ∪ getContractConsumers pm' c
          ∪ getContractIntra pm' c
     ↔ c ∈ getContractsForGroup store g).
Proof.
  intros Hpre pm'.
  assert (Hr : ∀ r, g ∈ members r pm' c
                    ↔ c ∈ referred r (resolveGroupContracts store
                                        EpGroup_CLASS_ID g)).
  { intros r. unfold pm'. rewrite updateGroupContracts_members.
    rewrite decide_True by done. specialize (Hpre r g c).
    case_decide; tauto. }
  clearbody pm'.
  pose proof (Hr Provider) as Hp. pose proof (Hr Consumer) as Hc.
  pose proof (Hr Intra) as Hi. rewrite referred_EpGroup in Hp, Hc, Hi.
  rewrite getContractProviders_members, getContractConsumers_members,
    getContractIntra_members.
  unfold getContractsForGroup. rewrite !elem_of_union.
  pose proof (not_elem_of_empty (C := gset URI) c) as Hempty.
  destruct (resolveEpGroup store g) as [epg|]; cbn in Hp, Hc, Hi;
    rewrite ?elem_of_union; tauto.
Qed.

(** X9 at the scenario of the two groups: once [/g1] is indexed, the
    providers of [/c1] include it. *)
Lemma updateGroupContracts_indexes_references_witness :
  "/g1" ∈ getContractProviders
            (updateGroupContracts (Gc.attached []) EpGroup_CLASS_ID "/g1"
               (initialManager, ∅)).1 "/c1".
Proof.
  destruct (updateGroupContracts_indexes_references (Gc.attached []) "/g1"
              (initialManager, ∅) "/c1" refs_mirrored_initial) as [[Hp _] _].
  apply Hp. vm_compute. reflexivity.
Defined.

(** X10.  [updateGroupContracts] is idempotent: a second run for the same
    group against the same store changes neither the state nor the set of
    updated contracts. *)
Theorem updateGroupContracts_idempotent store groupType g acc :
  updateGroupContracts store groupType g
    (updateGroupContracts store groupType g acc)
  = updateGroupContracts store groupType g acc.
Proof.
  set (acc1 := updateGroupContracts store groupType g acc).
  assert (Hgcm : groupContractMap acc1.1
                 = match resolveGroupContracts store groupType g with
                   | Some (p, q, i) =>
                       <[g := {| contractsProvided := p;
                                 contractsConsumed := q;
                                 contractsIntra := i |}]>
                         (groupContractMap acc.1)
                   | None => delete g (groupContractMap acc.1)
                   end).
  { unfold acc1, updateGroupContracts. cbn [fst].
    rewrite applyContractDiff_groupContractMap.
    by destruct (resolveGroupContracts store groupType g) as [[[? ?] ?]|]. }
  unfold updateGroupContracts at 1. destruct acc1 as [pm1 s1]. cbn [fst snd] in *.
  unfold index_or. rewrite Hgcm.
  destruct (resolveGroupContracts store groupType g) as [[[p q] i]|].
  - rewrite lookup_insert_eq. cbn.
    rewrite !difference_diag_L. unfold applyContractDiff. cbn.
    rewrite elements_empty. cbn. rewrite !(left_id_L ∅ (∪)). f_equal.
    destruct pm1. cbn in *. unfold set_groupContractMap. cbn. f_equal.
    rewrite Hgcm. apply insert_insert_eq.
  - rewrite lookup_delete_eq. cbn.
    unfold applyContractDiff. cbn.
    rewrite elements_empty. cbn. rewrite !(left_id_L ∅ (∪)). f_equal.
    destruct pm1. cbn in *. unfold set_groupContractMap. cbn. f_equal.
    rewrite Hgcm. apply delete_delete_eq.
Qed.

(** ** [updateContracts] and the groups of a contract *)

Lemma updateContracts_step_members store acc c r k :
  members r (updateContracts_step store acc c).1 k = members r acc.1 k.
Proof.
  rewrite (members_index_or r acc.1 k). unfold updateContracts_step.
  destruct (updateContractRules_spec store c acc.1) as [_ [rs Hm]].
  destruct (updateContractRules store c acc.1) as [[updated notFound] pm1].
  cbn [fst snd] in *.
  assert (H1 : members r pm1 k
               = groupsOf r (index_or emptyContractState k (contractMap acc.1))).
  { rewrite members_index_or. unfold index_or. rewrite Hm.
    destruct (decide (k = c)) as [-> | Hne].
    - rewrite lookup_insert_eq. by destruct r.
    - by rewrite lookup_insert_ne. }
  destruct notFound; [| done].
  destruct (noGroups _) eqn:Hg; unfold members; cbn;
    (destruct (decide (k = c)) as [-> | Hne];
     [ rewrite ?lookup_delete_eq, ?lookup_insert_eq
     | rewrite ?lookup_delete_ne, ?lookup_insert_ne by done; exact H1 ]).
  - rewrite <- H1, members_index_or. by rewrite noGroups_groupsOf.
  - rewrite <- H1, members_index_or. by destruct r.
Qed.

Lemma updateContracts_step_groupContractMap store acc c :
  groupContractMap (updateContracts_step store acc c).1 = groupContractMap acc.1.
Proof.
  unfold updateContracts_step.
  assert (H1 : groupContractMap (updateContractRules store c acc.1).2
               = groupContractMap acc.1) by reflexivity.
  destruct (updateContractRules store c acc.1) as [[updated notFound] pm1].
  cbn [fst snd] in *.
  destruct notFound; [destruct (noGroups _) |]; exact H1.
Qed.

Lemma updateContracts_loop_members store keys : ∀ acc r k,
  members r (updateContracts_loop store keys acc).1 k = members r acc.1 k.
Proof.
  induction keys as [| c keys IH]; intros acc r k; [done |].
  by rewrite updateContracts_loop_cons, IH, updateContracts_step_members.
Qed.

Lemma updateContracts_loop_groupContractMap store keys : ∀ acc,
  groupContractMap (updateContracts_loop store keys acc).1
  = groupContractMap acc.1.
Proof.
  induction keys as [| c keys IH]; intros acc; [done |].
  by rewrite updateContracts_loop_cons, IH, updateContracts_step_groupContractMap.
Qed.

(** X11.  Recompiling the rules never changes who provides, consumes or
    uses a contract: the three queries answer after [updateContracts] as
    they did before, for every contract, and the groups' records are
    untouched. *)
Theorem updateContracts_keeps_groups store pm c :
  getContractProviders (updateContracts store pm).1 c = getContractProviders pm c
  ∧ getContractConsumers (updateContracts store pm).1 c
    = getContractConsumers pm c
  ∧ getContractIntra (updateContracts store pm).1 c = getContractIntra pm c
  ∧ groupContractMap (updateContracts store pm).1 = groupContractMap pm.
Proof.
  rewrite !getContractProviders_members, !getContractConsumers_members,
    !getContractIntra_members.
  unfold updateContracts.
  by rewrite !updateContracts_loop_members, updateContracts_loop_groupContractMap.
Qed.

(** ** The mirror of the two indexes under the other updates *)

Lemma refs_mirrored_ext pm pm' :
  contractMap pm' = contractMap pm →
  groupContractMap pm' = groupContractMap pm →
  refs_mirrored pm → refs_mirrored pm'.
Proof.
  intros Hc Hg Hpm r g c. unfold members, held. rewrite Hc, Hg. apply Hpm.
Qed.

Lemma updateGroupContracts_keeps_mirror store groupType g acc :
  refs_mirrored acc.1 →
  refs_mirrored (updateGroupContracts store groupType g acc).1.
Proof.
  intros Hpre r g' c.
  rewrite updateGroupContracts_members, updateGroupContracts_held.
  specialize (Hpre r). case_decide; [subst | apply Hpre].
  specialize (Hpre g c). case_decide; tauto.
Qed.

Lemma updateL3Nets_net_mirrored store rd acc net :
  refs_mirrored acc.1 → refs_mirrored (updateL3Nets_net store rd acc net).1.
Proof.
  intros Hacc. unfold updateL3Nets_net. cbv zeta.
  destruct (match l3n_natEPGroupRSrc net with Some _ => _ | None => _ end)
    as [natEpg' idx2].
  apply updateGroupContracts_keeps_mirror. by eapply refs_mirrored_ext.
Qed.

Lemma updateL3Nets_removed_mirrored store newNets old : ∀ acc acc',
  refs_mirrored acc.1 →
  updateL3Nets_removed store newNets old acc = Done acc' →
  refs_mirrored acc'.1.
Proof.
  induction old as [| net old IH]; intros acc acc' Hacc Hrun; cbn in Hrun.
  - by injection Hrun as <-.
  - case_decide; [by eapply IH |].
    destruct (l3n_map acc.1 !! net) as [l3s|]; cbn in Hrun; [| done].
    eapply IH; [| exact Hrun].
    apply updateGroupContracts_keeps_mirror. by eapply refs_mirrored_ext.
Qed.

(** X12.  The mirror of the two indexes is kept by the other two updates
    that reach them: by [updateContracts], and by every [updateL3Nets]
    that completes, whether or not the routing domain resolves. *)
Theorem mirror_kept_by_updateContracts_and_updateL3Nets store pm :
  refs_mirrored pm →
  refs_mirrored (updateContracts store pm).1
  ∧ ∀ rdURI notify acc',
      updateL3Nets store rdURI (pm, notify) = Done acc' →
      refs_mirrored acc'.1.
Proof.
  intros Hpm. split.
  - intros r g c. unfold held, updateContracts.
    rewrite updateContracts_loop_members, updateContracts_loop_groupContractMap.
    apply Hpm.
  - intros rdURI notify acc'. unfold updateL3Nets. cbv zeta. cbn [fst snd].
    assert (Hpm0 : refs_mirrored
                     (set_rd_map (ensure {| extNets := ∅ |} rdURI) pm))
      by (by eapply refs_mirrored_ext).
    destruct (resolveRoutingDomain store rdURI) as [rd|].
    + match goal with
      | |- context [updateL3Nets_removed ?s ?n ?o ?a] =>
          destruct (updateL3Nets_removed s n o a) as [acc2| |] eqn:Hrem;
          cbn; try done
      end.
      intros [= <-]. cbn [fst].
      eapply refs_mirrored_ext; [reflexivity | reflexivity |].
      eapply updateL3Nets_removed_mirrored; [| exact Hrem].
      apply (foldl_preserves (fun a => refs_mirrored a.1)); [| done].
      intros a net. apply updateL3Nets_net_mirrored.
    + intros [= <-]. cbn [fst].
      eapply refs_mirrored_ext; [reflexivity | reflexivity |].
      apply (foldl_preserves (fun a => refs_mirrored a.1)); [| done].
      intros a net Ha. apply updateGroupContracts_keeps_mirror.
      by eapply refs_mirrored_ext.
Qed.

(** X12 at the scenario of the two indexed groups, with a routing domain
    that the store does not have. *)
Lemma mirror_kept_by_updateContracts_and_updateL3Nets_witness :
  refs_mirrored (updateContracts (Gc.attached []) Gc.indexed).1
  ∧ ∃ acc', updateL3Nets (Gc.attached []) "/rd1" (Gc.indexed, ∅) = Done acc'
            ∧ refs_mirrored acc'.1.
Proof.
  assert (Hindexed : refs_mirrored Gc.indexed).
  { unfold Gc.indexed.
    do 2 apply updateGroupContracts_keeps_mirror. exact refs_mirrored_initial. }
  destruct (mirror_kept_by_updateContracts_and_updateL3Nets (Gc.attached [])
              Gc.indexed Hindexed) as [Hc Hl3].
  split; [exact Hc |].
  destruct (updateL3Nets (Gc.attached []) "/rd1" (Gc.indexed, ∅))
    as [acc'| |] eqn:Hrun; [| vm_compute in Hrun; discriminate Hrun..].
  exists acc'. split; [reflexivity |]. by eapply Hl3.
Defined.

(** ** The external-network tracker and the NAT reverse index *)

Lemma tracker_ok_consistent pm :
  tracker_ok (l3n_map pm) (nat_epg_l3_ext pm)
  ↔ nat_index_consistent pm ∧ l3n_attached pm.
Proof.
  unfold tracker_ok, nat_index_consistent, l3n_attached, slot.
  assert (Hl : ∀ n e, (∃ l3s, l3n_map pm !! n = Some l3s ∧ l3s_natEpg l3s = Some e)
                      ↔ l3n_map pm !! n ≫= l3s_natEpg = Some e).
  { intros n e. destruct (l3n_map pm !! n) as [l3s|]; cbn.
    - split; [by intros (? & [= <-] & ?) | eauto].
    - split; [by intros (? & ? & _) | done]. }
  assert (Hr : ∀ n e, (∃ s, nat_epg_l3_ext pm !! e = Some s ∧ n ∈ s)
                      ↔ n ∈ default ∅ (nat_epg_l3_ext pm !! e)).
  { intros n e. destruct (nat_epg_l3_ext pm !! e) as [s|]; cbn.
    - split; [by intros (? & [= <-] & ?) | eauto].
    - rewrite elem_of_empty. split; [by intros (? & ? & _) | done]. }
  split.
  - intros (Hiff & Hne & Hatt). split; [split |]; [| done..].
    intros n e. rewrite Hl, Hr. apply Hiff.
  - intros [[Hiff Hne] Hatt]. split; [| done].
    intros n e. rewrite <- Hl, <- Hr. apply Hiff.
Qed.

Lemma pruneNatIndex_slot e n idx e' :
  slot (pruneNatIndex e n idx) e'
  = if decide (e' = e) then slot idx e ∖ {[n]} else slot idx e'.
Proof.
  unfold slot, pruneNatIndex. destruct (idx !! e) as [s|] eqn:He.
  - case_decide as Hs; case_decide as He'; subst.
    + rewrite lookup_delete_eq. cbn. symmetry.
      apply leibniz_equiv. by apply size_empty_inv.
    + by rewrite lookup_delete_ne.
    + by rewrite lookup_insert_eq.
    + by rewrite lookup_insert_ne.
  - case_decide; subst; [| done]. rewrite He. cbn.
    by rewrite empty_difference_L.
Qed.

Lemma pruneNatIndex_nonempty e n idx :
  (∀ e' s, idx !! e' = Some s → s ≠ ∅) →
  ∀ e' s, pruneNatIndex e n idx !! e' = Some s → s ≠ ∅.
Proof.
  intros Hne e' s. unfold pruneNatIndex.
  destruct (idx !! e) as [s0|] eqn:He; [| apply Hne].
  case_decide as Hs.
  - destruct (decide (e' = e)) as [-> | ?].
    + by rewrite lookup_delete_eq.
    + rewrite lookup_delete_ne by done. apply Hne.
  - destruct (decide (e' = e)) as [-> | ?].
    + rewrite lookup_insert_eq. intros [= <-] Hempty.
      apply Hs. rewrite Hempty. apply size_empty.
    + rewrite lookup_insert_ne by done. apply Hne.
Qed.

(** [updateGroupContracts] leaves the tracker's maps alone. *)
Lemma applyContractDiff_tracker store g d pm :
  l3n_map (applyContractDiff store g d pm) = l3n_map pm
  ∧ nat_epg_l3_ext (applyContractDiff store g d pm) = nat_epg_l3_ext pm
  ∧ rd_map (applyContractDiff store g d pm) = rd_map pm.
Proof.
  unfold applyContractDiff.
  repeat (apply (foldl_preserves
                   (fun pm' => l3n_map pm' = l3n_map pm
                               ∧ nat_epg_l3_ext pm' = nat_epg_l3_ext pm
                               ∧ rd_map pm' = rd_map pm));
          [intros a b (Ha1 & Ha2 & Ha3); rewrite <- Ha1, <- Ha2, <- Ha3;
           unfold removeGroupFrom, removeContractIfRequired, addGroupTo; cbn;
           repeat case_match; done |]).
  done.
Qed.

Lemma updateGroupContracts_tracker store groupType g acc :
  l3n_map (updateGroupContracts store groupType g acc).1 = l3n_map acc.1
  ∧ nat_epg_l3_ext (updateGroupContracts store groupType g acc).1
    = nat_epg_l3_ext acc.1
  ∧ rd_map (updateGroupContracts store groupType g acc).1 = rd_map acc.1.
Proof.
  unfold updateGroupContracts. cbn [fst].
  destruct (applyContractDiff_tracker store g
              (contractDiff
                 (index_or emptyGroupContractState g (groupContractMap acc.1))
                 (resolveGroupContracts store groupType g))
              (match resolveGroupContracts store groupType g with
               | Some (newProvided, newConsumed, newIntra) =>
                   set_groupContractMap
                     (fun m => <[g := {| contractsProvided := newProvided;
                                         contractsConsumed := newConsumed;
                                         contractsIntra := newIntra |}]> m) acc.1
               | None => set_groupContractMap (delete g) acc.1
               end)) as (-> & -> & ->).
  by destruct (resolveGroupContracts store groupType g) as [[[? ?] ?]|].
Qed.

(** Pruning network [n] from the slot of its recorded NAT group takes it
    out of the index and leaves the rest. *)
Lemma tracker_ok_forget l3n idx n :
  tracker_ok l3n idx →
  let idx1 := match l3n !! n ≫= l3s_natEpg with
              | Some e => pruneNatIndex e n idx
              | None => idx
              end in
  (∀ x e, x ∈ slot idx1 e ↔ x ∈ slot idx e ∧ x ≠ n)
  ∧ (∀ e s, idx1 !! e = Some s → s ≠ ∅).
Proof.
  intros (Hiff & Hne & _) idx1. unfold idx1.
  destruct (l3n !! n ≫= l3s_natEpg) as [e0|] eqn:Hn.
  - split; [| by apply pruneNatIndex_nonempty].
    intros x e. rewrite pruneNatIndex_slot. case_decide as He; subst.
    + rewrite elem_of_difference, elem_of_singleton. tauto.
    + split; [| tauto]. intros Hx. split; [done |]. intros ->.
      apply Hiff in Hx. congruence.
  - split; [| done]. intros x e. split; [| tauto].
    intros Hx. split; [done |]. intros ->. apply Hiff in Hx. congruence.
Qed.

(** One network of the routing domain, on the two maps. *)
Lemma tracker_ok_attach l3n idx n rd t :
  tracker_ok l3n idx →
  let l3s := index_or emptyL3NetworkState n l3n in
  let idx1 := match l3s_routingDomain l3s, l3s_natEpg l3s with
              | Some _, Some e => pruneNatIndex e n idx
              | _, _ => idx
              end in
  tracker_ok
    (<[n := {| l3s_routingDomain := Some rd; l3s_natEpg := t |}]> l3n)
    (match t with
     | Some e => <[e := {[n]} ∪ default ∅ (idx1 !! e)]> idx1
     | None => idx1
     end).
Proof.
  intros Hok l3s idx1.
  destruct (tracker_ok_forget l3n idx n Hok) as [Hslot Hne].
  destruct Hok as (Hiff & _ & Hatt).
  assert (Hidx1 : idx1 = match l3n !! n ≫= l3s_natEpg with
                         | Some e => pruneNatIndex e n idx
                         | None => idx
                         end).
  { unfold idx1, l3s, index_or. destruct (l3n !! n) as [s|] eqn:Hn; [| done].
    cbn. by destruct (Hatt _ _ Hn) as [rd0 ->]. }
  cbv zeta in Hslot, Hne. rewrite <- Hidx1 in Hslot, Hne. clearbody idx1.
  clear Hidx1 l3s.
  assert (Hnew : ∀ x e,
            x ∈ slot (match t with
                      | Some e0 => <[e0 := {[n]} ∪ default ∅ (idx1 !! e0)]> idx1
                      | None => idx1
                      end) e
            ↔ (x = n ∧ t = Some e) ∨ (x ∈ slot idx e ∧ x ≠ n)).
  { intros x e. destruct t as [e0|].
    - unfold slot at 1. destruct (decide (e = e0)) as [-> | He].
      + rewrite lookup_insert_eq. cbn.
        rewrite elem_of_union, elem_of_singleton.
        change (default ∅ (idx1 !! e0)) with (slot idx1 e0). rewrite Hslot.
        split; [intros [-> | ?]; eauto | intros [[-> _] | ?]; eauto].
      + rewrite lookup_insert_ne by done.
        change (default ∅ (idx1 !! e)) with (slot idx1 e). rewrite Hslot.
        split; [eauto |]. intros [[_ [= ->]] | ?]; done.
    - rewrite Hslot. split; [eauto |]. by intros [[_ ?] | ?]. }
  split; [| split].
  - intros x e. rewrite Hnew. destruct (decide (x = n)) as [-> | Hx].
    + rewrite lookup_insert_eq. cbn. split; [eauto |].
      by intros [[_ ?] | [_ ?]].
    + rewrite lookup_insert_ne by done. rewrite Hiff.
      split; [eauto |]. by intros [[? _] | [? _]].
  - intros e s. destruct t as [e0|]; [| apply Hne].
    destruct (decide (e = e0)) as [-> | He].
    + rewrite lookup_insert_eq. intros [= <-] Hempty.
      apply (not_elem_of_empty (C := gset URI) n). rewrite <- Hempty.
      apply elem_of_union_l. by apply elem_of_singleton.
    + rewrite lookup_insert_ne by done. apply Hne.
  - intros x s. destruct (decide (x = n)) as [-> | Hx].
    + rewrite lookup_insert_eq. intros [= <-]. cbn. eauto.
    + rewrite lookup_insert_ne by done. apply Hatt.
Qed.

(** One network that left the routing domain, on the two maps. *)
Lemma tracker_ok_detach l3n idx n l3s :
  tracker_ok l3n idx →
  l3n !! n = Some l3s →
  tracker_ok (delete n l3n)
    (match l3s_natEpg l3s with
     | Some e => pruneNatIndex e n idx
     | None => idx
     end).
Proof.
  intros Hok Hn.
  destruct (tracker_ok_forget l3n idx n Hok) as [Hslot Hne].
  rewrite Hn in Hslot, Hne. cbn in Hslot, Hne.
  destruct Hok as (Hiff & _ & Hatt).
  split; [| split].
  - intros x e. rewrite Hslot. destruct (decide (x = n)) as [-> | Hx].
    + rewrite lookup_delete_eq. cbn. split; [done | by intros [_ ?]].
    + rewrite lookup_delete_ne by done. rewrite Hiff. tauto.
  - apply Hne.
  - intros x s. destruct (decide (x = n)) as [-> | Hx].
    + by rewrite lookup_delete_eq.
    + rewrite lookup_delete_ne by done. apply Hatt.
Qed.

Lemma updateL3Nets_net_tracker store rd acc net :
  (∀ r, l3n_natEPGroupRSrc net = Some r → is_Some (getTargetURI r)) →
  tracker_ok (l3n_map acc.1) (nat_epg_l3_ext acc.1) →
  tracker_ok (l3n_map (updateL3Nets_net store rd acc net).1)
             (nat_epg_l3_ext (updateL3Nets_net store rd acc net).1).
Proof.
  intros Htgt Hok. unfold updateL3Nets_net. cbv zeta.
  destruct (l3n_natEPGroupRSrc net) as [r|].
  - destruct (Htgt r eq_refl) as [e He]. rewrite He.
    match goal with
    | |- context [updateGroupContracts ?s ?t ?g ?a] =>
        destruct (updateGroupContracts_tracker s t g a) as (-> & -> & _)
    end.
    cbn. apply (tracker_ok_attach _ _ _ rd (Some e) Hok).
  - match goal with
    | |- context [updateGroupContracts ?s ?t ?g ?a] =>
        destruct (updateGroupContracts_tracker s t g a) as (-> & -> & _)
    end.
    cbn. apply (tracker_ok_attach _ _ _ rd None Hok).
Qed.

Lemma updateL3Nets_removed_tracker store newNets old : ∀ acc acc',
  tracker_ok (l3n_map acc.1) (nat_epg_l3_ext acc.1) →
  updateL3Nets_removed store newNets old acc = Done acc' →
  tracker_ok (l3n_map acc'.1) (nat_epg_l3_ext acc'.1).
Proof.
  induction old as [| net old IH]; intros acc acc' Hok Hrun; cbn in Hrun.
  - by injection Hrun as <-.
  - case_decide; [by eapply IH |].
    destruct (l3n_map acc.1 !! net) as [l3s|] eqn:Hnet; cbn in Hrun; [| done].
    eapply IH; [| exact Hrun].
    match goal with
    | |- context [updateGroupContracts ?s ?t ?g ?a] =>
        destruct (updateGroupContracts_tracker s t g a) as (-> & -> & _)
    end.
    cbn. by apply tracker_ok_detach.
Qed.

(** X13.  When the routing domain resolves and every NAT reference of its
    external networks has its target set, a run of [updateL3Nets] that
    completes keeps the NAT reverse index the mirror of the networks' NAT
    groups, with no empty slot, and keeps every network state attached to
    a routing domain. *)
Theorem updateL3Nets_keeps_nat_index store rdURI rd acc acc' :
  resolveRoutingDomain store rdURI = Some rd →
  nat_targets_set (networksOf rd) →
  nat_index_consistent acc.1 → l3n_attached acc.1 →
  updateL3Nets store rdURI acc = Done acc' →
  nat_index_consistent acc'.1 ∧ l3n_attached acc'.1.
Proof.
  intros Hrd Htgt Hcons Hatt Hrun.
  apply tracker_ok_consistent. unfold updateL3Nets in Hrun.
  rewrite Hrd in Hrun. cbv zeta in Hrun.
  fold (networksOf rd) in Hrun.
  match type of Hrun with
  | context [updateL3Nets_removed ?s ?n ?o ?a] =>
      destruct (updateL3Nets_removed s n o a) as [acc2| |] eqn:Hrem;
      cbn in Hrun; try done
  end.
  injection Hrun as <-. cbn.
  eapply updateL3Nets_removed_tracker; [| exact Hrem].
  clear Hrem.
  assert (Hstart : tracker_ok
                     (l3n_map (set_rd_map (ensure {| extNets := ∅ |} rdURI) acc.1))
                     (nat_epg_l3_ext
                        (set_rd_map (ensure {| extNets := ∅ |} rdURI) acc.1)))
    by (by apply tracker_ok_consistent).
  revert Htgt Hstart. unfold nat_targets_set.
  generalize (set_rd_map (ensure {| extNets := ∅ |} rdURI) acc.1) (acc.2).
  induction (networksOf rd) as [| net nets IH]; intros pm s Htgt Hstart;
    [done |].
  cbn [foldl]. 
  pose proof (updateL3Nets_net_tracker store rd (pm, s) net) as Hstep.
  destruct (updateL3Nets_net store rd (pm, s) net) as [pm1 s1].
  apply IH.
  - intros net' r Hin. apply Htgt. by apply list_elem_of_further.
  - apply Hstep; [| done]. intros r. apply Htgt, list_elem_of_here.
Qed.

(** X13 at the scenario of network [/n1] with NAT group [/g1]: when its
    NAT reference moves to [/g2], the index follows. *)
Lemma updateL3Nets_keeps_nat_index_witness :
  ∃ acc',
    updateL3Nets (NatIndex.store (Some (ref EpGroup_CLASS_ID "/g2"))) "/rd1"
      (NatIndex.attached, ∅) = Done acc'
    ∧ nat_index_consistent acc'.1 ∧ l3n_attached acc'.1.
Proof.
  destruct (updateL3Nets (NatIndex.store (Some (ref EpGroup_CLASS_ID "/g2")))
              "/rd1" (NatIndex.attached, ∅)) as [acc'| |] eqn:Hrun;
    [| vm_compute in Hrun; discriminate Hrun..].
  exists acc'. split; [reflexivity |].
  apply (updateL3Nets_keeps_nat_index
           (NatIndex.store (Some (ref EpGroup_CLASS_ID "/g2"))) "/rd1"
           (NatIndex.rd1 (Some (ref EpGroup_CLASS_ID "/g2")))
           (NatIndex.attached, ∅) acc').
  - reflexivity.
  - intros net r Hin Hr. cbn in Hin.
    apply list_elem_of_singleton in Hin as ->. injection Hr as <-.
    eexists. reflexivity.
  - apply NatIndex_attached_consistent.
  - intros n l3s Hn. cbn in Hn.
    apply lookup_singleton_Some in Hn as [_ <-]. eexists. reflexivity.
  - exact Hrun.
Defined.

(** ** [updateL3Nets]: what the tracker records *)

Lemma updateL3Nets_net_l3n store rd acc net :
  (∀ u, u ≠ l3n_uri net →
        l3n_map (updateL3Nets_net store rd acc net).1 !! u = l3n_map acc.1 !! u)
  ∧ (∃ l3s, l3n_map (updateL3Nets_net store rd acc net).1 !! l3n_uri net
            = Some l3s ∧ l3s_routingDomain l3s = Some rd)
  ∧ rd_map (updateL3Nets_net store rd acc net).1 = rd_map acc.1.
Proof.
  unfold updateL3Nets_net. cbv zeta.
  destruct (match l3n_natEPGroupRSrc net with Some _ => _ | None => _ end)
    as [natEpg' idx2].
  match goal with
  | |- context [updateGroupContracts ?s ?t ?g ?a] =>
      destruct (updateGroupContracts_tracker s t g a) as (-> & _ & ->)
  end.
  cbn. split; [intros u Hu; by rewrite lookup_insert_ne |].
  split; [| done]. eexists. by rewrite lookup_insert_eq.
Qed.

Lemma updateL3Nets_nets_l3n store rd nets : ∀ acc,
  (∀ u, u ∉ l3n_uri <$> nets →
        l3n_map (foldl (updateL3Nets_net store rd) acc nets).1 !! u
        = l3n_map acc.1 !! u)
  ∧ (∀ u, u ∈ l3n_uri <$> nets →
          ∃ l3s, l3n_map (foldl (updateL3Nets_net store rd) acc nets).1 !! u
                 = Some l3s ∧ l3s_routingDomain l3s = Some rd)
  ∧ rd_map (foldl (updateL3Nets_net store rd) acc nets).1 = rd_map acc.1.
Proof.
  induction nets as [| net nets IH]; intros acc; cbn [foldl fmap list_fmap].
  - split; [done |]. split; [by intros u ?%elem_of_nil | done].
  - destruct (updateL3Nets_net_l3n store rd acc net) as (Hother & Hat & Hrd).
    destruct (IH (updateL3Nets_net store rd acc net)) as (Hout & Hin & Hrd').
    split; [| split].
    + intros u [Hne Hu]%not_elem_of_cons. rewrite Hout by done. by apply Hother.
    + intros u Hu. destruct (decide (u ∈ l3n_uri <$> nets)) as [| Hnot];
        [by apply Hin |].
      apply elem_of_cons in Hu as [-> | Hu]; [| done].
      by rewrite Hout.
    + by rewrite Hrd'.
Qed.

Lemma updateL3Nets_removed_l3n store newNets old : ∀ acc acc',
  updateL3Nets_removed store newNets old acc = Done acc' →
  (∀ u, u ∈ old → u ∉ newNets → l3n_map acc'.1 !! u = None)
  ∧ (∀ u, ¬ (u ∈ old ∧ u ∉ newNets) →
          l3n_map acc'.1 !! u = l3n_map acc.1 !! u)
  ∧ rd_map acc'.1 = rd_map acc.1.
Proof.
  induction old as [| net old IH]; intros acc acc' Hrun; cbn in Hrun.
  - injection Hrun as <-. split; [by intros u ?%elem_of_nil | done].
  - case_decide as Hnew.
    + destruct (IH _ _ Hrun) as (Hgone & Hkept & Hrd).
      split; [| split; [| done]].
      * intros u [-> | Hu]%elem_of_cons Hu'; [done | by apply Hgone].
      * intros u Hu. apply Hkept. intros [? ?]. apply Hu.
        split; [by apply list_elem_of_further | done].
    + destruct (l3n_map acc.1 !! net) as [l3s|] eqn:Hnet; cbn in Hrun; [| done].
      destruct (IH _ _ Hrun) as (Hgone & Hkept & Hrd).
      match type of Hkept with
      | context [updateGroupContracts ?s ?t ?g ?a] =>
          destruct (updateGroupContracts_tracker s t g a) as (Hl & _ & Hr);
          rewrite Hr in Hrd; setoid_rewrite Hl in Hkept
      end.
      cbn in Hkept, Hrd. split; [| split; [| done]].
      * intros u Hu Hu'. destruct (decide (u ∈ old)) as [| Hnot];
          [by apply Hgone |].
        apply elem_of_cons in Hu as [-> | Hu]; [| done].
        rewrite Hkept by (by intros [? _]). apply lookup_delete_eq.
      * intros u Hu. rewrite Hkept.
        -- apply lookup_delete_ne. intros <-. apply Hu.
           split; [apply list_elem_of_here | done].
        -- intros [? ?]. apply Hu.
           split; [by apply list_elem_of_further | done].
Qed.

Lemma updateL3Nets_dropped_l3n store old : ∀ acc,
  let res :=
    foldl (fun a net =>
             updateGroupContracts store L3ExternalNetwork_CLASS_ID net
               (set_l3n_map (delete net) a.1, a.2)) acc old in
  (∀ u, u ∈ old → l3n_map res.1 !! u = None)
  ∧ (∀ u, u ∉ old → l3n_map res.1 !! u = l3n_map acc.1 !! u)
  ∧ rd_map res.1 = rd_map acc.1.
Proof.
  induction old as [| net old IH]; intros acc res; unfold res; cbn [foldl].
  - split; [by intros u ?%elem_of_nil | done].
  - match goal with
    | |- context [updateGroupContracts ?s ?t ?g ?a] =>
        destruct (IH (updateGroupContracts s t g a)) as (Hgone & Hkept & Hrd);
        destruct (updateGroupContracts_tracker s t g a) as (Hl & _ & Hr)
    end.
    cbv zeta in Hgone, Hkept, Hrd. rewrite Hr in Hrd.
    setoid_rewrite Hl in Hkept. cbn in Hkept, Hrd.
    split; [| split; [| done]].
    + intros u Hu. destruct (decide (u ∈ old)) as [| Hnot]; [by apply Hgone |].
      apply elem_of_cons in Hu as [-> | Hu]; [| done].
      rewrite Hkept by done. apply lookup_delete_eq.
    + intros u [Hne Hu]%not_elem_of_cons. rewrite Hkept by done.
      by apply lookup_delete_ne.
Qed.

(** X14.  What a completed [updateL3Nets] leaves in the tracker.  When the
    routing domain resolves, it is recorded with the URIs of its external
    networks, [getRDForL3ExtNet] answers with it for each of them, and the
    networks recorded before that it no longer has are forgotten.  When it
    does not resolve, its record and those of the networks recorded for it
    are erased.  Nothing else is touched. *)
Theorem updateL3Nets_tracks store rdURI acc acc' :
  updateL3Nets store rdURI acc = Done acc' →
  match resolveRoutingDomain store rdURI with
  | Some rd =>
      rd_map acc'.1 !! rdURI
      = Some {| extNets := list_to_set (l3n_uri <$> networksOf rd) |}
      ∧ (∀ net, net ∈ networksOf rd →
                getRDForL3ExtNet acc'.1 (l3n_uri net) = Some rd)
      ∧ (∀ u, u ∈ recordedNets acc.1 rdURI →
              u ∉ l3n_uri <$> networksOf rd → l3n_map acc'.1 !! u = None)
      ∧ (∀ u, u ∉ recordedNets acc.1 rdURI →
              u ∉ l3n_uri <$> networksOf rd →
              l3n_map acc'.1 !! u = l3n_map acc.1 !! u)
  | None =>
      rd_map acc'.1 !! rdURI = None
      ∧ (∀ u, u ∈ recordedNets acc.1 rdURI → l3n_map acc'.1 !! u = None)
      ∧ (∀ u, u ∉ recordedNets acc.1 rdURI →
              l3n_map acc'.1 !! u = l3n_map acc.1 !! u)
  end
  ∧ ∀ r, r ≠ rdURI → rd_map acc'.1 !! r = rd_map acc.1 !! r.
Proof.
  unfold updateL3Nets, recordedNets. cbv zeta. intros Hrun.
  destruct (resolveRoutingDomain store rdURI) as [rd|].
  - fold (networksOf rd) in Hrun.
    match type of Hrun with
    | context [updateL3Nets_removed ?s ?n ?o ?a] =>
        destruct (updateL3Nets_removed s n o a) as [acc2| |] eqn:Hrem;
        cbn in Hrun; try done;
        apply updateL3Nets_removed_l3n in Hrem as (Hgone & Hkept & Hrd)
    end.
    injection Hrun as <-. cbn [fst l3n_map rd_map set_rd_map].
    match type of Hrd with
    | context [foldl (updateL3Nets_net store rd) ?a (networksOf rd)] =>
        destruct (updateL3Nets_nets_l3n store rd (networksOf rd) a)
          as (Hout & Hin & Hrd0)
    end.
    rewrite Hrd0 in Hrd. cbn in Hrd, Hout.
    split; [split; [| split; [| split]] |].
    + by rewrite lookup_insert_eq.
    + intros net Hnet. unfold getRDForL3ExtNet. cbn.
      assert (Hu : l3n_uri net ∈ l3n_uri <$> networksOf rd)
        by (apply list_elem_of_fmap; eauto).
      rewrite Hkept.
      * by destruct (Hin _ Hu) as (l3s & -> & ->).
      * intros [_ Hnot]. apply Hnot. by apply elem_of_list_to_set.
    + intros u Hold Hnew. cbn. apply Hgone.
      * by apply elem_of_elements.
      * by rewrite elem_of_list_to_set.
    + intros u Hold Hnew. cbn. rewrite Hkept.
      * by apply Hout.
      * intros [Hu%elem_of_elements _]. done.
    + intros r Hr. rewrite lookup_insert_ne by done. rewrite Hrd.
      unfold ensure. by rewrite lookup_insert_ne.
  - injection Hrun as <-. cbn [fst l3n_map rd_map set_rd_map].
    match goal with
    | |- context [foldl ?f ?a (elements ?o)] =>
        destruct (updateL3Nets_dropped_l3n store (elements o) a)
          as (Hgone & Hkept & Hrd)
    end.
    cbv zeta in Hgone, Hkept, Hrd. cbn in Hkept, Hrd.
    split; [split; [| split] |].
    + apply lookup_delete_eq.
    + intros u Hu. cbn. apply Hgone. by apply elem_of_elements.
    + intros u Hu. cbn. apply Hkept. by rewrite elem_of_elements.
    + intros r Hr. cbn. rewrite lookup_delete_ne by done. rewrite Hrd.
      unfold ensure. by rewrite lookup_insert_ne.
Qed.

(** X14 at the scenario of network [/n1] under [/rd1]: after the first
    [updateL3Nets] the network answers with its routing domain. *)
Lemma updateL3Nets_tracks_witness :
  ∃ acc',
    updateL3Nets (NatIndex.store NatIndex.toG1) "/rd1" (initialManager, ∅)
      = Done acc'
    ∧ getRDForL3ExtNet acc'.1 "/n1" = Some (NatIndex.rd1 NatIndex.toG1).
Proof.
  destruct (updateL3Nets (NatIndex.store NatIndex.toG1) "/rd1"
              (initialManager, ∅)) as [acc'| |] eqn:Hrun;
    [| vm_compute in Hrun; discriminate Hrun..].
  exists acc'. split; [reflexivity |].
  destruct (updateL3Nets_tracks (NatIndex.store NatIndex.toG1) "/rd1"
              (initialManager, ∅) acc' Hrun) as [(_ & Hnets & _) _].
  apply (Hnets (NatIndex.n1 NatIndex.toG1)). apply list_elem_of_here.
Defined.

(** ** Redirect groups *)

Lemma actionStep_grps store a r :
  actRedirGrps a ⊆ actRedirGrps (actionStep store a r)
  ∧ ((∀ d, destGrpUri a = Some d → d ∈ actRedirGrps a) →
     ∀ d, destGrpUri (actionStep store a r) = Some d →
          d ∈ actRedirGrps (actionStep store a r)).
Proof.
  unfold actionStep. destruct (rsrc_target r) as [[c u]|]; [| done].
  case_decide.
  { destruct (resolveAllowDenyAction store u) as [act|]; [| done].
    by case_match. }
  case_decide; [| done].
  destruct (resolveRedirectAction store u ≫= ra_destGrpRSrc) as [destRef|];
    cbn; [| done].
  destruct (getTargetURI destRef) as [d0|]; cbn.
  - split; [apply union_subseteq_r |].
    intros _ d [= <-]. apply elem_of_union_l. by apply elem_of_singleton.
  - by split.
Qed.

Lemma resolveActions_grps store actRel redirGrps :
  redirGrps ⊆ actRedirGrps (resolveActions store actRel redirGrps)
  ∧ ∀ d, destGrpUri (resolveActions store actRel redirGrps) = Some d →
         d ∈ actRedirGrps (resolveActions store actRel redirGrps).
Proof.
  unfold resolveActions.
  set (a0 := {| ruleAllow := true; ruleRedirect := false; minOrder := UINT32_MAX;
                destGrpUri := None; actRedirGrps := redirGrps |}).
  assert (H0 : redirGrps ⊆ actRedirGrps a0
               ∧ ∀ d, destGrpUri a0 = Some d → d ∈ actRedirGrps a0) by done.
  revert H0. generalize a0. clear a0.
  induction actRel as [| r actRel IH]; intros a [Hsub Hdest]; [done |].
  cbn [foldl]. apply IH. destruct (actionStep_grps store a r) as [Hs Hd].
  split; [by etrans | by apply Hd].
Qed.

Section Collected.
Context {Parent Subject Rule : Type} `{!PolicyFamily Parent Subject Rule}.

Lemma compileRule_collected store acc (r : Rule) :
  redirects_collected acc.2 → redirects_collected (compileRule store acc r).2.
Proof.
  unfold redirects_collected, compileRule. intros Hacc.
  destruct (getRuleDirection r) as [dir|]; [| done]. cbn.
  destruct (resolveActions_grps store (resolveRuleToActionRSrc r)
              (newRedirGrps acc.2)) as [Hsub Hdest].
  intros x u [Hx | Hx]%elem_of_app Hu.
  - by eapply Hsub, Hacc.
  - apply emitRule_flags in Hx as (_ & _ & _ & Hx).
    apply Hdest. congruence.
Qed.

Lemma compileParent_collected store (parent : Parent) cst :
  redirects_collected cst →
  redirects_collected (compileParent store parent cst).
Proof.
  intros Hcst. unfold compileParent.
  apply (foldl_preserves redirects_collected); [| done].
  intros cst' sub Hcst'. unfold compileSubject, compileRules.
  apply (foldl_preserves (fun acc => redirects_collected acc.2)); [| done].
  intros acc r. apply compileRule_collected.
Qed.
End Collected.

(** The two loops of [updateContractRules] over the redirect groups. *)
Lemma register_loop c u l : ∀ m : gmap URI RedirectDestGrpState,
  u ∈ l ∨ (∃ s, m !! u = Some s ∧ c ∈ ctrctSet s) →
  ∃ s, foldl (fun m u =>
                <[u := set_ctrctSet (fun cset => {[c]} ∪ cset)
                         (index_or emptyRedirectDestGrpState u m)]> m) m l !! u
       = Some s ∧ c ∈ ctrctSet s.
Proof.
  induction l as [| v l IH]; intros m Hu; cbn [foldl].
  - destruct Hu as [?%elem_of_nil | ?]; done.
  - apply IH. destruct (decide (u = v)) as [<- | Hne].
    + right. eexists. rewrite lookup_insert_eq. split; [done |].
      cbn. apply elem_of_union_l. by apply elem_of_singleton.
    + destruct Hu as [[? | ?]%elem_of_cons | (s & Hs & Hc)];
        [done | by left |].
      right. exists s. by rewrite lookup_insert_ne.
Qed.

Lemma updatePolicyRules_resolved store c contract (old : rule_list_t) heap :
  resolveContract store c = Some contract →
  let r := updatePolicyRules (Parent := Contract) store c old ∅ ∅ heap in
  let cst := compileParent store contract (startCompile ∅ heap) in
  res_newRedirGrps r = newRedirGrps cst
  ∧ res_rules r = if res_updated r then newRules cst else old.
Proof.
  intros Hc. unfold updatePolicyRules. cbn [resolveParent ContractFamily].
  by rewrite Hc.
Qed.

(** X15.  After [updateContractRules] for a contract that resolves, the
    contract is registered in [ctrctSet] of every redirect group that one
    of its rules names, so that a change of the group reaches it. *)
Theorem updateContractRules_registers_redirects store c pm contract x u :
  rules_allocated pm →
  resolveContract store c = Some contract →
  x ∈ getContractRules (updateContractRules store c pm).2 c →
  redirDstGrpURI (deref x) = Some u →
  registered (updateContractRules store c pm).2 c u.
Proof.
  intros Halloc Hc Hx Hu.
  set (cs := index_or emptyContractState c (contractMap pm)).
  assert (Hold : Forall (fun r => (get r < heap_next pm)%positive) (rules cs)).
  { unfold cs, index_or. destruct (contractMap pm !! c) as [cs0|] eqn:Hcs;
      [by eapply Halloc | constructor]. }
  set (cst := compileParent store contract (startCompile ∅ (heap_next pm))).
  assert (Hcol : redirects_collected cst).
  { apply compileParent_collected. by intros ? ? ?%elem_of_nil. }
  unfold getContractRules in Hx.
  destruct (updateContractRules_result store c pm) as (Hm & _ & _).
  cbv zeta in Hm. rewrite Hm, lookup_insert_eq in Hx. cbn in Hx.
  fold cs in Hx.
  destruct (updatePolicyRules_resolved store c contract (rules cs)
              (heap_next pm) Hc) as [Hnew Hrules].
  cbv zeta in Hnew, Hrules. fold cst in Hnew, Hrules.
  rewrite Hrules in Hx.
  assert (Hin : x ∈ newRules cst).
  { destruct (res_updated _) eqn:Hup; [done |].
    apply (updatePolicyRules_reports_change store c contract) in Hup
      as [Hnil _]; [| done | done].
    rewrite Hnil in Hx. by apply elem_of_nil in Hx. }
  unfold registered, updateContractRules. cbv zeta. cbn [snd redirGrpMap].
  fold cs. rewrite Hnew.
  apply register_loop. left. apply elem_of_elements. by eapply Hcol.
Qed.

(** X15 at the scenario of contract [/c2], whose rule redirects to [/rg]:
    compiling it on a fresh manager registers it with [/rg]. *)
Lemma updateContractRules_registers_redirects_witness :
  registered (updateContractRules Redirecting.store "/c2" initialManager).2
    "/c2" "/rg".
Proof.
  apply (updateContractRules_registers_redirects Redirecting.store "/c2"
           initialManager (Compiled.redirecting [Compiled.toRedirect])
           {| get := 1%positive;
              deref := Compiled.policyRule Compiled.CONST_IN 8192 Compiled.X
                         false true (Some "/rg") |}).
  - intros c cs Hc. cbn in Hc. by rewrite lookup_empty in Hc.
  - reflexivity.
  - vm_compute. apply list_elem_of_here.
  - reflexivity.
Defined.

Section RedirectResults.
Variable from_string : string → option Z.
Variable CONST_SYMMETRIC : Z.

Lemma resolveRedirectDest_made store redirDest d :
  resolveRedirectDest from_string store redirDest = Done (Some d) →
  made_from from_string d redirDest.
Proof.
  unfold resolveRedirectDest.
  destruct (dd_bdInst _) as [bdInst|]; [| done].
  destruct (dd_rdInst _) as [rdInst|]; [| done].
  destruct (rdst_ip redirDest) as [ip|] eqn:Hip; [| done].
  destruct (rdst_mac redirDest) as [mac|] eqn:Hmac; [| done].
  destruct (from_string ip) as [addr|] eqn:Haddr; [| done].
  destruct (dd_rd _) as [rd|]; [| done].
  destruct (dd_bd _) as [bd|]; [| done].
  cbn. intros [= <-]. unfold made_from. cbn. by rewrite Hip.
Qed.

Lemma resolveRedirectDests_made store redirDests : ∀ heap l heap',
  resolveRedirectDests from_string store redirDests heap = Done (l, heap') →
  ∀ d, d ∈ l →
       ∃ redirDest, redirDest ∈ redirDests
                    ∧ made_from from_string (deref d) redirDest.
Proof.
  induction redirDests as [| redirDest rest IH]; intros heap l heap' Hrun;
    cbn [resolveRedirectDests] in Hrun.
  - injection Hrun as <- <-. by intros d ?%elem_of_nil.
  - destruct (resolveRedirectDest from_string store redirDest)
      as [[prd|]| |] eqn:Hd; cbn in Hrun; try done.
    + destruct (resolveRedirectDests from_string store rest (Pos.succ heap))
        as [[l1 h1]| |] eqn:Hrest; cbn in Hrun; try done.
      injection Hrun as <- <-.
      intros d [-> | Hin]%elem_of_cons.
      * exists redirDest. split; [apply list_elem_of_here |].
        exact (resolveRedirectDest_made store _ _ Hd).
      * destruct (IH _ _ _ Hrest d Hin) as (rd0 & Hin0 & Hmade).
        exists rd0. split; [by apply list_elem_of_further | done].
    + intros d Hin. destruct (IH _ _ _ Hrun d Hin) as (rd0 & Hin0 & Hmade).
      exists rd0. split; [by apply list_elem_of_further | done].
Qed.

(** The entry [updateRedirectDestGroup] leaves for the group. *)
Lemma updateRedirectDestGroup_stored store uri acc acc' :
  updateRedirectDestGroup from_string CONST_SYMMETRIC store uri acc = Done acc' →
  match resolveRedirectDestGroup store uri with
  | Some _ =>
      ∃ s, redirGrpMap acc'.1 !! uri = Some s ∧ ascending (redirDstList s)
  | None => redirGrpMap acc'.1 !! uri = None
  end.
Proof.
  unfold updateRedirectDestGroup.
  destruct (resolveRedirectDestGroup store uri) as [grp|].
  - destruct (resolveRedirectDests from_string store (rdg_redirectDest grp)
                (heap_next acc.1)) as [[l h]| |]; cbn; try done.
    intros [= <-]. cbn. rewrite lookup_insert_eq.
    eexists. split; [done |]. apply stable_sort_sorted.
  - intros [= <-]. cbn. apply lookup_delete_eq.
Qed.

(** X16.  [updateRedirectDestGroup] and [getPolicyDestGroup]: for a group
    that resolves, the query then returns the hash settings of the group
    with their defaults and a destination list in ascending order of
    address, each entry made from a destination of the group whose address
    parses and whose MAC is set; for a group that does not resolve, the
    query returns nothing and every contract registered with the group is
    put in [notifyGroup]. *)
Theorem updateRedirectDestGroup_result store uri acc acc' :
  updateRedirectDestGroup from_string CONST_SYMMETRIC store uri acc = Done acc' →
  match resolveRedirectDestGroup store uri with
  | Some grp =>
      ∃ l, getPolicyDestGroup acc'.1 uri
           = Some (l, default 1 (rdg_resilientHashEnabled grp),
                   default CONST_SYMMETRIC (rdg_hashAlgo grp))
           ∧ ascending l
           ∧ ∀ d, d ∈ l →
                  ∃ redirDest, redirDest ∈ rdg_redirectDest grp
                               ∧ made_from from_string (deref d) redirDest
  | None =>
      getPolicyDestGroup acc'.1 uri = None
      ∧ ∀ c, registered acc.1 c uri → c ∈ acc'.2
  end.
Proof.
  unfold updateRedirectDestGroup, getPolicyDestGroup.
  destruct (resolveRedirectDestGroup store uri) as [grp|].
  - destruct (resolveRedirectDests from_string store (rdg_redirectDest grp)
                (heap_next acc.1)) as [[l h]| |] eqn:Hl; cbn; try done.
    intros [= <-]. cbn. rewrite lookup_insert_eq. cbn.
    eexists. split; [done |]. split; [apply stable_sort_sorted |].
    intros d Hd. rewrite stable_sort_perm in Hd.
    exact (resolveRedirectDests_made store _ _ _ _ Hl d Hd).
  - intros [= <-]. cbn. rewrite lookup_delete_eq. split; [done |].
    intros c (s & Hs & Hc). unfold index_or. rewrite Hs.
    by apply elem_of_union_l.
Qed.
End RedirectResults.

(** X16 at the redirect scenario: the destinations of [/rg] come out in
    ascending order. *)
Lemma updateRedirectDestGroup_result_witness :
  ∃ acc' l,
    Redirecting.update (Redirecting.compiled, ∅) = Done acc'
    ∧ getPolicyDestGroup acc'.1 "/rg" = Some (l, 1, Redirecting.CONST_SYMMETRIC)
    ∧ ascending l.
Proof.
  destruct (Redirecting.update (Redirecting.compiled, ∅)) as [acc'| |] eqn:Hrun;
    [| vm_compute in Hrun; discriminate Hrun..].
  destruct (updateRedirectDestGroup_result Redirecting.parse
              Redirecting.CONST_SYMMETRIC Redirecting.store "/rg"
              (Redirecting.compiled, ∅) acc' Hrun) as (l & Hq & Hsorted & _).
  exists acc', l. split; [reflexivity |]. split; [exact Hq | exact Hsorted].
Defined.

Section AllRedirectGroupsResults.
Variable from_string : string → option Z.
Variable CONST_SYMMETRIC : Z.

Lemma updateRedirectDestGroup_other store uri acc acc' u :
  updateRedirectDestGroup from_string CONST_SYMMETRIC store uri acc = Done acc' →
  u ≠ uri → redirGrpMap acc'.1 !! u = redirGrpMap acc.1 !! u.
Proof.
  unfold updateRedirectDestGroup. intros Hrun Hu.
  destruct (resolveRedirectDestGroup store uri) as [grp|].
  - destruct (resolveRedirectDests _ _ _ _) as [[l h]| |]; cbn in Hrun;
      try done.
    injection Hrun as <-. cbn. by rewrite lookup_insert_ne.
  - injection Hrun as <-. cbn. by rewrite lookup_delete_ne.
Qed.

Lemma updateRedirectDestGroups_loop_spec store keys : ∀ acc acc',
  updateRedirectDestGroups_loop from_string CONST_SYMMETRIC store keys acc
    = Done acc' →
  ∀ u, (u ∉ keys → redirGrpMap acc'.1 !! u = redirGrpMap acc.1 !! u)
       ∧ (u ∈ keys →
          is_Some (resolveRedirectDestGroup store u)
          ∧ ∃ l hashParam hashOpt,
              getPolicyDestGroup acc'.1 u = Some (l, hashParam, hashOpt)
              ∧ ascending l).
Proof.
  induction keys as [| k keys IH]; intros acc acc' Hrun u;
    cbn [updateRedirectDestGroups_loop] in Hrun.
  - injection Hrun as <-. split; [done | by intros ?%elem_of_nil].
  - destruct (updateRedirectDestGroup from_string CONST_SYMMETRIC store k acc)
      as [acc1| |] eqn:Hk; cbn in Hrun; try done.
    case_decide as Hkept; [| done].
    destruct (IH _ _ Hrun u) as [Hout Hin]. split.
    + intros [Hne Hu]%not_elem_of_cons. rewrite Hout by done.
      by eapply updateRedirectDestGroup_other.
    + intros Hu. destruct (decide (u ∈ keys)) as [| Hnot]; [by apply Hin |].
      apply elem_of_cons in Hu as [-> | Hu]; [| done].
      pose proof (updateRedirectDestGroup_stored from_string CONST_SYMMETRIC
                    store k acc acc1 Hk) as Hres.
      unfold getPolicyDestGroup. rewrite (Hout Hnot).
      destruct (resolveRedirectDestGroup store k) as [grp|].
      * split; [eauto |]. destruct Hres as (s & -> & Hsorted). eauto.
      * destruct Hkept as [s Hs]. by rewrite Hs in Hres.
Qed.

(** X17.  A run of [updateRedirectDestGroups] that completes has found an
    object for every redirect group the manager knew, keeps exactly those
    groups, and leaves each of them with its destinations in ascending
    order of address. *)
Theorem updateRedirectDestGroups_completed store acc acc' u :
  updateRedirectDestGroups from_string CONST_SYMMETRIC store acc = Done acc' →
  (is_Some (redirGrpMap acc'.1 !! u) ↔ is_Some (redirGrpMap acc.1 !! u))
  ∧ (is_Some (redirGrpMap acc.1 !! u) →
     is_Some (resolveRedirectDestGroup store u)
     ∧ ∃ l hashParam hashOpt,
         getPolicyDestGroup acc'.1 u = Some (l, hashParam, hashOpt)
         ∧ ascending l).
Proof.
  unfold updateRedirectDestGroups. intros Hrun.
  destruct (updateRedirectDestGroups_loop_spec store _ _ _ Hrun u)
    as [Hout Hin].
  assert (Hkeys : u ∈ (map_to_list (redirGrpMap acc.1)).*1
                  ↔ is_Some (redirGrpMap acc.1 !! u)).
  { rewrite list_elem_of_fmap. split.
    - intros ([u' s] & -> & Hs%elem_of_map_to_list). eauto.
    - intros [s Hs]. exists (u, s). split; [done |].
      by apply elem_of_map_to_list. }
  rewrite Hkeys in Hin. split; [| done].
  destruct (decide (is_Some (redirGrpMap acc.1 !! u))) as [Hk | Hk].
  - split; [done |]. intros _.
    destruct (Hin Hk) as (_ & l & a & b & Hq & _).
    unfold getPolicyDestGroup in Hq.
    destruct (redirGrpMap acc'.1 !! u); [eauto | done].
  - rewrite Hout by (by rewrite Hkeys). done.
Qed.
End AllRedirectGroupsResults.

(** X17 at the redirect scenario, where [/rg] is the one group known. *)
Lemma updateRedirectDestGroups_completed_witness :
  ∃ acc',
    updateRedirectDestGroups Redirecting.parse Redirecting.CONST_SYMMETRIC
      Redirecting.store (Redirecting.compiled, ∅) = Done acc'
    ∧ is_Some (resolveRedirectDestGroup Redirecting.store "/rg")
    ∧ ∃ l hashParam hashOpt,
        getPolicyDestGroup acc'.1 "/rg" = Some (l, hashParam, hashOpt)
        ∧ ascending l.
Proof.
  destruct (updateRedirectDestGroups Redirecting.parse
              Redirecting.CONST_SYMMETRIC Redirecting.store
              (Redirecting.compiled, ∅)) as [acc'| |] eqn:Hrun;
    [| vm_compute in Hrun; discriminate Hrun..].
  exists acc'. split; [reflexivity |].
  destruct (updateRedirectDestGroups_completed Redirecting.parse
              Redirecting.CONST_SYMMETRIC Redirecting.store
              (Redirecting.compiled, ∅) acc' "/rg" Hrun) as [_ Hknown].
  apply Hknown. vm_compute. by eexists.
Defined.

(** ** Subnet lookup *)

(** Masking with [~0u << s] clears the [s] low bits of a 32-bit value. *)
Lemma land_mask32 n s :
  0 ≤ n < 2 ^ 32 → 0 ≤ s →
  Z.land n (wrap32 (Z.shiftl UINT32_MAX s)) = Z.shiftl (Z.shiftr n s) s.
Proof.
  intros Hn Hs. apply Z.bits_inj'. intros j Hj.
  rewrite Z.land_spec, Z.shiftl_spec by done. unfold wrap32.
  change UINT32_MAX with (Z.ones 32).
  destruct (Z.lt_ge_cases j 32) as [Hlt | Hge].
  - rewrite Z.mod_pow2_bits_low by lia. rewrite Z.shiftl_spec by done.
    destruct (Z.lt_ge_cases j s) as [Hjs | Hjs].
    + rewrite !(Z.testbit_neg_r _ (j - s)) by lia. apply andb_false_r.
    + rewrite Z.ones_spec_low by lia. rewrite andb_true_r.
      rewrite Z.shiftr_spec by lia. f_equal. lia.
  - rewrite Z.mod_pow2_bits_high by lia. rewrite andb_false_r.
    destruct (Z.lt_ge_cases j s) as [Hjs | Hjs].
    + by rewrite Z.testbit_neg_r by lia.
    + rewrite Z.shiftr_spec by lia. replace (j - s + s) with j by lia.
      rewrite <- (Z.mod_small n (2 ^ 32)) by done.
      by rewrite Z.mod_pow2_bits_high by lia.
Qed.

(** The comparison of the version-4 branch holds exactly when the two
    addresses agree on the leading bits the capped prefix length counts. *)
Lemma v4_in_subnet_spec n i p :
  0 ≤ n < 2 ^ 32 → 0 ≤ i < 2 ^ 32 →
  v4_in_subnet n i p = true ↔ same_prefix (Z.min p 32) n i.
Proof.
  intros Hn Hi. unfold v4_in_subnet, same_prefix. cbv zeta.
  assert (Hk : (if 32 <? p then 32 else p) = Z.min p 32)
    by (destruct (Z.ltb_spec 32 p); lia).
  rewrite Hk. set (k := Z.min p 32). assert (k ≤ 32) by lia.
  rewrite Z.eqb_eq.
  destruct (Z.eqb_spec k 0) as [Hk0 | Hk0]; cbn [negb].
  - rewrite !Z.land_0_r, Hk0. change (32 - 0) with 32.
    rewrite !Z.shiftr_div_pow2, !Z.div_small by lia. done.
  - rewrite !land_mask32 by lia.
    rewrite !Z.shiftl_mul_pow2 by lia. split; [| by intros ->].
    apply Z.mul_reg_r. apply Z.pow_nonzero; lia.
Qed.

Section SubnetLookupResults.
Variable from_string : string → address.
Variable compute_ipv6_subnet : Z → Z → Z * Z.
Hypothesis from_string_v4 : ∀ s n, from_string s = address_v4 n → 0 ≤ n < 2 ^ 32.

Lemma findSubnet_v4 subnets i :
  0 ≤ i < 2 ^ 32 →
  match findSubnet from_string compute_ipv6_subnet subnets (address_v4 i) with
  | Some sn =>
      sn ∈ subnets
      ∧ ∃ a p n, sn_address sn = Some a ∧ sn_prefixLen sn = Some p
                 ∧ from_string a = address_v4 n
                 ∧ same_prefix (Z.min p 32) n i
  | None =>
      ∀ sn a p n, sn ∈ subnets → sn_address sn = Some a →
                  sn_prefixLen sn = Some p → from_string a = address_v4 n →
                  ¬ same_prefix (Z.min p 32) n i
  end.
Proof.
  intros Hi. induction subnets as [| sn rest IH]; cbn [findSubnet].
  - by intros sn a p n ?%elem_of_nil.
  - assert (Hskip :
      (∀ a p n, sn_address sn = Some a → sn_prefixLen sn = Some p →
                from_string a = address_v4 n →
                ¬ same_prefix (Z.min p 32) n i) →
      match findSubnet from_string compute_ipv6_subnet rest (address_v4 i) with
      | Some sn0 =>
          sn0 ∈ sn :: rest
          ∧ ∃ a p n, sn_address sn0 = Some a ∧ sn_prefixLen sn0 = Some p
                     ∧ from_string a = address_v4 n
                     ∧ same_prefix (Z.min p 32) n i
      | None =>
          ∀ sn0 a p n, sn0 ∈ sn :: rest → sn_address sn0 = Some a →
                       sn_prefixLen sn0 = Some p →
                       from_string a = address_v4 n →
                       ¬ same_prefix (Z.min p 32) n i
      end).
    { intros Hsn.
      destruct (findSubnet from_string compute_ipv6_subnet rest (address_v4 i))
        as [sn0|].
      - destruct IH as [Hin Hrest]. split; [by apply list_elem_of_further | done].
      - intros sn0 a p n [-> | Hin]%elem_of_cons; [apply Hsn | by apply IH]. }
    destruct (sn_address sn) as [a|] eqn:Ha; [| by apply Hskip].
    destruct (sn_prefixLen sn) as [p|] eqn:Hp; [| by apply Hskip].
    cbv zeta.
    destruct (from_string a) as [n | n] eqn:Hn; cbn [is_v4 eqb negb];
      [| apply Hskip; intros ? ? ? [= <-] _ ?; congruence].
    destruct (v4_in_subnet n i p) eqn:Hm.
    + split; [apply list_elem_of_here |]. exists a, p, n.
      repeat split; try done.
      apply v4_in_subnet_spec; [by eapply from_string_v4 | done | done].
    + apply Hskip. intros a' p' n' [= <-] [= <-] Hn' Hsame.
      rewrite Hn in Hn'. injection Hn' as <-.
      apply v4_in_subnet_spec in Hsame; [congruence | by eapply from_string_v4 | done].
Qed.

(** X18.  [findSubnetForEp] on a version-4 address: a subnet it returns is
    a subnet of the group with address and prefix length set, whose
    version-4 address agrees with the endpoint's on the leading
    [min(prefixLen, 32)] bits; when it returns nothing, no subnet of the
    group is such a subnet. *)
Theorem findSubnetForEp_v4 pm eg i :
  0 ≤ i < 2 ^ 32 →
  match findSubnetForEp from_string compute_ipv6_subnet pm eg (address_v4 i) with
  | Some sn =>
      ∃ gs p n, group_map pm !! eg = Some gs
                ∧ v4_subnet_of from_string gs sn p n
                ∧ same_prefix (Z.min p 32) n i
  | None =>
      ∀ gs sn p n, group_map pm !! eg = Some gs →
                   v4_subnet_of from_string gs sn p n →
                   ¬ same_prefix (Z.min p 32) n i
  end.
Proof.
  intros Hi. unfold findSubnetForEp, v4_subnet_of.
  destruct (group_map pm !! eg) as [gs|]; [| done].
  pose proof (findSubnet_v4 (map_to_list (subnet_map gs)).*2 i Hi) as Hloop.
  assert (Hin : ∀ sn, sn ∈ (map_to_list (subnet_map gs)).*2
                      ↔ ∃ u, subnet_map gs !! u = Some sn).
  { intros sn. rewrite list_elem_of_fmap. split.
    - intros ([u sn'] & -> & Hu%elem_of_map_to_list). eauto.
    - intros [u Hu]. exists (u, sn). split; [done |].
      by apply elem_of_map_to_list. }
  destruct (findSubnet _ _ _ _) as [sn|].
  - destruct Hloop as (Hsn & a & p & n & Ha & Hp & Hn & Hsame).
    exists gs, p, n. repeat split; try done; [by apply Hin | eauto].
  - intros gs' sn p n [= <-] (Hsn & Hp & a & Ha & Hn).
    eapply Hloop; try done. by apply Hin.
Qed.
End SubnetLookupResults.

(** X18 at a group with the subnet 10.0.0.0/24: the endpoint 10.0.0.5 is
    found in it. *)
Lemma findSubnetForEp_v4_witness :
  findSubnetForEp Subnetting.parse Subnetting.subnet6 Subnetting.manager "/g1"
    (address_v4 167772165) = Some Subnetting.net24
  ∧ same_prefix 24 167772160 167772165.
Proof.
  assert (Hparse : ∀ s n, Subnetting.parse s = address_v4 n → 0 ≤ n < 2 ^ 32).
  { intros s n. unfold Subnetting.parse. case_decide; intros [= <-]; lia. }
  pose proof (findSubnetForEp_v4 Subnetting.parse Subnetting.subnet6 Hparse
                Subnetting.manager "/g1" 167772165 ltac:(lia)) as Hfound.
  destruct (findSubnetForEp Subnetting.parse Subnetting.subnet6
              Subnetting.manager "/g1" (address_v4 167772165)) as [sn|] eqn:Hsn;
    [| vm_compute in Hsn; discriminate Hsn].
  vm_compute in Hsn. injection Hsn as <-. split; [reflexivity |].
  destruct Hfound as (gs & p & n & _ & (_ & Hp & a & Ha & Hn) & Hsame).
  injection Hp as <-. injection Ha as <-.
  vm_compute in Hn. injection Hn as <-. exact Hsame.
Defined.

(** ** Security groups *)

Section SecGroupResults.
Context {SecGroup SecGroupSubject SecGroupRule : Type}
  `{!PolicyFamily SecGroup SecGroupSubject SecGroupRule}.

(** One round of the loop of [updateSecGrps]. *)
Lemma updateSecGrps_step_spec store acc g :
  acc.2 ⊆ (updateSecGrps_step (SecGroup := SecGroup) store acc g).2
  ∧ (∀ k, k ≠ g →
          secGrpMap (updateSecGrps_step (SecGroup := SecGroup) store acc g).1 !! k
          = secGrpMap acc.1 !! k)
  ∧ match resolveParent (Parent := SecGroup) store g with
    | Some _ =>
        is_Some (secGrpMap
                   (updateSecGrps_step (SecGroup := SecGroup) store acc g).1 !! g)
    | None =>
        secGrpMap (updateSecGrps_step (SecGroup := SecGroup) store acc g).1 !! g
        = None
        ∧ g ∈ (updateSecGrps_step (SecGroup := SecGroup) store acc g).2
    end.
Proof.
  unfold updateSecGrps_step, updateSecGrpRules, updatePolicyRules.
  destruct (resolveParent store g) as [parent|]; cbv zeta;
    cbn [res_updated res_notFound res_rules res_heap fst snd].
  - split; [case_match; [apply union_subseteq_r | done] |].
    split; [intros k Hk; cbn; by rewrite lookup_insert_ne |].
    cbn. rewrite lookup_insert_eq. eauto.
  - split; [apply union_subseteq_r |].
    split; [intros k Hk; cbn; by rewrite lookup_delete_ne, lookup_insert_ne |].
    cbn. rewrite lookup_delete_eq. split; [done |].
    apply elem_of_union_l. by apply elem_of_singleton.
Qed.

Lemma updateSecGrps_loop_spec store keys : ∀ acc,
  let res := foldl (updateSecGrps_step (SecGroup := SecGroup) store) acc keys in
  acc.2 ⊆ res.2
  ∧ ∀ g,
      (g ∉ keys → secGrpMap res.1 !! g = secGrpMap acc.1 !! g)
      ∧ (g ∈ keys →
         match resolveParent (Parent := SecGroup) store g with
         | Some _ => is_Some (secGrpMap res.1 !! g)
         | None => secGrpMap res.1 !! g = None ∧ g ∈ res.2
         end).
Proof.
  induction keys as [| k keys IH]; intros acc res.
  - split; [done |]. intros g. split; [done | by intros ?%elem_of_nil].
  - unfold res. cbn [foldl].
    destruct (updateSecGrps_step_spec store acc k) as (Hsub & Hother & Hat).
    destruct (IH (updateSecGrps_step store acc k)) as [Hsub' Hrest].
    cbv zeta in Hsub', Hrest.
    split; [by etrans |]. intros g. destruct (Hrest g) as [Hout Hin]. split.
    + intros [Hne Hg]%not_elem_of_cons. rewrite Hout by done. by apply Hother.
    + intros Hg. destruct (decide (g ∈ keys)) as [| Hnot]; [by apply Hin |].
      apply elem_of_cons in Hg as [-> | Hg]; [| done].
      rewrite (Hout Hnot).
      destruct (resolveParent store k); [done |].
      destruct Hat as [Hnone Hk]. split; [done | by apply Hsub'].
Qed.

(** X19.  After [updateSecGrps] the map of security groups holds exactly
    the groups it knew whose object resolves; a known group whose object
    does not resolve is put in [toNotify] and has no rules left. *)
Theorem updateSecGrps_result store pm g :
  (is_Some (secGrpMap (updateSecGrps (SecGroup := SecGroup) store pm).1 !! g)
   ↔ is_Some (secGrpMap pm !! g)
     ∧ is_Some (resolveParent (Parent := SecGroup) store g))
  ∧ (is_Some (secGrpMap pm !! g) →
     resolveParent (Parent := SecGroup) store g = None →
     g ∈ (updateSecGrps (SecGroup := SecGroup) store pm).2
     ∧ getSecGroupRules (updateSecGrps (SecGroup := SecGroup) store pm).1 g = []).
Proof.
  unfold updateSecGrps, getSecGroupRules.
  destruct (updateSecGrps_loop_spec store (map_to_list (secGrpMap pm)).*1
              (pm, ∅)) as [_ Hloop].
  cbv zeta in Hloop. destruct (Hloop g) as [Hout Hin]. cbn [fst] in Hout.
  assert (Hkeys : g ∈ (map_to_list (secGrpMap pm)).*1 ↔ is_Some (secGrpMap pm !! g)).
  { rewrite list_elem_of_fmap. split.
    - intros ([g' rs] & -> & Hg%elem_of_map_to_list). eauto.
    - intros [rs Hrs]. exists (g, rs). split; [done |].
      by apply elem_of_map_to_list. }
  rewrite Hkeys in Hin. split.
  - split.
    + intros Hsome. destruct (decide (is_Some (secGrpMap pm !! g))) as [Hk | Hk].
      * split; [done |]. specialize (Hin Hk).
        destruct (resolveParent store g); [eauto |].
        destruct Hin as [Hnone _]. rewrite Hnone in Hsome. by destruct Hsome.
      * rewrite Hout in Hsome by (by rewrite Hkeys). done.
    + intros [Hk [parent Hp]]. specialize (Hin Hk). by rewrite Hp in Hin.
  - intros Hk Hnone. specialize (Hin Hk). rewrite Hnone in Hin.
    destruct Hin as [-> Hn]. done.
Qed.
End SecGroupResults.
